(** * Kid-Voiceover: the client-side audio pipeline

    A shallow embedding of the audio core of the application:
    - the text sanitiser of [generateVoiceover] (the speech service),
    - the PCM decoder [decodeAudioData],
    - the three-prompt fallback loop of [generateVoiceover],
    - the batch driver [handleGenerateScenes] (the [App] component),
    - the [AudioPlayer] component: waveform drawing, play / pause
      bookkeeping and the WAV exporter [getWavBlob].

    Conventions.  A JavaScript string is the list of its UTF-16 code
    units.  A JavaScript number that holds a sample or a time is a
    rational: every sample that can sit in a [Float32Array] is a dyadic
    rational with a 24-bit significand, so the products by 32767 and
    32768 and the quotient by 32768 computed by the code are exact in
    double precision; NaN and the infinities are outside the model.
    Clock readings and offsets are rationals as well, with the exact
    arithmetic that doubles approximate.  A thrown value is a [jsError]. *)

From Stdlib Require Import List ZArith NArith QArith Qabs Qminmax String Ascii Bool Lia.
Import ListNotations.


(** ** JavaScript strings and errors *)

Definition jsstring := list N.

Fixpoint js (s : string) : jsstring :=
  match s with
  | EmptyString => []
  | String a rest => N_of_ascii a :: js rest
  end.

(** An [Error] object: its [name], its [message], and its [cause]. *)
#[warnings="-register-all"]
Inductive jsError : Type :=
| JsError (name : string) (message : jsstring) (cause : option jsError).

Definition errorName (e : jsError) : string :=
  match e with JsError n _ _ => n end.

Definition errorCause (e : jsError) : option jsError :=
  match e with JsError _ _ c => c end.

(** [new Error(msg)] *)
Definition newError (msg : jsstring) : jsError := JsError "Error" msg None.

(** An exception raised by the platform; the message text is
    implementation-defined and kept empty. *)
Definition platformError (name : string) : jsError := JsError name [] None.

Definition RangeError : jsError := platformError "RangeError".
Definition NotSupportedError : jsError := platformError "NotSupportedError".

(** The outcome of a call that may throw. *)
Inductive result (A : Type) : Type :=
| Ok (a : A)
| Throw (e : jsError).
Arguments Ok {A} a.
Arguments Throw {A} e.

(** ** Text sanitising (generateVoiceover, "Sanitize text") *)

Module Clean.

Local Open Scope N_scope.

(** The characters matched by [\s] and removed by [String.prototype.trim]:
    ECMAScript WhiteSpace and LineTerminator code units. *)
Definition isSpace (c : N) : bool :=
  ((9 <=? c) && (c <=? 13)) || (c =? 32) || (c =? 160) || (c =? 5760)
  || ((8192 <=? c) && (c <=? 8202)) || (c =? 8232) || (c =? 8233)
  || (c =? 8239) || (c =? 8287) || (c =? 12288) || (c =? 65279).

Definition occurs (c : N) (s : jsstring) : bool := existsb (N.eqb c) s.

(** [s.replace(/o[\s\S]*?c/g, '')] for two code units [o] and [c]: scanning
    left to right, an [o] that has a [c] somewhere after it starts a match,
    which (the quantifier being lazy) ends at the first such [c]; matching
    resumes after it.  [inside] tells that a match is being consumed. *)
Fixpoint stripSpanFrom (o c : N) (inside : bool) (s : jsstring) : jsstring :=
  match s with
  | [] => []
  | a :: rest =>
      if inside then
        if a =? c then stripSpanFrom o c false rest
        else stripSpanFrom o c true rest
      else if (a =? o) && occurs c rest then stripSpanFrom o c true rest
      else a :: stripSpanFrom o c false rest
  end.

Definition stripSpan (o c : N) (s : jsstring) : jsstring :=
  stripSpanFrom o c false s.

(** [/\[[\s\S]*?\]/g] and [/\([\s\S]*?\)/g] *)
Definition stripBrackets : jsstring -> jsstring := stripSpan 91 93.
Definition stripParens : jsstring -> jsstring := stripSpan 40 41.

(** [/[*_~`]/g] *)
Definition isMarkdown (c : N) : bool :=
  (c =? 42) || (c =? 95) || (c =? 126) || (c =? 96).

Definition stripMarkdown (s : jsstring) : jsstring :=
  filter (fun c => negb (isMarkdown c)) s.

(** [String.prototype.trim] *)
Fixpoint trimStart (s : jsstring) : jsstring :=
  match s with
  | [] => []
  | a :: rest => if isSpace a then trimStart rest else s
  end.

Fixpoint trimEnd (s : jsstring) : jsstring :=
  match s with
  | [] => []
  | a :: rest =>
      match trimEnd rest with
      | [] => if isSpace a then [] else [a]
      | r => a :: r
      end
  end.

Definition trim (s : jsstring) : jsstring := trimEnd (trimStart s).

(** [s.replace(/\s+/g, ' ')]: [inRun] tells that the current run of
    white space has already been replaced by its single space. *)
Fixpoint collapseFrom (inRun : bool) (s : jsstring) : jsstring :=
  match s with
  | [] => []
  | a :: rest =>
      if isSpace a then
        if inRun then collapseFrom true rest else 32 :: collapseFrom true rest
      else a :: collapseFrom false rest
  end.

Definition collapseSpaces (s : jsstring) : jsstring := collapseFrom false s.

(** The value of [cleanText] when the emptiness test is reached. *)
Definition cleanText (text : jsstring) : jsstring :=
  collapseSpaces (trim (stripMarkdown (stripParens (stripBrackets text)))).

End Clean.

(** ** The preprocessing as the specification words it

    Four steps, in order: strip every bracket-delimited span, strip every
    parenthesis-delimited span, strip the markdown markers, collapse each
    run of white space to a single space and trim the ends.  These
    definitions are written from that wording, on their own: they share
    nothing with [Clean], against which they are compared. *)

Module CleanSpec.

Local Open Scope N_scope.

(** White space, code unit by code unit: TAB, LF, VT, FF, CR, SP, NBSP,
    U+1680, U+2000 to U+200A, LS, PS, U+202F, U+205F, U+3000, U+FEFF. *)
Definition whiteSpace : list N :=
  [9; 10; 11; 12; 13; 32; 160; 5760;
   8192; 8193; 8194; 8195; 8196; 8197; 8198; 8199; 8200; 8201; 8202;
   8232; 8233; 8239; 8287; 12288; 65279].

Definition isWhite (c : N) : bool := existsb (N.eqb c) whiteSpace.

(** What follows the first [c] of [s], if there is one. *)
Fixpoint afterFirst (c : N) (s : jsstring) : option jsstring :=
  match s with
  | [] => None
  | a :: rest => if a =? c then Some rest else afterFirst c rest
  end.

(** Reading [s] from the left: an opening [o] that is closed later is
    removed together with everything up to its nearest closing [c], and
    reading goes on after it; any other code unit is kept.  [fuel] bounds
    the number of steps. *)
Fixpoint removeSpansFuel (fuel : nat) (o c : N) (s : jsstring) : jsstring :=
  match fuel with
  | O => s
  | S fuel' =>
      match s with
      | [] => []
      | a :: rest =>
          if a =? o then
            match afterFirst c rest with
            | Some rest' => removeSpansFuel fuel' o c rest'
            | None => a :: removeSpansFuel fuel' o c rest
            end
          else a :: removeSpansFuel fuel' o c rest
      end
  end.

Definition removeSpans (o c : N) (s : jsstring) : jsstring :=
  removeSpansFuel (List.length s) o c s.

(** The markers: asterisk, underscore, tilde, backquote. *)
Definition markers : list N := [42; 95; 126; 96].

Definition removeMarkers (s : jsstring) : jsstring :=
  filter (fun a => negb (existsb (N.eqb a) markers)) s.

(** A white-space code unit followed by another one is dropped; the last
    one of a run becomes a space. *)
Fixpoint collapseRuns (s : jsstring) : jsstring :=
  match s with
  | [] => []
  | a :: rest =>
      if isWhite a then
        match rest with
        | b :: _ => if isWhite b then collapseRuns rest else 32 :: collapseRuns rest
        | [] => [32]
        end
      else a :: collapseRuns rest
  end.

Fixpoint dropLeading (s : jsstring) : jsstring :=
  match s with
  | [] => []
  | a :: rest => if isWhite a then dropLeading rest else a :: rest
  end.

Definition trimEnds (s : jsstring) : jsstring :=
  rev (dropLeading (rev (dropLeading s))).

Definition cleanText_spec (text : jsstring) : jsstring :=
  trimEnds (collapseRuns (removeMarkers
    (removeSpans 40 41 (removeSpans 91 93 text)))).

End CleanSpec.


(** ** Audio buffers and the PCM decoder (decodeAudioData) *)

Module Audio.

(** A Web Audio [AudioBuffer]: [length] frames per channel. *)
Record AudioBuffer : Type := {
  sampleRate : Z;
  length : Z;
  channelData : list (list Q)
}.

Definition numberOfChannels (b : AudioBuffer) : Z :=
  Z.of_nat (List.length (channelData b)).

(** [buffer.getChannelData(c)[i]]; [None] stands for [undefined]. *)
Definition sampleAt (b : AudioBuffer) (c i : Z) : option Q :=
  if (c <? 0)%Z || (i <? 0)%Z then None
  else match nth_error (channelData b) (Z.to_nat c) with
       | Some ch => nth_error ch (Z.to_nat i)
       | None => None
       end.

(** Bounds of [BaseAudioContext.createBuffer] (Web Audio): channel counts
    up to 32 and rates from 8000 to 96000 Hz are the ones every
    implementation accepts. *)
Definition maxChannels : Z := 32.
Definition minSampleRate : Z := 8000.
Definition maxSampleRate : Z := 96000.

(** The buffers the platform can hold: between one and [maxChannels]
    channels, at least one frame, every channel of [length] frames, a
    supported rate. *)
Definition wellFormed (b : AudioBuffer) : Prop :=
  (1 <= numberOfChannels b <= maxChannels)%Z /\ (1 <= length b)%Z /\
  (minSampleRate <= sampleRate b <= maxSampleRate)%Z /\
  Forall (fun ch => Z.of_nat (List.length ch) = length b) (channelData b).

(** Every sample lies in [-1, 1]. *)
Definition normalised (b : AudioBuffer) : Prop :=
  Forall (Forall (fun x => -(1) <= x /\ x <= 1)%Q) (channelData b).

(** [x | 0] and the conversion of a number to an integer argument:
    truncation toward zero. *)
Definition truncate (x : Q) : Z := Z.quot (Qnum x) (Zpos (Qden x)).

(** [ctx.createBuffer(numberOfChannels, length, sampleRate)]: a
    zero-filled buffer, or NotSupportedError when an argument is
    negative, zero or out of its range.  A fractional [length] is
    truncated. *)
Definition createBuffer (nChannels : Z) (len : Q) (rate : Z)
  : result AudioBuffer :=
  let n := truncate len in
  if (nChannels <? 1)%Z || (maxChannels <? nChannels)%Z || (n <? 1)%Z
     || (rate <? minSampleRate)%Z || (maxSampleRate <? rate)%Z
  then Throw NotSupportedError
  else Ok {| sampleRate := rate; length := n;
             channelData := repeat (repeat 0%Q (Z.to_nat n)) (Z.to_nat nChannels) |}.

End Audio.

Module Pcm.

Import Audio.
Local Open Scope Z_scope.

(** One element of an [Int16Array] over little-endian bytes. *)
Definition int16 (lo hi : Z) : Z :=
  let u := lo + 256 * hi in if u <? 32768 then u else u - 65536.

Fixpoint int16Elements (bytes : list Z) : list Z :=
  match bytes with
  | lo :: hi :: rest => int16 lo hi :: int16Elements rest
  | _ => []
  end.

(** [new Int16Array(data.buffer)]: RangeError unless the byte length is
    a multiple of the element size. *)
Definition Int16Array (bytes : list Z) : result (list Z) :=
  if Nat.even (List.length bytes) then Ok (int16Elements bytes)
  else Throw RangeError.

(** [dataInt16[k] / 32768.0] *)
Definition toFloat (dataInt16 : list Z) (k : Z) : Q :=
  (inject_Z (nth (Z.to_nat k) dataInt16 0%Z) / 32768)%Q.

(** The two loops of [decodeAudioData]: frame [i] of channel [channel] is
    element [i * numChannels + channel].  When [frameCount] is fractional
    the source loop visits one more index, which lies outside the buffer
    and whose store the typed array drops. *)
Definition fillChannel (dataInt16 : list Z) (numChannels frames channel : Z)
  : list Q :=
  map (fun i => toFloat dataInt16 (Z.of_nat i * numChannels + channel))
      (seq 0 (Z.to_nat frames)).

(** [frameCount] is the quotient of two numbers.  For a channel count of
    zero the source gets Infinity or NaN where the rational quotient is
    0; [createBuffer] rejects a channel count of zero before it looks at
    the length, so the two agree. *)
Definition decodeAudioData (data : list Z) (sampleRate numChannels : Z)
  : result AudioBuffer :=
  match Int16Array data with
  | Throw e => Throw e
  | Ok dataInt16 =>
      let frameCount :=
        (inject_Z (Z.of_nat (List.length dataInt16)) / inject_Z numChannels)%Q in
      match createBuffer numChannels frameCount sampleRate with
      | Throw e => Throw e
      | Ok buffer =>
          Ok {| sampleRate := Audio.sampleRate buffer;
                length := Audio.length buffer;
                channelData :=
                  map (fun channel =>
                         fillChannel dataInt16 numChannels (Audio.length buffer)
                                     (Z.of_nat channel))
                      (seq 0 (Z.to_nat numChannels)) |}
      end
  end.

End Pcm.

(** ** The WAV exporter (AudioPlayer.getWavBlob) *)

Module Wav.

Import Audio.
Local Open Scope Z_scope.

(** The [DataView] over the zero-filled [ArrayBuffer], with the two
    cursors [pos] and [offset] of the source. *)
Record state : Type := { view : list Z; pos : Z; offset : Z }.

Fixpoint setByte (i : nat) (b : Z) (v : list Z) : list Z :=
  match v, i with
  | [], _ => []
  | _ :: t, O => b :: t
  | h :: t, S i' => h :: setByte i' b t
  end.

(** The low [n] bytes of [x], least significant first (two's complement
    for a negative [x]). *)
Fixpoint littleEndian (n : nat) (x : Z) : list Z :=
  match n with
  | O => []
  | S n' => x mod 256 :: littleEndian n' (x / 256)
  end.

Fixpoint store (at_ : Z) (bytes : list Z) (v : list Z) : list Z :=
  match bytes with
  | [] => v
  | b :: rest => store (at_ + 1) rest (setByte (Z.to_nat at_) b v)
  end.

(** [function setUint16(data) { view.setUint16(pos, data, true); pos += 2; }] *)
Definition setUint16 (data : Z) (st : state) : state :=
  {| view := store (pos st) (littleEndian 2 data) (view st);
     pos := pos st + 2; offset := offset st |}.

(** [function setUint32(data) { view.setUint32(pos, data, true); pos += 4; }] *)
Definition setUint32 (data : Z) (st : state) : state :=
  {| view := store (pos st) (littleEndian 4 data) (view st);
     pos := pos st + 4; offset := offset st |}.

(** [x | 0] on a number: truncation, then wrap-around to 32 bits. *)
Definition toInt32 (x : Q) : Z :=
  (truncate x + 2147483648) mod 4294967296 - 2147483648.

(** The two statements that turn a float sample into the stored integer:
    [sample = Math.max(-1, Math.min(1, x));]
    [sample = (0.5 + sample < 0 ? sample * 32768 : sample * 32767)|0;] *)
Definition clamp (x : Q) : Q := Qmax (-1) (Qmin 1 x).

Definition scale (sample : Q) : Z :=
  toInt32 (if Qlt_le_dec (0.5 + sample) 0 then sample * 32768
           else sample * 32767)%Q.

(** [channels[i][pos]] is [undefined] out of range; the clamp then gives
    NaN and [NaN | 0] is 0. *)
Definition convert (x : option Q) : Z :=
  match x with
  | Some v => scale (clamp v)
  | None => 0
  end.

(** The inner [for] loop: one frame, channels interleaved. *)
Fixpoint writeFrame (b : AudioBuffer) (channels : list Z) (st : state) : state :=
  match channels with
  | [] => st
  | i :: rest =>
      let sample := convert (sampleAt b i (pos st)) in
      writeFrame b rest
        {| view := store (44 + offset st) (littleEndian 2 sample) (view st);
           pos := pos st; offset := offset st + 2 |}
  end.

(** [while (pos < buffer.length) { for ...; pos++ }], with [fuel] bounding
    the number of iterations. *)
Fixpoint writeData (fuel : nat) (b : AudioBuffer) (st : state) : state :=
  match fuel with
  | O => st
  | S fuel' =>
      if pos st <? Audio.length b then
        let st' := writeFrame b (map Z.of_nat (seq 0 (Z.to_nat (numberOfChannels b)))) st in
        writeData fuel' b {| view := view st'; pos := pos st' + 1; offset := offset st' |}
      else st
  end.

Definition writeHeader (b : AudioBuffer) (length_ : Z) (st : state) : state :=
  let numOfChan := numberOfChannels b in
  let st := setUint32 0x46464952 st in
  let st := setUint32 (length_ - 8) st in
  let st := setUint32 0x45564157 st in
  let st := setUint32 0x20746d66 st in
  let st := setUint32 16 st in
  let st := setUint16 1 st in
  let st := setUint16 numOfChan st in
  let st := setUint32 (sampleRate b) st in
  let st := setUint32 (sampleRate b * 2 * numOfChan) st in
  let st := setUint16 (numOfChan * 2) st in
  let st := setUint16 16 st in
  let st := setUint32 0x61746164 st in
  setUint32 (length_ - pos st - 4) st.

(** The bytes of the Blob, or [None] for [null] when no buffer is bound. *)
Definition getWavBlob (audioBuffer : option AudioBuffer) : option (list Z) :=
  match audioBuffer with
  | None => None
  | Some buffer =>
      let numOfChan := numberOfChannels buffer in
      let length_ := Audio.length buffer * numOfChan * 2 + 44 in
      let st := {| view := repeat 0 (Z.to_nat length_); pos := 0; offset := 0 |} in
      let st := writeHeader buffer length_ st in
      let st := writeData (Z.to_nat (Audio.length buffer)) buffer st in
      Some (view st)
  end.

(** The payload of the data chunk: what follows the 44-byte header. *)
Definition dataChunk (wav : list Z) : list Z := skipn 44 wav.

End Wav.

(** ** Voice configuration (types) *)

Inductive Gender : Type := GIRL | BOY.
Inductive Accent : Type := AMERICAN | INDIAN.
Inductive Tone : Type := HAPPY | FRIENDLY | ANGRY | EXCITED | CALM.

Definition accentValue (a : Accent) : jsstring :=
  match a with
  | AMERICAN => js "American English"
  | INDIAN => js "Indian English"
  end.

Definition toneValue (t : Tone) : jsstring :=
  match t with
  | HAPPY => js "Happy"
  | FRIENDLY => js "Friendly"
  | ANGRY => js "Angry"
  | EXCITED => js "Excited"
  | CALM => js "Calm"
  end.

Record VoiceConfig : Type := {
  id : option jsstring;
  gender : Gender;
  age : Z;
  accent : Accent;
  pitch : Q;
  tone : Tone
}.

(** ** Speech synthesis with prompt fallback (generateVoiceover) *)

Module Synth.

Import Audio.

(** The parts of a [generateContent] response that the code inspects. *)
Record Blob : Type := { data : option jsstring }.
Record Part : Type := { inlineData : option Blob }.
Record Content : Type := { parts : option (list Part) }.
Record Candidate : Type := {
  finishReason : option jsstring;
  content : option Content
}.
Record Response : Type := { candidates : option (list Candidate) }.

Record Request : Type := {
  model : jsstring;
  promptText : jsstring;
  voiceName : jsstring
}.

(** What the call does to the outside world, in order. *)
Inductive event : Type :=
| Requested (r : Request)
| Slept (ms : Z).

Section WithRemote.

(** The remote service is a state machine answering one request at a
    time; [atob] is the platform's base64 decoder, which returns a binary
    string or throws. *)
Variable Remote : Type.
Variable generateContent : Remote -> Request -> Remote * result Response.
Variable atob : jsstring -> result jsstring.

Record world : Type := { remote : Remote; trace : list event }.

Definition emit (e : event) (w : world) : world :=
  {| remote := remote w; trace := trace w ++ [e] |}.

(** [decode]: the bytes of the binary string ([Uint8Array] keeps the low
    eight bits of each code unit). *)
Definition decode (base64 : jsstring) : result (list Z) :=
  match atob base64 with
  | Throw e => Throw e
  | Ok binaryString => Ok (map (fun c => (Z.of_N c mod 256)%Z) binaryString)
  end.

(** [getClient]: the key must be a non-empty string. *)
Definition getClient (apiKey : option jsstring) : result unit :=
  match apiKey with
  | Some (_ :: _) => Ok tt
  | _ => Throw (newError (js "API Key not found in environment variables"))
  end.

Definition truthy (s : option jsstring) : bool :=
  match s with
  | Some (_ :: _) => true
  | _ => false
  end.

Definition hasAudio (p : Part) : bool :=
  match inlineData p with
  | Some b => truthy (data b)
  | None => false
  end.

Definition isStop (r : option jsstring) : bool :=
  match r with
  | Some s => if list_eq_dec N.eq_dec s (js "STOP") then true else false
  | None => false
  end.

Definition noContent (c : Candidate) : bool :=
  match content c with Some _ => false | None => true end.

(** The body of the [try] block after the response has arrived. *)
Definition readResponse (response : Response) : result AudioBuffer :=
  match candidates response with
  | None | Some [] => Throw (newError (js "No candidates returned from API."))
  | Some (candidate :: _) =>
      if negb (isStop (finishReason candidate)) && noContent candidate then
        let reason :=
          if truthy (finishReason candidate)
          then match finishReason candidate with Some r => r | None => [] end
          else js "UNKNOWN" in
        Throw (newError (js "Stopped. Reason: " ++ reason))
      else
        let ps := match content candidate with
                  | Some {| parts := Some ps |} => ps
                  | _ => []
                  end in
        match find hasAudio ps with
        | Some {| inlineData := Some {| data := Some base64Audio |} |} =>
            match decode base64Audio with
            | Throw e => Throw e
            | Ok bytes => Pcm.decodeAudioData bytes 24000 1
            end
        | _ => Throw (newError (js "No audio data received."))
        end
  end.

(** One iteration of the loop up to the [catch]: the request is issued,
    then its outcome is read. *)
Definition attempt (voice prompt : jsstring) (w : world)
  : world * result AudioBuffer :=
  let req := {| model := js "gemini-2.5-flash-preview-tts";
                promptText := prompt; voiceName := voice |} in
  let (r', answer) := generateContent (remote w) req in
  let w' := emit (Requested req) {| remote := r'; trace := trace w |} in
  (w', match answer with
       | Throw e => Throw e
       | Ok response => readResponse response
       end).

(** [for (const promptText of prompts) { try { ...; return audioBuffer }
    catch (error) { lastError = error; await sleep(800) } }]
    [throw lastError || new Error(...)] *)
Fixpoint tryPrompts (voice : jsstring) (prompts : list jsstring)
         (lastError : option jsError) (w : world)
  : world * result AudioBuffer :=
  match prompts with
  | [] =>
      (w, Throw match lastError with
                | Some e => e
                | None => newError (js "Voice generation failed after retries.")
                end)
  | prompt :: rest =>
      match attempt voice prompt w with
      | (w', Ok audioBuffer) => (w', Ok audioBuffer)
      | (w', Throw error) => tryPrompts voice rest (Some error) (emit (Slept 800) w')
      end
  end.

Definition prompts (config : VoiceConfig) (cleanText : jsstring) : list jsstring :=
  [ js "Say with a " ++ accentValue (accent config) ++ js " accent and "
      ++ toneValue (tone config) ++ js " tone: " ++ cleanText;
    js "Read the following text aloud: " ++ cleanText;
    cleanText ].

Definition voiceFor (config : VoiceConfig) : jsstring :=
  match gender config with GIRL => js "Kore" | BOY => js "Puck" end.

Definition generateVoiceover (apiKey : option jsstring) (text : jsstring)
           (config : VoiceConfig) (w : world) : world * result AudioBuffer :=
  match getClient apiKey with
  | Throw e => (w, Throw e)
  | Ok _ =>
      let cleanText := Clean.cleanText text in
      match cleanText with
      | [] => (w, Throw (newError (js "Text segment is empty after cleaning.")))
      | _ :: _ =>
          tryPrompts (voiceFor config) (prompts config cleanText) None w
      end
  end.

End WithRemote.

Arguments remote {Remote} w.
Arguments trace {Remote} w.
Arguments emit {Remote} e w.
Arguments attempt {Remote} generateContent atob voice prompt w.
Arguments tryPrompts {Remote} generateContent atob voice prompts lastError w.
Arguments generateVoiceover {Remote} generateContent atob apiKey text config w.

End Synth.

(** ** Scene segmentation and batch synthesis (App.handleGenerateScenes) *)

Module Batch.

Import Audio.

Inductive Status : Type := idle | generating | completed | error.

(** The identifier [`seg-${Date.now()}-${idx}`], kept as the pair of
    numbers it is printed from. *)
Record VoiceSegment : Type := {
  segId : Z * nat;
  text : jsstring;
  audioBuffer : option AudioBuffer;
  videoUrl : option jsstring;
  status : Status;
  videoStatus : Status
}.

(** The React state the handler writes. *)
Record AppState : Type := {
  isGenerating : bool;
  errorMessage : option jsstring;
  displayedAudio : option AudioBuffer;
  activeVideoUrl : option jsstring;
  segments : list VoiceSegment
}.

(** [script.split(/\n+/)]: [cur] is the piece being read, [inRun] tells
    that the separator before it has been consumed. *)
Fixpoint splitFrom (inRun : bool) (cur s : jsstring) : list jsstring :=
  match s with
  | [] => [cur]
  | a :: rest =>
      if (a =? 10)%N then
        if inRun then splitFrom true cur rest
        else cur :: splitFrom true [] rest
      else splitFrom false (cur ++ [a]) rest
  end.

Definition splitLines (script : jsstring) : list jsstring :=
  splitFrom false [] script.

Definition nonBlank (s : jsstring) : bool :=
  match Clean.trim s with [] => false | _ :: _ => true end.

Definition rawSegments (script : jsstring) : list jsstring :=
  filter nonBlank (splitLines script).

Definition sameId (a b : Z * nat) : bool :=
  (fst a =? fst b)%Z && (snd a =? snd b)%nat.

Section WithRemote.

Variable Remote : Type.
Variable generateContent :
  Remote -> Synth.Request -> Remote * result Synth.Response.
Variable atob : jsstring -> result jsstring.
(** [Date.now()] as read when the segment of a given index is built. *)
Variable dateNow : nat -> Z.

Definition newSegment (idx : nat) (t : jsstring) : VoiceSegment :=
  {| segId := (dateNow idx, idx); text := Clean.trim t; audioBuffer := None;
     videoUrl := None; status := idle; videoStatus := idle |}.

Fixpoint mapIndexed (idx : nat) (raw : list jsstring) : list VoiceSegment :=
  match raw with
  | [] => []
  | t :: rest => newSegment idx t :: mapIndexed (S idx) rest
  end.

(** [setSegments(prev => prev.map(s => s.id === id ? f(s) : s))] *)
Definition updateSegment (sid : Z * nat) (f : VoiceSegment -> VoiceSegment)
           (st : AppState) : AppState :=
  {| isGenerating := isGenerating st; errorMessage := errorMessage st;
     displayedAudio := displayedAudio st; activeVideoUrl := activeVideoUrl st;
     segments := map (fun s => if sameId (segId s) sid then f s else s)
                     (segments st) |}.

Definition withStatus (x : Status) (s : VoiceSegment) : VoiceSegment :=
  {| segId := segId s; text := text s; audioBuffer := audioBuffer s;
     videoUrl := videoUrl s; status := x; videoStatus := videoStatus s |}.

Definition withAudio (b : AudioBuffer) (s : VoiceSegment) : VoiceSegment :=
  {| segId := segId s; text := text s; audioBuffer := Some b;
     videoUrl := videoUrl s; status := completed; videoStatus := videoStatus s |}.

Definition setAudioBuffer (b : option AudioBuffer) (st : AppState) : AppState :=
  {| isGenerating := isGenerating st; errorMessage := errorMessage st;
     displayedAudio := b; activeVideoUrl := activeVideoUrl st;
     segments := segments st |}.

Definition setIsGenerating (g : bool) (st : AppState) : AppState :=
  {| isGenerating := g; errorMessage := errorMessage st;
     displayedAudio := displayedAudio st; activeVideoUrl := activeVideoUrl st;
     segments := segments st |}.

Local Abbreviation world := (Synth.world Remote).

(** The body of the [for] loop for the segment of index [i]. *)
Definition step (apiKey : option jsstring) (config : VoiceConfig)
           (i : nat) (segment : VoiceSegment) (ws : world * AppState)
  : world * AppState :=
  let (w, st) := ws in
  let st := updateSegment (segId segment) (withStatus generating) st in
  match Synth.generateVoiceover generateContent atob apiKey (text segment) config w with
  | (w', Ok buffer) =>
      let st := updateSegment (segId segment) (withAudio buffer) st in
      (w', if (i =? 0)%nat then setAudioBuffer (Some buffer) st else st)
  | (w', Throw _) =>
      (w', updateSegment (segId segment) (withStatus error) st)
  end.

(** [for (let i = 0; i < newSegments.length; i++)], from index [i] on. *)
Fixpoint loop (apiKey : option jsstring) (config : VoiceConfig)
         (i : nat) (newSegments : list VoiceSegment) (ws : world * AppState)
  : world * AppState :=
  match newSegments with
  | [] => ws
  | segment :: rest =>
      loop apiKey config (S i) rest (step apiKey config i segment ws)
  end.

Definition handleGenerateScenes (apiKey : option jsstring) (script : jsstring)
           (config : VoiceConfig) (ws : world * AppState) : world * AppState :=
  let (w, st) := ws in
  let st := {| isGenerating := true; errorMessage := None;
               displayedAudio := None; activeVideoUrl := None;
               segments := segments st |} in
  match rawSegments script with
  | [] =>
      (w, {| isGenerating := false;
             errorMessage := Some (js "Script is empty!");
             displayedAudio := displayedAudio st;
             activeVideoUrl := activeVideoUrl st; segments := segments st |})
  | raw =>
      let newSegments := mapIndexed 0 raw in
      let st := {| isGenerating := isGenerating st;
                   errorMessage := errorMessage st;
                   displayedAudio := displayedAudio st;
                   activeVideoUrl := activeVideoUrl st;
                   segments := newSegments |} in
      let (w', st') := loop apiKey config 0 newSegments (w, st) in
      (w', setIsGenerating false st')
  end.

End WithRemote.

Arguments step {Remote} generateContent atob apiKey config i segment ws.
Arguments loop {Remote} generateContent atob apiKey config i newSegments ws.
Arguments handleGenerateScenes {Remote} generateContent atob dateNow apiKey script config ws.

End Batch.

(** ** The audio player component (AudioPlayer) *)

Module Player.

Import Audio.
Local Open Scope Q_scope.









End Player.

(** ** The waveform drawing effect (AudioPlayer, "Draw Waveform") *)

Module Waveform.

Import Audio.

(** One [fillRect] call, with the magnitude [val] it was computed from. *)
Record Bar : Type := {
  x : Z;
  barHeight : Q;
  val : Q;
  fillStyle : string
}.

Definition barWidth : Z := 2.
Definition gap : Z := 1.

(** [Math.ceil(a / b)] for a positive [b]. *)
Definition ceilDiv (a b : Z) : Z := (- ((- a) / b))%Z.

(** The inner loop: [min] and [max] over the window of [step] samples
    starting at [start]; an index past the end reads [undefined], which
    compares false both ways. *)
Fixpoint window (data : list Q) (start : Z) (step : nat) (j : Z) (mm : Q * Q)
  : Q * Q :=
  match step with
  | O => mm
  | S step' =>
      let (min, max) := mm in
      let mm' :=
        match (if (start + j <? 0)%Z then None
               else nth_error data (Z.to_nat (start + j))) with
        | Some datum =>
            (if Qlt_le_dec datum min then datum else min,
             if Qlt_le_dec max datum then datum else max)
        | None => (min, max)
        end in
      window data start step' (j + 1) mm'
  end.

Definition bar (data : list Q) (step : Z) (height : Q) (i : Z) : Bar :=
  let (min, max) := window data (i * step) (Z.to_nat step) 0 (1, -(1))%Q in
  let v := Qmax (Qabs min) (Qabs max) in
  {| x := i;
     barHeight := Qmax (v * height) 2;
     val := v;
     fillStyle := if Qlt_le_dec (1 # 2) v then "#ec4899" else "#6366f1" |}.

(** [for (let i = 0; i < width; i += barWidth + gap)] *)
Fixpoint bars (fuel : nat) (data : list Q) (step : Z) (width : Z) (height : Q)
         (i : Z) : list Bar :=
  match fuel with
  | O => []
  | S fuel' =>
      if (i <? width)%Z
      then bar data step height i
             :: bars fuel' data step width height (i + (barWidth + gap))
      else []
  end.

(** The effect: nothing is drawn without a buffer; otherwise one bar per
    iteration.  [width] and [height] are the CSS size of the canvas, in
    whole pixels. *)
Definition drawWaveform (audioBuffer : option AudioBuffer) (width : Z)
           (height : Q) : list Bar :=
  match audioBuffer with
  | None => []
  | Some b =>
      let data := nth 0 (channelData b) [] in
      let step := ceilDiv (Z.of_nat (List.length data)) width in
      bars (Z.to_nat width) data step width height 0
  end.

Definition magnitudes (bs : list Bar) : list Q := map val bs.

End Waveform.

(** ** A base64 decoder

    [atob] belongs to the platform and is a parameter of the model.  The
    examples instantiate it with this decoder of padded base64 (it
    rejects, with InvalidCharacterError, anything else). *)

Module Base64.

Local Open Scope N_scope.

Definition InvalidCharacterError : jsError := platformError "InvalidCharacterError".

Definition sextet (c : N) : option N :=
  if (65 <=? c) && (c <=? 90) then Some (c - 65)
  else if (97 <=? c) && (c <=? 122) then Some (c - 71)
  else if (48 <=? c) && (c <=? 57) then Some (c + 4)
  else if c =? 43 then Some 62
  else if c =? 47 then Some 63
  else None.

Definition quad (a b c d : N) : option (list N) :=
  match sextet a, sextet b with
  | Some x, Some y =>
      let b0 := x * 4 + y / 16 in
      if (c =? 61) && (d =? 61) then Some [b0]
      else match sextet c with
           | Some z =>
               let b1 := (y mod 16) * 16 + z / 4 in
               if d =? 61 then Some [b0; b1]
               else match sextet d with
                    | Some t => Some [b0; b1; (z mod 4) * 64 + t]
                    | None => None
                    end
           | None => None
           end
  | _, _ => None
  end.

Fixpoint atob (s : jsstring) : result jsstring :=
  match s with
  | [] => Ok []
  | a :: b :: c :: d :: rest =>
      match quad a b c d with
      | Some bytes =>
          match List.length bytes, rest with
          | 3%nat, _ | _, [] =>
              match atob rest with
              | Ok tail => Ok (bytes ++ tail)
              | Throw e => Throw e
              end
          | _, _ => Throw InvalidCharacterError
          end
      | None => Throw InvalidCharacterError
      end
  | _ => Throw InvalidCharacterError
  end.

End Base64.

(** ** Video generation for a segment (generateVideoSegment) *)

Module Video.

Local Open Scope N_scope.

(** The code units that [.] does not match: the line terminators. *)
Definition isLineTerminator (c : N) : bool :=
  (c =? 10) || (c =? 13) || (c =? 8232) || (c =? 8233).

(** [(.*?)\]] tried right after a [[]: the stretch up to the first []],
    provided no line terminator comes before it. *)
Fixpoint untilClose (s : jsstring) : option jsstring :=
  match s with
  | [] => None
  | a :: rest =>
      if a =? 93 then Some []
      else if isLineTerminator a then None
      else match untilClose rest with
           | Some group => Some (a :: group)
           | None => None
           end
  end.

(** [input.match(/\[(.*?)\]/)]: group 1 of the leftmost match, if any. *)
Fixpoint visualMatch (input : jsstring) : option jsstring :=
  match input with
  | [] => None
  | a :: rest =>
      if a =? 91 then
        match untilClose rest with
        | Some group => Some group
        | None => visualMatch rest
        end
      else visualMatch rest
  end.

Definition defaultPrompt : jsstring :=
  js "cute cartoon character smiling, happy atmosphere, bright colors".

(** [textPrompt] when the request is built. *)
Definition textPrompt (input : jsstring) : jsstring :=
  let textPrompt := match visualMatch input with
                    | Some group => group
                    | None => input
                    end in
  let textPrompt :=
    Clean.trim (map (fun c => if c =? 10 then 32 else c) textPrompt) in
  if (List.length textPrompt <? 2)%nat then defaultPrompt else textPrompt.

Definition enhancedPrompt (input : jsstring) : jsstring :=
  js "cinematic 3d animation style, cute, colorful, for kids video, high quality, "
  ++ textPrompt input.

(** What the code reads of an operation: [done] and
    [response?.generatedVideos?.[0]?.video?.uri]. *)
Record Operation : Type := { done : bool; uri : option jsstring }.

Inductive event : Type :=
| Started (prompt : jsstring)
| Slept (ms : Z)
| Polled
| Fetched (url : jsstring).

Section WithRemote.

(** The video service and the network, as one state machine:
    [generateVideos] starts an operation, [getVideosOperation] refreshes
    it, [fetchObjectURL] downloads a link and returns the object URL made
    of the bytes. *)
Variable Remote : Type.
Variable generateVideos : Remote -> jsstring -> Remote * result Operation.
Variable getVideosOperation : Remote -> Operation -> Remote * result Operation.
Variable fetchObjectURL : Remote -> jsstring -> Remote * result jsstring.

Record world : Type := { remote : Remote; trace : list event }.

Definition emit (e : event) (r : Remote) (w : world) : world :=
  {| remote := r; trace := trace w ++ [e] |}.

(** [while (!operation.done) { sleep 5000; operation = refresh }]: [None]
    when [fuel] rounds were not enough to leave the loop. *)
Fixpoint poll (fuel : nat) (operation : Operation) (w : world)
  : world * option (result Operation) :=
  if done operation then (w, Some (Ok operation))
  else match fuel with
       | O => (w, None)
       | S fuel' =>
           let w := emit (Slept 5000) (remote w) w in
           let (r', answer) := getVideosOperation (remote w) operation in
           let w := emit Polled r' w in
           match answer with
           | Throw e => (w, Some (Throw e))
           | Ok operation' => poll fuel' operation' w
           end
       end.

Definition generateVideoSegment (fuel : nat) (apiKey : option jsstring)
           (input : jsstring) (w : world) : world * option (result jsstring) :=
  match apiKey with
  | Some (k :: key) =>
      let (r', answer) := generateVideos (remote w) (enhancedPrompt input) in
      let w := emit (Started (enhancedPrompt input)) r' w in
      match answer with
      | Throw e => (w, Some (Throw e))
      | Ok operation =>
          match poll fuel operation w with
          | (w, None) => (w, None)
          | (w, Some (Throw e)) => (w, Some (Throw e))
          | (w, Some (Ok operation)) =>
              match uri operation with
              | Some (c :: downloadLink) =>
                  let url := (c :: downloadLink) ++ js "&key=" ++ (k :: key) in
                  let (r', answer) := fetchObjectURL (remote w) url in
                  (emit (Fetched url) r' w, Some answer)
              | _ =>
                  (w, Some (Throw (newError
                     (js "Video generation completed but no URI returned."))))
              end
          end
      end
  | _ => (w, Some (Throw (newError (js "API Key not found in environment variables"))))
  end.

End WithRemote.

Arguments remote {Remote} w.
Arguments trace {Remote} w.
Arguments emit {Remote} e r w.
Arguments poll {Remote} getVideosOperation fuel operation w.
Arguments generateVideoSegment {Remote} generateVideos getVideosOperation
  fetchObjectURL fuel apiKey input w.

End Video.

(** ** Custom voices (VoiceSelector and App) *)

Module VoiceLab.

Record CustomVoice : Type := {
  voiceId : jsstring;
  name : jsstring;
  config : VoiceConfig
}.

(** The two pieces of App state the handlers write. *)
Record LabState : Type := {
  customVoices : list CustomVoice;
  current : VoiceConfig
}.

(** [{ ...c, id: i }] *)
Definition withId (i : option jsstring) (c : VoiceConfig) : VoiceConfig :=
  {| id := i; gender := gender c; age := age c; accent := accent c;
     pitch := pitch c; tone := tone c |}.

Definition sameString (a b : jsstring) : bool :=
  if list_eq_dec N.eq_dec a b then true else false.

(** The initial state of App. *)
Definition initial : LabState :=
  {| customVoices := [];
     current := {| id := None; gender := GIRL; age := 8; accent := INDIAN;
                   pitch := 12 # 10; tone := FRIENDLY |} |}.

(** [VoiceSelector.handleSaveVoice] followed by [App.handleSaveVoice];
    [now] is [Date.now().toString()]. *)
Definition handleSaveVoice (now newVoiceName : jsstring) (st : LabState) : LabState :=
  match Clean.trim newVoiceName with
  | [] => st
  | _ :: _ =>
      let newVoice := {| voiceId := now; name := newVoiceName;
                         config := withId None (current st) |} in
      {| customVoices := customVoices st ++ [newVoice]; current := current st |}
  end.

(** [handleCustomVoiceSelect] *)
Definition handleCustomVoiceSelect (voice : CustomVoice) (st : LabState) : LabState :=
  {| customVoices := customVoices st;
     current := withId (Some (voiceId voice)) (config voice) |}.

(** [App.handleDeleteVoice] *)
Definition handleDeleteVoice (i : jsstring) (st : LabState) : LabState :=
  {| customVoices := filter (fun v => negb (sameString (voiceId v) i))
                            (customVoices st);
     current := match id (current st) with
                | Some j => if sameString j i then withId None (current st)
                            else current st
                | None => current st
                end |}.

(** [handleGenderSelect]: the pitch goes back to 1.2. *)
Definition handleGenderSelect (g : Gender) (st : LabState) : LabState :=
  {| customVoices := customVoices st;
     current := {| id := id (current st); gender := g; age := age (current st);
                   accent := accent (current st); pitch := 12 # 10;
                   tone := tone (current st) |} |}.

Definition handleAccentSelect (a : Accent) (st : LabState) : LabState :=
  {| customVoices := customVoices st;
     current := {| id := id (current st); gender := gender (current st);
                   age := age (current st); accent := a;
                   pitch := pitch (current st); tone := tone (current st) |} |}.

Definition handleToneSelect (t : Tone) (st : LabState) : LabState :=
  {| customVoices := customVoices st;
     current := {| id := id (current st); gender := gender (current st);
                   age := age (current st); accent := accent (current st);
                   pitch := pitch (current st); tone := t |} |}.

(** [handleAgeChange] and [handlePitchChange], on the number read from
    the slider. *)
Definition handleAgeChange (n : Z) (st : LabState) : LabState :=
  {| customVoices := customVoices st;
     current := {| id := id (current st); gender := gender (current st);
                   age := n; accent := accent (current st);
                   pitch := pitch (current st); tone := tone (current st) |} |}.

Definition handlePitchChange (x : Q) (st : LabState) : LabState :=
  {| customVoices := customVoices st;
     current := {| id := id (current st); gender := gender (current st);
                   age := age (current st); accent := accent (current st);
                   pitch := x; tone := tone (current st) |} |}.

(** What the user can do; a voice is selected among the listed ones, by
    its position. *)
Inductive action : Type :=
| Save (now newVoiceName : jsstring)
| Select (position : nat)
| Delete (i : jsstring)
| SetGender (g : Gender)
| SetAccent (a : Accent)
| SetTone (t : Tone)
| SetAge (n : Z)
| SetPitch (x : Q).

Definition act (st : LabState) (a : action) : LabState :=
  match a with
  | Save now newVoiceName => handleSaveVoice now newVoiceName st
  | Select position =>
      match nth_error (customVoices st) position with
      | Some voice => handleCustomVoiceSelect voice st
      | None => st
      end
  | Delete i => handleDeleteVoice i st
  | SetGender g => handleGenderSelect g st
  | SetAccent a => handleAccentSelect a st
  | SetTone t => handleToneSelect t st
  | SetAge n => handleAgeChange n st
  | SetPitch x => handlePitchChange x st
  end.

Definition run (actions : list action) (st : LabState) : LabState :=
  fold_left act actions st.

End VoiceLab.

(** * Properties *)

(** ** The sanitiser *)

Module CleanFacts.

Import Clean.
Local Open Scope N_scope.

(** *** White-space collapsing and trimming *)

Lemma collapseFrom_idem (b : bool) (s : jsstring) :
  collapseFrom b (collapseFrom b s) = collapseFrom b s.
Proof.
  revert b; induction s as [|a rest IH]; intros b; simpl; [reflexivity|].
  destruct (isSpace a) eqn:Ha.
  - destruct b; simpl; [apply IH|].
    change (isSpace 32) with true; cbv iota. now rewrite IH.
  - simpl. now rewrite Ha, IH.
Qed.

Lemma collapse_trimStart (s : jsstring) :
  collapseFrom false (trimStart s) = collapseFrom true s.
Proof.
  induction s as [|a rest IH]; simpl; [reflexivity|].
  destruct (isSpace a) eqn:Ha; [exact IH|].
  simpl. now rewrite Ha.
Qed.

Lemma trimStart_collapse_true (s : jsstring) :
  trimStart (collapseFrom true s) = collapseFrom true s.
Proof.
  induction s as [|a rest IH]; simpl; [reflexivity|].
  destruct (isSpace a) eqn:Ha; [exact IH|].
  simpl. now rewrite Ha.
Qed.

Lemma trimStart_collapse (s : jsstring) :
  trimStart (collapseFrom false s) = collapseFrom true s.
Proof.
  destruct s as [|a rest]; simpl; [reflexivity|].
  destruct (isSpace a) eqn:Ha; simpl.
  - change (isSpace 32) with true; cbv iota. apply trimStart_collapse_true.
  - now rewrite Ha.
Qed.

Lemma trimEnd_cons (a : N) (s : jsstring) :
  trimEnd s <> [] -> trimEnd (a :: s) = a :: trimEnd s.
Proof. simpl. destruct (trimEnd s); congruence. Qed.

Lemma trimEnd_cons_nil (a : N) (s : jsstring) :
  trimEnd s = [] -> trimEnd (a :: s) = if isSpace a then [] else [a].
Proof. simpl. now intros ->. Qed.

Lemma trimEnd_idem (s : jsstring) : trimEnd (trimEnd s) = trimEnd s.
Proof.
  induction s as [|a rest IH]; [reflexivity|].
  destruct (trimEnd rest) as [|r0 r] eqn:Hr.
  - rewrite (trimEnd_cons_nil a rest Hr).
    destruct (isSpace a) eqn:Ha; simpl; [reflexivity | now rewrite Ha].
  - rewrite (trimEnd_cons a rest) by congruence.
    rewrite Hr in *. rewrite trimEnd_cons by congruence. now rewrite IH.
Qed.

Lemma collapse_nil_trimEnd (b : bool) (s : jsstring) :
  collapseFrom b s = [] -> trimEnd s = [].
Proof.
  revert b; induction s as [|a rest IH]; intros b H; [reflexivity|].
  simpl in H. destruct (isSpace a) eqn:Ha; [|discriminate].
  destruct b; [|discriminate].
  rewrite (trimEnd_cons_nil a rest (IH _ H)). now rewrite Ha.
Qed.

Lemma collapse_trimEnd_nonempty (b : bool) (s : jsstring) :
  trimEnd s <> [] -> collapseFrom b (trimEnd s) <> [].
Proof.
  intros Hne H. apply collapse_nil_trimEnd in H.
  rewrite trimEnd_idem in H. contradiction.
Qed.

Lemma trimEnd_collapse (b : bool) (s : jsstring) :
  trimEnd (collapseFrom b s) = collapseFrom b (trimEnd s).
Proof.
  revert b; induction s as [|a rest IH]; intros b; [reflexivity|].
  destruct (trimEnd rest) as [|r0 r] eqn:Hr.
  - rewrite (trimEnd_cons_nil a rest Hr). cbn [collapseFrom].
    destruct (isSpace a) eqn:Ha.
    + destruct b.
      * rewrite IH. reflexivity.
      * rewrite trimEnd_cons_nil by (rewrite IH; reflexivity). reflexivity.
    + rewrite trimEnd_cons_nil by (rewrite IH; reflexivity).
      cbn [collapseFrom]. now rewrite Ha.
  - assert (Hne : trimEnd rest <> []) by congruence.
    rewrite <- Hr in *. clear Hr.
    rewrite trimEnd_cons by assumption. cbn [collapseFrom].
    destruct (isSpace a) eqn:Ha.
    + destruct b; [apply IH|].
      rewrite trimEnd_cons, IH; [reflexivity|].
      rewrite IH. now apply collapse_trimEnd_nonempty.
    + rewrite trimEnd_cons, IH; [reflexivity|].
      rewrite IH. now apply collapse_trimEnd_nonempty.
Qed.

(** Trimming and collapsing commute, whichever comes first. *)
Lemma collapse_trim (s : jsstring) :
  collapseSpaces (trim s) = trim (collapseSpaces s).
Proof.
  unfold collapseSpaces, trim.
  rewrite <- trimEnd_collapse, collapse_trimStart, trimStart_collapse.
  reflexivity.
Qed.

Definition startsClean (s : jsstring) : bool :=
  match s with [] => true | a :: _ => negb (isSpace a) end.

Lemma startsClean_trimStart (s : jsstring) : startsClean (trimStart s) = true.
Proof.
  induction s as [|a rest IH]; simpl; [reflexivity|].
  destruct (isSpace a) eqn:Ha; [exact IH|]. simpl. now rewrite Ha.
Qed.

Lemma startsClean_trimEnd (s : jsstring) :
  startsClean s = true -> startsClean (trimEnd s) = true.
Proof.
  destruct s as [|a rest]; simpl; [reflexivity|]. intros Ha.
  destruct (trimEnd rest); [|exact Ha].
  destruct (isSpace a) eqn:E; [reflexivity|]. simpl. now rewrite E.
Qed.

Lemma trimStart_fix (s : jsstring) : startsClean s = true -> trimStart s = s.
Proof.
  destruct s as [|a rest]; simpl; [reflexivity|].
  now destruct (isSpace a).
Qed.

Lemma trim_idem (s : jsstring) : trim (trim s) = trim s.
Proof.
  unfold trim.
  rewrite (trimStart_fix (trimEnd (trimStart s))).
  - apply trimEnd_idem.
  - apply startsClean_trimEnd, startsClean_trimStart.
Qed.

(** *** Spans and markers *)

(** [t] is [s] with some code units deleted and some white-space code
    units turned into a space: what every stage of the sanitiser does. *)
Inductive Thinned : jsstring -> jsstring -> Prop :=
| thin_nil : Thinned [] []
| thin_drop a s t : Thinned s t -> Thinned (a :: s) t
| thin_keep a s t : Thinned s t -> Thinned (a :: s) (a :: t)
| thin_space a s t : isSpace a = true -> Thinned s t -> Thinned (a :: s) (32 :: t).

Create HintDb thin.
#[local] Hint Constructors Thinned : thin.

Lemma Thinned_refl (s : jsstring) : Thinned s s.
Proof. induction s; auto with thin. Qed.

Lemma Thinned_trans (s t u : jsstring) :
  Thinned s t -> Thinned t u -> Thinned s u.
Proof.
  intros Hst; revert u; induction Hst; intros u Htu; auto with thin.
  - inversion Htu; subst; auto with thin.
  - inversion Htu; subst; auto with thin.
Qed.

Lemma Thinned_stripSpan (o c : N) (b : bool) (s : jsstring) :
  Thinned s (stripSpanFrom o c b s).
Proof.
  revert b; induction s as [|a rest IH]; intros b; simpl; [constructor|].
  destruct b.
  - destruct (a =? c); auto with thin.
  - destruct ((a =? o) && occurs c rest); auto with thin.
Qed.

Lemma Thinned_stripMarkdown (s : jsstring) : Thinned s (stripMarkdown s).
Proof.
  induction s as [|a rest IH]; simpl; [constructor|].
  destruct (negb (isMarkdown a)); auto with thin.
Qed.

Lemma Thinned_trimStart (s : jsstring) : Thinned s (trimStart s).
Proof.
  induction s as [|a rest IH]; simpl; [constructor|].
  destruct (isSpace a); auto using Thinned_refl with thin.
Qed.

Lemma Thinned_trimEnd (s : jsstring) : Thinned s (trimEnd s).
Proof.
  induction s as [|a rest IH]; simpl; [constructor|].
  destruct (trimEnd rest); [destruct (isSpace a)|]; auto with thin.
Qed.

Lemma Thinned_collapse (b : bool) (s : jsstring) :
  Thinned s (collapseFrom b s).
Proof.
  revert b; induction s as [|a rest IH]; intros b; simpl; [constructor|].
  destruct (isSpace a) eqn:Ha; [destruct b|]; auto with thin.
Qed.

Lemma Thinned_occurs (c : N) (s t : jsstring) :
  isSpace c = false -> Thinned s t -> occurs c t = true -> occurs c s = true.
Proof.
  intros Hc Hst.
  induction Hst as [|a s t Hst IH|a s t Hst IH|a s t Ha Hst IH];
    simpl; intros Hoc; auto.
  - rewrite IH by assumption. apply orb_true_r.
  - apply orb_true_iff in Hoc as [Hoc|Hoc]; [now rewrite Hoc|].
    rewrite IH by assumption. apply orb_true_r.
  - apply orb_true_iff in Hoc as [Hoc|Hoc].
    + apply N.eqb_eq in Hoc; subst c. discriminate.
    + rewrite IH by assumption. apply orb_true_r.
Qed.

(** No [o] of [s] has a [c] after it: the regular expression has no match. *)
Fixpoint noSpan (o c : N) (s : jsstring) : bool :=
  match s with
  | [] => true
  | a :: rest => negb ((a =? o) && occurs c rest) && noSpan o c rest
  end.

Lemma noSpan_fix (o c : N) (s : jsstring) :
  noSpan o c s = true -> stripSpan o c s = s.
Proof.
  unfold stripSpan. induction s as [|a rest IH]; simpl; [reflexivity|].
  intros H. apply andb_true_iff in H as [H1 H2].
  apply negb_true_iff in H1. rewrite H1. now rewrite IH.
Qed.

Lemma noSpan_Thinned (o c : N) (s t : jsstring) :
  isSpace o = false -> isSpace c = false ->
  Thinned s t -> noSpan o c s = true -> noSpan o c t = true.
Proof.
  intros Ho Hc Hst.
  induction Hst as [|a s t Hst IH|a s t Hst IH|a s t Ha Hst IH];
    cbn [noSpan]; intros Hno; auto.
  - apply andb_true_iff in Hno as [_ Hno]. auto.
  - apply andb_true_iff in Hno as [H1 H2]. rewrite IH by assumption.
    rewrite andb_true_r. apply negb_true_iff in H1. apply negb_true_iff.
    destruct (a =? o); [|reflexivity]. cbn [andb] in *.
    destruct (occurs c t) eqn:E; [|reflexivity].
    now rewrite (Thinned_occurs c s t Hc Hst E) in H1.
  - apply andb_true_iff in Hno as [_ H2]. rewrite IH by assumption.
    rewrite andb_true_r. apply negb_true_iff.
    destruct (32 =? o) eqn:E; [|reflexivity].
    apply N.eqb_eq in E; subst o. discriminate.
Qed.

Lemma occurs_stripSpan (o c : N) (b : bool) (s : jsstring) :
  isSpace c = false ->
  occurs c (stripSpanFrom o c b s) = true -> occurs c s = true.
Proof. intros Hc. apply Thinned_occurs; [assumption | apply Thinned_stripSpan]. Qed.

Lemma noSpan_stripSpan (o c : N) (b : bool) (s : jsstring) :
  isSpace c = false -> noSpan o c (stripSpanFrom o c b s) = true.
Proof.
  intros Hc. revert b; induction s as [|a rest IH]; intros b; simpl; [reflexivity|].
  destruct b.
  - destruct (a =? c); apply IH.
  - destruct ((a =? o) && occurs c rest) eqn:E; [apply IH|].
    simpl. rewrite IH, andb_true_r. apply negb_true_iff.
    destruct (a =? o); [|reflexivity]. simpl in *.
    destruct (occurs c (stripSpanFrom o c false rest)) eqn:E'; [|reflexivity].
    now rewrite (occurs_stripSpan o c false rest Hc E') in E.
Qed.

Definition noMarkdown (s : jsstring) : bool :=
  forallb (fun c => negb (isMarkdown c)) s.

Lemma noMarkdown_stripMarkdown (s : jsstring) : noMarkdown (stripMarkdown s) = true.
Proof.
  induction s as [|a rest IH]; simpl; [reflexivity|].
  destruct (negb (isMarkdown a)) eqn:E; [|exact IH]. simpl. now rewrite E.
Qed.

Lemma noMarkdown_fix (s : jsstring) : noMarkdown s = true -> stripMarkdown s = s.
Proof.
  induction s as [|a rest IH]; simpl; [reflexivity|]. intros H.
  apply andb_true_iff in H as [H1 H2]. now rewrite H1, IH.
Qed.

Lemma noMarkdown_Thinned (s t : jsstring) :
  Thinned s t -> noMarkdown s = true -> noMarkdown t = true.
Proof.
  intros Hst.
  induction Hst as [|a s t Hst IH|a s t Hst IH|a s t Ha Hst IH];
    simpl; intros Hno; auto.
  - apply andb_true_iff in Hno as [_ Hno]. auto.
  - apply andb_true_iff in Hno as [H1 H2]. now rewrite H1, IH.
  - apply andb_true_iff in Hno as [_ H2]. now rewrite IH.
Qed.

(** *** The claims about the sanitiser *)

Lemma cleanText_Thinned_from (x s : jsstring) :
  Thinned x (stripMarkdown (stripParens (stripBrackets s))) ->
  Thinned x (cleanText s).
Proof.
  intros H. unfold cleanText, collapseSpaces, trim.
  eapply Thinned_trans; [exact H|].
  eapply Thinned_trans; [apply Thinned_trimStart|].
  eapply Thinned_trans; [apply Thinned_trimEnd|].
  apply Thinned_collapse.
Qed.

Lemma cleanText_noBrackets (s : jsstring) : noSpan 91 93 (cleanText s) = true.
Proof.
  apply (noSpan_Thinned 91 93 (stripBrackets s)); try reflexivity.
  - apply cleanText_Thinned_from.
    eapply Thinned_trans; [apply Thinned_stripSpan|apply Thinned_stripMarkdown].
  - now apply noSpan_stripSpan.
Qed.

Lemma cleanText_noParens (s : jsstring) : noSpan 40 41 (cleanText s) = true.
Proof.
  apply (noSpan_Thinned 40 41 (stripParens (stripBrackets s))); try reflexivity.
  - apply cleanText_Thinned_from, Thinned_stripMarkdown.
  - now apply noSpan_stripSpan.
Qed.

Lemma cleanText_noMarkdown (s : jsstring) : noMarkdown (cleanText s) = true.
Proof.
  apply (noMarkdown_Thinned (stripMarkdown (stripParens (stripBrackets s)))).
  - apply cleanText_Thinned_from, Thinned_refl.
  - apply noMarkdown_stripMarkdown.
Qed.

(** *** Agreement with the preprocessing of the specification *)

Lemma isWhite_isSpace (c : N) : CleanSpec.isWhite c = isSpace c.
Proof.
  unfold CleanSpec.isWhite, CleanSpec.whiteSpace, isSpace. cbn [existsb].
  repeat match goal with
         | |- context [N.eqb c ?k] =>
             destruct (N.eqb_spec c k) as [->|?]; [reflexivity|]
         end.
  cbn [orb].
  destruct (N.leb_spec 9 c), (N.leb_spec c 13), (N.leb_spec 8192 c),
    (N.leb_spec c 8202); cbn; try reflexivity; lia.
Qed.

Lemma afterFirst_some (o c : N) (s r : jsstring) :
  CleanSpec.afterFirst c s = Some r ->
  occurs c s = true /\
  stripSpanFrom o c true s = stripSpanFrom o c false r /\
  (List.length r < List.length s)%nat.
Proof.
  revert r; induction s as [|a rest IH]; intros r H; [discriminate|].
  cbn [CleanSpec.afterFirst] in H. cbn [occurs existsb stripSpanFrom List.length].
  rewrite (N.eqb_sym c a).
  destruct (a =? c).
  - injection H as <-. repeat split; [lia].
  - destruct (IH r H) as (Hocc & Hstrip & Hlen).
    unfold occurs in Hocc. rewrite Hocc. repeat split; [exact Hstrip|lia].
Qed.

Lemma afterFirst_none (c : N) (s : jsstring) :
  CleanSpec.afterFirst c s = None -> occurs c s = false.
Proof.
  induction s as [|a rest IH]; intros H; [reflexivity|].
  cbn [CleanSpec.afterFirst] in H. cbn [occurs existsb].
  rewrite (N.eqb_sym c a).
  destruct (a =? c); [discriminate|]. exact (IH H).
Qed.

Lemma stripSpan_removeSpansFuel (o c : N) (fuel : nat) :
  forall s, (List.length s <= fuel)%nat ->
            stripSpanFrom o c false s = CleanSpec.removeSpansFuel fuel o c s.
Proof.
  induction fuel as [|fuel IH]; intros s Hlen.
  - destruct s; [reflexivity|cbn in Hlen; lia].
  - destruct s as [|a rest]; [reflexivity|].
    cbn [stripSpanFrom CleanSpec.removeSpansFuel]. cbn in Hlen.
    destruct (a =? o); cbn [andb].
    + destruct (CleanSpec.afterFirst c rest) as [r|] eqn:E.
      * destruct (afterFirst_some o c rest r E) as (Hocc & Hstrip & Hr).
        rewrite Hocc, Hstrip. apply IH. lia.
      * rewrite (afterFirst_none c rest E). f_equal. apply IH. lia.
    + f_equal. apply IH. lia.
Qed.

Lemma stripSpan_removeSpans (o c : N) (s : jsstring) :
  stripSpan o c s = CleanSpec.removeSpans o c s.
Proof. apply stripSpan_removeSpansFuel. lia. Qed.

Lemma stripMarkdown_removeMarkers (s : jsstring) :
  stripMarkdown s = CleanSpec.removeMarkers s.
Proof.
  unfold stripMarkdown, CleanSpec.removeMarkers. apply filter_ext.
  intros a. unfold isMarkdown, CleanSpec.markers. cbn [existsb].
  now rewrite orb_false_r, !orb_assoc.
Qed.

Lemma collapseRuns_single (a : N) :
  CleanSpec.collapseRuns [a] = if isSpace a then [32] else [a].
Proof. rewrite <- isWhite_isSpace. reflexivity. Qed.

Lemma collapseRuns_cons (a b : N) (rest : jsstring) :
  CleanSpec.collapseRuns (a :: b :: rest)
  = if isSpace a then
      if isSpace b then CleanSpec.collapseRuns (b :: rest)
      else 32 :: CleanSpec.collapseRuns (b :: rest)
    else a :: CleanSpec.collapseRuns (b :: rest).
Proof. rewrite <- !isWhite_isSpace. reflexivity. Qed.

Lemma collapseRuns_head (rest : jsstring) :
  forall a, isSpace a = true ->
            exists t, CleanSpec.collapseRuns (a :: rest) = 32 :: t.
Proof.
  induction rest as [|b rest IH]; intros a Ha.
  - rewrite collapseRuns_single, Ha. eauto.
  - rewrite collapseRuns_cons, Ha.
    destruct (isSpace b) eqn:Hb; [exact (IH b Hb)|eauto].
Qed.

Lemma collapseFrom_collapseRuns (s : jsstring) :
  collapseFrom false s = CleanSpec.collapseRuns s /\
  collapseFrom true s
  = match s with
    | a :: _ => if isSpace a then tl (CleanSpec.collapseRuns s)
                else CleanSpec.collapseRuns s
    | [] => []
    end.
Proof.
  induction s as [|a rest [IHf IHt]]; [now split|].
  assert (Hspace : isSpace a = true ->
            CleanSpec.collapseRuns (a :: rest) = 32 :: collapseFrom true rest).
  { intros Ha. destruct rest as [|b rest'].
    - rewrite collapseRuns_single, Ha. reflexivity.
    - rewrite collapseRuns_cons, Ha, IHt.
      destruct (isSpace b) eqn:Hb; [|reflexivity].
      destruct (collapseRuns_head rest' b Hb) as [t Ht]. now rewrite Ht. }
  cbn [collapseFrom]. destruct (isSpace a) eqn:Ha.
  - rewrite (Hspace eq_refl). split; reflexivity.
  - assert (Hkeep : CleanSpec.collapseRuns (a :: rest)
                    = a :: CleanSpec.collapseRuns rest).
    { destruct rest as [|b rest'].
      - rewrite collapseRuns_single, Ha. reflexivity.
      - rewrite collapseRuns_cons, Ha. reflexivity. }
    rewrite Hkeep, IHf. split; reflexivity.
Qed.

Lemma trimStart_dropLeading (s : jsstring) :
  trimStart s = CleanSpec.dropLeading s.
Proof.
  induction s as [|a rest IH]; [reflexivity|].
  cbn [trimStart CleanSpec.dropLeading]. rewrite isWhite_isSpace, IH.
  reflexivity.
Qed.

Lemma trimStart_snoc (l : jsstring) (a : N) :
  trimStart (l ++ [a])
  = match trimStart l with
    | [] => if isSpace a then [] else [a]
    | r => r ++ [a]
    end.
Proof.
  induction l as [|h t IH]; [reflexivity|].
  cbn [app trimStart]. destruct (isSpace h); [exact IH|reflexivity].
Qed.

Lemma trimEnd_rev (s : jsstring) : trimEnd s = rev (trimStart (rev s)).
Proof.
  induction s as [|a rest IH]; [reflexivity|].
  cbn [rev]. rewrite trimStart_snoc.
  assert (Hrev : trimStart (rev rest) = rev (trimEnd rest)).
  { rewrite IH, rev_involutive. reflexivity. }
  rewrite Hrev. cbn [trimEnd].
  destruct (trimEnd rest) as [|r0 r]; cbn [rev].
  - now destruct (isSpace a).
  - destruct (rev r ++ [r0]) eqn:E.
    + apply app_eq_nil in E. destruct E; discriminate.
    + rewrite <- E, rev_app_distr. cbn [rev app].
      rewrite rev_app_distr, rev_involutive. reflexivity.
Qed.

Lemma trim_trimEnds (s : jsstring) : trim s = CleanSpec.trimEnds s.
Proof.
  unfold trim, CleanSpec.trimEnds.
  now rewrite trimEnd_rev, <- !trimStart_dropLeading.
Qed.

(** C5.  On every input the sanitiser of [generateVoiceover] returns what
    the preprocessing of the specification returns: bracket spans
    stripped, then parenthesis spans, then the markers, then every run of
    white space collapsed to one space and the ends trimmed.  The text
    "[Close up] Hi *there*! (whisper)" cleans to exactly "Hi there!"; runs
    of spaces, tabs and line breaks come out as single spaces; and it is
    from the cleaned text that the prompts sent to the backend are
    built. *)
Theorem cleanText_preprocessing :
  (forall text, cleanText text = CleanSpec.cleanText_spec text) /\
  cleanText (js "[Close up] Hi *there*! (whisper)") = js "Hi there!" /\
  cleanText ([32; 9] ++ js "[Intro]" ++ [10; 10] ++ js "Hi" ++ [32; 32; 9; 160]
             ++ js "(softly) ~there~" ++ [13; 10] ++ js "my   _friends_ " ++ [10])
  = js "Hi there my friends" /\
  (forall (Remote : Type) generateContent atob k key config (w : Synth.world Remote),
      Synth.generateVoiceover generateContent atob (Some (k :: key))
        (js "[Close up] Hi *there*! (whisper)") config w
      = Synth.tryPrompts generateContent atob (Synth.voiceFor config)
          (Synth.prompts config (js "Hi there!")) None w).
Proof.
  split; [|split; [|split]].
  - intros text. unfold cleanText, CleanSpec.cleanText_spec.
    rewrite collapse_trim, trim_trimEnds.
    unfold collapseSpaces. rewrite (proj1 (collapseFrom_collapseRuns _)).
    rewrite stripMarkdown_removeMarkers.
    unfold stripParens, stripBrackets. now rewrite !stripSpan_removeSpans.
  - reflexivity.
  - reflexivity.
  - intros. reflexivity.
Qed.

(** C10.  The sanitiser is idempotent: cleaning an already cleaned text
    returns it unchanged, for every input string. *)
Theorem cleanText_idempotent (s : jsstring) :
  cleanText (cleanText s) = cleanText s.
Proof.
  unfold cleanText at 1. unfold stripBrackets, stripParens.
  rewrite (noSpan_fix 91 93) by apply cleanText_noBrackets.
  rewrite (noSpan_fix 40 41) by apply cleanText_noParens.
  rewrite noMarkdown_fix by apply cleanText_noMarkdown.
  rewrite collapse_trim.
  unfold cleanText at 1, collapseSpaces. rewrite collapseFrom_idem.
  fold (collapseSpaces (trim (stripMarkdown (stripParens (stripBrackets s))))).
  rewrite collapse_trim, trim_idem. symmetry.
  unfold cleanText. apply collapse_trim.
Qed.

End CleanFacts.

(** ** The PCM decoder and the WAV exporter *)

(** A call fails with an error of the given name. *)
Definition failsWith {A : Type} (name : string) (r : result A) : Prop :=
  exists e, r = Throw e /\ errorName e = name.

Module CodecFacts.

Import Audio.
Local Open Scope Z_scope.

(** *** Rejected inputs of the decoder *)

(** C7, as the code has it.  On a byte sequence of odd length the decoder
    throws the RangeError of the [Int16Array] constructor; on one of even
    length with a channel count of zero or less it throws the
    NotSupportedError of [createBuffer].  It never succeeds on such input,
    and it has no error of its own. *)
Theorem decodeAudioData_rejects (data : list Z) (sampleRate numChannels : Z) :
  Nat.odd (List.length data) = true \/ numChannels <= 0 ->
  Pcm.decodeAudioData data sampleRate numChannels
  = Throw (if Nat.odd (List.length data) then RangeError else NotSupportedError).
Proof.
  intros H. unfold Pcm.decodeAudioData, Pcm.Int16Array.
  rewrite <- Nat.negb_odd.
  destruct (Nat.odd (List.length data)) eqn:Hodd; simpl; [reflexivity|].
  destruct H as [H|H]; [discriminate|].
  unfold createBuffer.
  replace (numChannels <? 1) with true by (symmetry; apply Z.ltb_lt; lia).
  reflexivity.
Qed.

Lemma decodeAudioData_rejects_witness :
  Pcm.decodeAudioData [0; 0; 7] 24000 1 = Throw RangeError.
Proof.
  apply (decodeAudioData_rejects [0; 0; 7] 24000 1). left. reflexivity.
Defined.

(** C7, as the claim has it, fails: neither rejection is an error named
    MalformedAudioError, and the two rejections are of different kinds. *)
Lemma decodeAudioData_no_MalformedAudioError :
  (Nat.odd (List.length [0]) = true /\
   Pcm.decodeAudioData [0] 24000 1 = Throw RangeError /\
   ~ failsWith "MalformedAudioError" (Pcm.decodeAudioData [0] 24000 1)) /\
  (0 <= 0 /\
   Pcm.decodeAudioData [0; 0] 24000 0 = Throw NotSupportedError /\
   ~ failsWith "MalformedAudioError" (Pcm.decodeAudioData [0; 0] 24000 0)) /\
  errorName RangeError <> errorName NotSupportedError.
Proof.
  repeat split; try reflexivity; try lia.
  - intros [e [H1 H2]]. inversion H1; subst e. discriminate.
  - intros [e [H1 H2]]. inversion H1; subst e. discriminate.
  - discriminate.
Qed.

(** *** The float to int16 conversion *)

(** C4 at the sample -1/4.  The test of the source is [0.5 + sample < 0],
    so a negative sample above -1/2 is scaled by 32767: the encoder stores
    -8191, where scaling a negative sample by 32768 gives -8192.  A sample
    below -1/2 is scaled by 32768. *)
Theorem scale_negative_quarter :
  Wav.convert (Some (-1 # 4)%Q) = -8191 /\
  truncate (Wav.clamp (-1 # 4) * 32768)%Q = -8192 /\
  Wav.convert (Some (-3 # 4)%Q) = -24576 /\
  Wav.getWavBlob
    (Some {| sampleRate := 24000; length := 45;
             channelData := [repeat (-1 # 4)%Q 45] |})
  = Some ([82; 73; 70; 70; 126; 0; 0; 0; 87; 65; 86; 69; 102; 109; 116; 32;
           16; 0; 0; 0; 1; 0; 1; 0; 192; 93; 0; 0; 128; 187; 0; 0; 2; 0;
           16; 0; 100; 97; 116; 97; 90; 0; 0; 0; 1; 224] ++ repeat 0 88).
Proof. repeat split; vm_compute; reflexivity. Qed.

(** *** What the exporter and the decoder preserve *)

Lemma length_setByte (i : nat) (b : Z) (v : list Z) :
  List.length (Wav.setByte i b v) = List.length v.
Proof.
  revert i; induction v as [|h t IH]; intros [|i]; simpl; auto.
Qed.

Lemma length_store (bytes : list Z) (at_ : Z) (v : list Z) :
  List.length (Wav.store at_ bytes v) = List.length v.
Proof.
  revert at_ v; induction bytes as [|b rest IH]; intros at_ v; simpl; auto.
  now rewrite IH, length_setByte.
Qed.

Lemma length_setUint16 (d : Z) (st : Wav.state) :
  List.length (Wav.view (Wav.setUint16 d st)) = List.length (Wav.view st).
Proof. apply length_store. Qed.

Lemma length_setUint32 (d : Z) (st : Wav.state) :
  List.length (Wav.view (Wav.setUint32 d st)) = List.length (Wav.view st).
Proof. apply length_store. Qed.

Lemma length_writeHeader (b : AudioBuffer) (n : Z) (st : Wav.state) :
  List.length (Wav.view (Wav.writeHeader b n st)) = List.length (Wav.view st).
Proof.
  unfold Wav.writeHeader.
  repeat first [rewrite length_setUint32 | rewrite length_setUint16].
  reflexivity.
Qed.

Lemma length_writeFrame (b : AudioBuffer) (cs : list Z) (st : Wav.state) :
  List.length (Wav.view (Wav.writeFrame b cs st)) = List.length (Wav.view st).
Proof.
  revert st; induction cs as [|c rest IH]; intros st; [reflexivity|].
  cbn [Wav.writeFrame]. rewrite IH. cbn [Wav.view]. apply length_store.
Qed.

Lemma length_writeData (fuel : nat) (b : AudioBuffer) (st : Wav.state) :
  List.length (Wav.view (Wav.writeData fuel b st)) = List.length (Wav.view st).
Proof.
  revert st; induction fuel as [|fuel IH]; intros st; [reflexivity|].
  cbn [Wav.writeData].
  destruct (Wav.pos st <? length b); [|reflexivity].
  rewrite IH. cbn [Wav.view]. apply length_writeFrame.
Qed.

(** The Blob has 44 bytes of header and two bytes per sample. *)
Lemma length_getWavBlob (b : AudioBuffer) :
  exists w, Wav.getWavBlob (Some b) = Some w /\
            List.length w = Z.to_nat (length b * numberOfChannels b * 2 + 44).
Proof.
  eexists; split; [reflexivity|].
  rewrite length_writeData, length_writeHeader. cbn [Wav.view].
  apply repeat_length.
Qed.

Lemma int16Elements_length (n : nat) (bytes : list Z) :
  List.length bytes = (2 * n)%nat ->
  List.length (Pcm.int16Elements bytes) = n.
Proof.
  revert bytes; induction n as [|n IH]; intros bytes H.
  - destruct bytes; [reflexivity|discriminate].
  - destruct bytes as [|lo [|hi rest]]; simpl in H; try lia.
    simpl. f_equal. apply IH. lia.
Qed.

Lemma truncate_ratio (a b : Z) :
  0 < b -> truncate (inject_Z (a * b) / inject_Z b)%Q = a.
Proof.
  intros Hb. destruct b as [|p|p]; try lia.
  unfold truncate, Qdiv, Qmult, Qinv, inject_Z. cbn [Qnum Qden].
  rewrite Z.mul_1_r. change (Z.pos (1 * p)) with (Z.pos p).
  apply Z.quot_mul. lia.
Qed.

Lemma createBuffer_ok (nChannels n rate : Z) (len : Q) :
  truncate len = n ->
  1 <= nChannels <= maxChannels -> 1 <= n ->
  minSampleRate <= rate <= maxSampleRate ->
  createBuffer nChannels len rate
  = Ok {| sampleRate := rate; length := n;
          channelData := repeat (repeat 0%Q (Z.to_nat n)) (Z.to_nat nChannels) |}.
Proof.
  intros Hn Hc Hl Hr. unfold createBuffer. rewrite Hn.
  replace (nChannels <? 1) with false by (symmetry; apply Z.ltb_ge; lia).
  replace (maxChannels <? nChannels) with false by (symmetry; apply Z.ltb_ge; lia).
  replace (n <? 1) with false by (symmetry; apply Z.ltb_ge; lia).
  replace (rate <? minSampleRate) with false by (symmetry; apply Z.ltb_ge; lia).
  replace (maxSampleRate <? rate) with false by (symmetry; apply Z.ltb_ge; lia).
  reflexivity.
Qed.

(** Decoding the data chunk of an exported buffer succeeds and gives a
    buffer of the same shape. *)
Lemma decode_export_shape (a : AudioBuffer) :
  wellFormed a ->
  exists w b,
    Wav.getWavBlob (Some a) = Some w /\
    Pcm.decodeAudioData (Wav.dataChunk w) (sampleRate a) (numberOfChannels a) = Ok b /\
    length b = length a /\
    numberOfChannels b = numberOfChannels a /\
    sampleRate b = sampleRate a.
Proof.
  intros (Hc & Hl & Hr & _).
  destruct (length_getWavBlob a) as (w & Hw & Hlen).
  set (n := Z.to_nat (length a * numberOfChannels a)).
  assert (Hdata : List.length (Wav.dataChunk w) = (2 * n)%nat).
  { unfold Wav.dataChunk. rewrite length_skipn, Hlen. unfold n. nia. }
  assert (Hframes :
    truncate (inject_Z (Z.of_nat (List.length (Pcm.int16Elements (Wav.dataChunk w))))
              / inject_Z (numberOfChannels a))%Q = length a).
  { rewrite (int16Elements_length n _ Hdata). unfold n.
    rewrite Z2Nat.id by nia. apply truncate_ratio. lia. }
  exists w. eexists. split; [exact Hw|].
  unfold Pcm.decodeAudioData, Pcm.Int16Array.
  rewrite Hdata, Nat.even_mul. cbn [Nat.even orb].
  rewrite (createBuffer_ok _ (length a) _ _ Hframes Hc Hl Hr).
  split; [reflexivity|]. cbn [length sampleRate]. repeat split.
  unfold numberOfChannels at 1. cbn [channelData].
  rewrite length_map, length_seq. lia.
Qed.

(** *** The error of one conversion *)

Lemma int16_littleEndian (v : Z) :
  -32768 <= v <= 32767 ->
  Pcm.int16Elements (Wav.littleEndian 2 v) = [v].
Proof.
  intros Hv. cbn [Wav.littleEndian Pcm.int16Elements]. f_equal.
  unfold Pcm.int16.
  destruct (v mod 256 + 256 * ((v / 256) mod 256) <? 32768) eqn:E;
    [apply Z.ltb_lt in E | apply Z.ltb_ge in E];
    Z.to_euclidean_division_equations; lia.
Qed.

Lemma scale_bounds (r : Q) :
  (-(1) <= r)%Q -> (r <= 1)%Q ->
  exists k, (k = 32767 \/ k = 32768) /\
            Wav.scale r = Z.quot (Qnum r * k) (Z.pos (Qden r)) /\
            -32768 <= Wav.scale r <= 32767.
Proof.
  intros Hlo Hhi. destruct r as [p q].
  unfold Qle, Qopp in Hlo, Hhi. cbn [Qnum Qden Z.opp] in Hlo, Hhi.
  assert (Hwrap : forall t, -32768 <= t <= 32767 ->
            (t + 2147483648) mod 4294967296 - 2147483648 = t).
  { intros t Ht. rewrite Z.mod_small; lia. }
  unfold Wav.scale.
  destruct (Qlt_le_dec (0.5 + (p # q)) 0) as [Hneg|Hpos].
  - exists 32768. split; [now right|].
    unfold Wav.toInt32, truncate, Qmult. cbn [Qnum Qden].
    rewrite Pos.mul_1_r.
    assert (Hq : -32768 <= Z.quot (p * 32768) (Z.pos q) <= 32767).
    { unfold Qlt, Qplus in Hneg. cbn [Qnum Qden] in Hneg.
      split; [apply Z.quot_le_lower_bound | apply Z.quot_le_upper_bound]; lia. }
    rewrite Hwrap by exact Hq. split; [reflexivity|exact Hq].
  - exists 32767. split; [now left|].
    unfold Wav.toInt32, truncate, Qmult. cbn [Qnum Qden].
    rewrite Pos.mul_1_r.
    assert (Hq : -32768 <= Z.quot (p * 32767) (Z.pos q) <= 32767).
    { split; [apply Z.quot_le_lower_bound | apply Z.quot_le_upper_bound]; lia. }
    rewrite Hwrap by exact Hq. split; [reflexivity|exact Hq].
Qed.

Lemma clamp_id (x : Q) :
  (-(1) <= x)%Q -> (x <= 1)%Q -> (Wav.clamp x == x)%Q.
Proof.
  intros Hlo Hhi. unfold Wav.clamp.
  rewrite (Q.min_r 1 x Hhi). now apply Q.max_r.
Qed.

(** What the decoder reads back from the two bytes stored for [x]. *)
Definition readBack (x : Q) : Q :=
  Pcm.toFloat (Pcm.int16Elements (Wav.littleEndian 2 (Wav.convert (Some x)))) 0.

Lemma scale_error (r : Q) :
  (-(1) <= r)%Q -> (r <= 1)%Q ->
  (Qabs (inject_Z (Wav.scale r) / 32768 - r) < 1 # 16384)%Q.
Proof.
  intros Hlo Hhi.
  destruct (scale_bounds r Hlo Hhi) as (k & Hk & Hs & _). rewrite Hs.
  destruct r as [p q]. cbn [Qnum Qden].
  unfold Qle, Qopp in Hlo, Hhi. cbn [Qnum Qden Z.opp] in Hlo, Hhi.
  apply Qabs_Qlt_condition.
  unfold Qlt, Qminus, Qplus, Qopp, Qdiv, Qmult, Qinv, inject_Z.
  cbn [Qnum Qden Z.opp].
  rewrite !Pos2Z.inj_mul.
  pose proof (Z.quot_rem' (p * k) (Z.pos q)) as Hqr.
  assert (Hm : Z.abs (Z.rem (p * k) (Z.pos q)) < Z.pos q).
  { pose proof (Z.rem_bound_abs (p * k) (Z.pos q)). lia. }
  set (t := Z.quot (p * k) (Z.pos q)) in *.
  set (m := Z.rem (p * k) (Z.pos q)) in *.
  destruct Hk; subst k; split; nia.
Qed.

Lemma readBack_error (x : Q) :
  (-(1) <= x)%Q -> (x <= 1)%Q -> (Qabs (readBack x - x) < 1 # 16384)%Q.
Proof.
  intros Hlo Hhi. unfold readBack, Wav.convert.
  pose proof (clamp_id x Hlo Hhi) as Hc.
  assert (Hlo' : (-(1) <= Wav.clamp x)%Q) by now rewrite Hc.
  assert (Hhi' : (Wav.clamp x <= 1)%Q) by now rewrite Hc.
  destruct (scale_bounds _ Hlo' Hhi') as (_ & _ & _ & Hr).
  rewrite (int16_littleEndian _ Hr).
  unfold Pcm.toFloat. cbn [Z.to_nat nth].
  rewrite <- Hc at 2. now apply scale_error.
Qed.

Lemma normalised_sampleAt (a : AudioBuffer) (c i : Z) (x : Q) :
  normalised a -> sampleAt a c i = Some x -> (-(1) <= x /\ x <= 1)%Q.
Proof.
  unfold normalised, sampleAt. intros Hn Hs.
  destruct ((c <? 0) || (i <? 0)); [discriminate|].
  destruct (nth_error (channelData a) (Z.to_nat c)) as [ch|] eqn:Hch;
    [|discriminate].
  apply nth_error_In in Hch, Hs.
  rewrite Forall_forall in Hn. specialize (Hn ch Hch).
  rewrite Forall_forall in Hn. exact (Hn x Hs).
Qed.

(** *** Where the exporter starts reading

    [pos] is the byte cursor of the header and then the frame index of
    the data loop, which therefore starts at frame 44: frames 0 to 43 are
    not written and the last 44 frames of the data chunk stay zero. *)

Example exporter_starts_at_frame_44 :
  option_map Wav.dataChunk
    (Wav.getWavBlob (Some {| sampleRate := 24000; length := 1;
                             channelData := [[(1 # 2)%Q]] |}))
  = Some [0; 0] /\
  option_map Wav.dataChunk
    (Wav.getWavBlob
       (Some {| sampleRate := 24000; length := 46;
                channelData := [repeat (1 # 2)%Q 44 ++ [(-3 # 4)%Q; 1%Q]] |}))
  = Some ([0; 160; 255; 127] ++ repeat 0 88).
Proof. split; vm_compute; reflexivity. Qed.

Lemma skipn_setByte (n i : nat) (b : Z) (v : list Z) :
  (i < n)%nat -> skipn n (Wav.setByte i b v) = skipn n v.
Proof.
  revert i v; induction n as [|n IH]; intros i v Hi; [lia|].
  destruct v as [|h t]; [now destruct i|].
  destruct i as [|i]; cbn [Wav.setByte skipn]; [reflexivity|].
  apply IH. lia.
Qed.

Lemma skipn_store (n : nat) (bytes : list Z) :
  forall (at_ : Z) (v : list Z),
    0 <= at_ -> at_ + Z.of_nat (List.length bytes) <= Z.of_nat n ->
    skipn n (Wav.store at_ bytes v) = skipn n v.
Proof.
  induction bytes as [|b rest IH]; intros at_ v H0 Hn; [reflexivity|].
  cbn [Wav.store List.length] in *.
  rewrite IH by lia. apply skipn_setByte. lia.
Qed.

(** While the header is written, the bytes from 44 on are those of [v]
    and [pos] is [k]. *)
Definition inHeader (v : list Z) (k : Z) (st : Wav.state) : Prop :=
  skipn 44 (Wav.view st) = skipn 44 v /\ Wav.pos st = k.

Lemma setUint32_inHeader (v : list Z) (k k' d : Z) (st : Wav.state) :
  inHeader v k st -> 0 <= k /\ k' = k + 4 -> k' <= 44 ->
  inHeader v k' (Wav.setUint32 d st).
Proof.
  intros [Hv Hk] [H0 ->] H44. unfold inHeader, Wav.setUint32.
  cbn [Wav.view Wav.pos]. rewrite Hk. split; [|reflexivity].
  rewrite skipn_store; [exact Hv | exact H0 |].
  cbn [Wav.littleEndian List.length]. lia.
Qed.

Lemma setUint16_inHeader (v : list Z) (k k' d : Z) (st : Wav.state) :
  inHeader v k st -> 0 <= k /\ k' = k + 2 -> k' <= 44 ->
  inHeader v k' (Wav.setUint16 d st).
Proof.
  intros [Hv Hk] [H0 ->] H44. unfold inHeader, Wav.setUint16.
  cbn [Wav.view Wav.pos]. rewrite Hk. split; [|reflexivity].
  rewrite skipn_store; [exact Hv | exact H0 |].
  cbn [Wav.littleEndian List.length]. lia.
Qed.

Ltac header_step :=
  lazymatch goal with
  | |- inHeader ?v ?k' (Wav.setUint32 ?d ?st) =>
      let k := eval cbv in (k' - 4) in
      apply (setUint32_inHeader v k k' d st); [ | lia | lia ]
  | |- inHeader ?v ?k' (Wav.setUint16 ?d ?st) =>
      let k := eval cbv in (k' - 2) in
      apply (setUint16_inHeader v k k' d st); [ | lia | lia ]
  end.

(** The header is written below byte 44 and leaves [pos] at 44. *)
Lemma writeHeader_tail (b : AudioBuffer) (n : Z) (v : list Z) :
  inHeader v 44
    (Wav.writeHeader b n {| Wav.view := v; Wav.pos := 0; Wav.offset := 0 |}).
Proof.
  unfold Wav.writeHeader. cbv zeta.
  do 13 header_step.
  split; reflexivity.
Qed.

Lemma skipn_repeat_zero (n m : nat) :
  skipn n (repeat 0 m) = repeat 0 (m - n).
Proof.
  revert m; induction n as [|n IH]; intros [|m]; cbn; auto.
Qed.

(** A buffer of at most 44 frames is exported as silence, whatever its
    samples. *)
Lemma short_buffer_exported_as_silence (b : AudioBuffer) :
  length b <= 44 ->
  option_map Wav.dataChunk (Wav.getWavBlob (Some b))
  = Some (repeat 0 (Z.to_nat (length b * numberOfChannels b * 2 + 44) - 44)).
Proof.
  intros Hlen. unfold Wav.getWavBlob, option_map, Wav.dataChunk. f_equal.
  set (n := length b * numberOfChannels b * 2 + 44).
  destruct (writeHeader_tail b n (repeat 0 (Z.to_nat n))) as [Htail Hpos].
  set (st := Wav.writeHeader b n _) in *.
  assert (Hstop : forall fuel, Wav.writeData fuel b st = st).
  { intros [|fuel]; [reflexivity|]. cbn [Wav.writeData]. rewrite Hpos.
    replace (44 <? length b) with false by (symmetry; apply Z.ltb_ge; lia).
    reflexivity. }
  rewrite Hstop, Htail. apply skipn_repeat_zero.
Qed.

(** *** The scale of a sample above -1/2 *)

Lemma scale_above_minus_half (r : Q) :
  (-(1 # 2) <= r)%Q -> (r <= 1)%Q ->
  Wav.scale r = truncate (r * 32767)%Q.
Proof.
  intros Hlo Hhi. unfold Wav.scale.
  destruct (Qlt_le_dec (0.5 + r) 0) as [Hneg|_].
  - exfalso. apply (Qlt_not_le _ _ Hneg).
    destruct r as [p q]. unfold Qle, Qplus, Qopp in *.
    cbn [Qnum Qden Z.opp] in *. lia.
  - unfold Wav.toInt32. apply Z.sub_move_r. apply Z.mod_small.
    destruct r as [p q]. unfold truncate, Qmult, Qle, Qopp in *.
    cbn [Qnum Qden Z.opp] in *. rewrite Pos.mul_1_r.
    assert (-32768 <= Z.quot (p * 32767) (Z.pos q) <= 32767); [|lia].
    split; [apply Z.quot_le_lower_bound | apply Z.quot_le_upper_bound]; lia.
Qed.

(** *** Export followed by decoding *)

(** A mono buffer of 45 frames, all equal to 1 - 2^-17. *)
Definition steady : AudioBuffer :=
  {| sampleRate := 24000; length := 45;
     channelData := [repeat (131071 # 131072)%Q 45] |}.

(** What the decoder makes of the four bytes 00 40 00 C0 at 24000 Hz,
    one channel: the two frames 1/2 and -1/2. *)
Definition received : AudioBuffer :=
  {| sampleRate := 24000; length := 2;
     channelData := [[(16384 # 32768)%Q; (-16384 # 32768)%Q]] |}.

(** What it makes of 46 frames: silence, then -3/4 and 1/4. *)
Definition late : AudioBuffer :=
  {| sampleRate := 24000; length := 46;
     channelData := [repeat (0 # 32768)%Q 44
                       ++ [(-24576 # 32768)%Q; (8192 # 32768)%Q]] |}.

(** C1 on two buffers the decoder produces.  The data loop of the
    exporter starts at frame 44, the value the header left in [pos].  The
    two frames of [received] are therefore not written: the data chunk is
    four zero bytes and decodes to silence, so frame 0 comes back as 0
    where the source has 1/2, and 1/2 is more than 1/32768.  The frames 44
    and 45 of [late] are written at the start of the data chunk: frame 0
    comes back as -3/4 where the source has 0. *)
Theorem roundtrip_loses_frames :
  (Pcm.decodeAudioData [0; 64; 0; 192] 24000 1 = Ok received /\
   wellFormed received /\ normalised received /\
   exists w b,
     Wav.getWavBlob (Some received) = Some w /\
     Wav.dataChunk w = [0; 0; 0; 0] /\
     Pcm.decodeAudioData (Wav.dataChunk w) (sampleRate received)
       (numberOfChannels received) = Ok b /\
     length b = length received /\
     sampleAt received 0 0 = Some (16384 # 32768)%Q /\
     sampleAt b 0 0 = Some (0 # 32768)%Q /\
     ~ (Qabs ((0 # 32768) - (16384 # 32768)) <= 1 # 32768)%Q) /\
  (Pcm.decodeAudioData (repeat 0 88 ++ [0; 160; 0; 32]) 24000 1 = Ok late /\
   wellFormed late /\ normalised late /\
   exists w b,
     Wav.getWavBlob (Some late) = Some w /\
     Wav.dataChunk w = [0; 160; 255; 31] ++ repeat 0 88 /\
     Pcm.decodeAudioData (Wav.dataChunk w) (sampleRate late)
       (numberOfChannels late) = Ok b /\
     length b = length late /\
     sampleAt late 0 0 = Some (0 # 32768)%Q /\
     sampleAt b 0 0 = Some (-24576 # 32768)%Q /\
     ~ (Qabs ((-24576 # 32768) - (0 # 32768)) <= 1 # 32768)%Q).
Proof.
  split.
  - split; [reflexivity|]. split.
    { unfold wellFormed, received, numberOfChannels, maxChannels,
        minSampleRate, maxSampleRate; cbn.
      repeat split; try lia. repeat constructor. }
    split.
    { unfold normalised, received; cbn.
      repeat constructor; unfold Qle; cbn; lia. }
    eexists. eexists. split; [reflexivity|].
    split; [vm_compute; reflexivity|].
    split; [vm_compute; reflexivity|].
    split; [reflexivity|]. split; [reflexivity|]. split; [reflexivity|].
    unfold Qle; cbn. lia.
  - split; [vm_compute; reflexivity|]. split.
    { unfold wellFormed, late, numberOfChannels, maxChannels,
        minSampleRate, maxSampleRate; cbn.
      repeat split; try lia. repeat constructor. }
    split.
    { unfold normalised, late; cbn.
      repeat constructor; unfold Qle; cbn; lia. }
    eexists. eexists. split; [reflexivity|].
    split; [vm_compute; reflexivity|].
    split; [vm_compute; reflexivity|].
    split; [reflexivity|]. split; [reflexivity|]. split; [reflexivity|].
    unfold Qle; cbn. lia.
Qed.

End CodecFacts.

(** ** Play, pause and resume *)

Module PlayerFacts.

Import Audio Player.
Local Open Scope Q_scope.









End PlayerFacts.

(** ** The waveform *)

Module WaveformFacts.

Import Audio Waveform.

Definition inUnit (x : Q) : Prop := (-(1) <= x /\ x <= 1)%Q.

Lemma window_inUnit (data : list Q) (start : Z) (step : nat) (j : Z) (mm : Q * Q) :
  Forall inUnit data -> inUnit (fst mm) -> inUnit (snd mm) ->
  inUnit (fst (window data start step j mm)) /\
  inUnit (snd (window data start step j mm)).
Proof.
  intros Hd. revert j mm.
  induction step as [|step IH]; intros j [lo hi] Hlo Hhi; [now split|].
  cbn [window]. apply IH.
  - destruct (start + j <? 0)%Z; [exact Hlo|].
    destruct (nth_error data (Z.to_nat (start + j))) as [datum|] eqn:E;
      [|exact Hlo].
    cbn [fst]. destruct (Qlt_le_dec datum lo); [|exact Hlo].
    apply nth_error_In in E. rewrite Forall_forall in Hd. now apply Hd.
  - destruct (start + j <? 0)%Z; [exact Hhi|].
    destruct (nth_error data (Z.to_nat (start + j))) as [datum|] eqn:E;
      [|exact Hhi].
    cbn [snd]. destruct (Qlt_le_dec hi datum); [|exact Hhi].
    apply nth_error_In in E. rewrite Forall_forall in Hd. now apply Hd.
Qed.

Lemma bar_val (data : list Q) (step : Z) (height : Q) (i : Z) :
  Forall inUnit data -> (0 <= val (bar data step height i) <= 1)%Q.
Proof.
  intros Hd. unfold bar.
  pose proof (window_inUnit data (i * step) (Z.to_nat step) 0 (1, -(1))%Q Hd)
    as Hw.
  destruct (window data (i * step) (Z.to_nat step) 0 (1, -(1))%Q) as [lo hi].
  cbn [val]. cbn [fst snd] in Hw.
  destruct Hw as [[Hlo1 Hlo2] [Hhi1 Hhi2]];
    try (split; unfold Qle; cbn; lia).
  split.
  - apply Qle_trans with (Qabs lo); [apply Qabs_nonneg | apply Q.le_max_l].
  - apply Q.max_lub; apply Qabs_Qle_condition; now split.
Qed.

Lemma bars_val (fuel : nat) (data : list Q) (step width : Z) (height : Q) (i : Z) :
  Forall inUnit data ->
  Forall (fun v => 0 <= v <= 1)%Q
         (magnitudes (bars fuel data step width height i)).
Proof.
  intros Hd. revert i. induction fuel as [|fuel IH]; intros i; [constructor|].
  cbn [bars]. destruct (i <? width)%Z; [|constructor].
  unfold magnitudes in *. cbn [map]. constructor; [now apply bar_val|apply IH].
Qed.

Lemma ceilDiv_step (a : Z) :
  (0 < a)%Z -> Z.to_nat (ceilDiv a 3) = S (Z.to_nat (ceilDiv (a - 3) 3)).
Proof.
  intros Ha. unfold ceilDiv.
  rewrite <- Z2Nat.inj_succ by (Z.to_euclidean_division_equations; lia).
  f_equal. Z.to_euclidean_division_equations. lia.
Qed.

Lemma bars_length (fuel : nat) (data : list Q) (step width : Z) (height : Q) (i : Z) :
  (width - i <= Z.of_nat fuel)%Z ->
  List.length (bars fuel data step width height i)
  = Z.to_nat (ceilDiv (width - i) 3).
Proof.
  revert i. induction fuel as [|fuel IH]; intros i Hf.
  - cbn [bars List.length]. unfold ceilDiv.
    Z.to_euclidean_division_equations. lia.
  - cbn [bars]. destruct (i <? width)%Z eqn:E.
    + apply Z.ltb_lt in E. cbn [List.length].
      unfold barWidth, gap. rewrite IH by lia.
      rewrite (ceilDiv_step (width - i)) by lia.
      do 2 f_equal. f_equal. lia.
    + apply Z.ltb_ge in E. cbn [List.length]. unfold ceilDiv.
      Z.to_euclidean_division_equations. lia.
Qed.

(** C8, as the code has it.  For a bound buffer whose channel 0 holds
    samples in [-1, 1], whatever their number, the effect draws one bar
    every [barWidth + gap] = 3 pixels: ceil(width / 3) magnitudes, each in
    [0, 1].  Nothing is drawn when no buffer is bound. *)
Theorem drawWaveform_bars (b : AudioBuffer) (width : Z) (height : Q) :
  Forall inUnit (nth 0 (channelData b) []) ->
  List.length (magnitudes (drawWaveform (Some b) width height))
  = Z.to_nat (ceilDiv width (barWidth + gap)) /\
  Forall (fun v => 0 <= v <= 1)%Q
         (magnitudes (drawWaveform (Some b) width height)) /\
  drawWaveform None width height = [].
Proof.
  intros Hd. unfold drawWaveform. split; [|split; [|reflexivity]].
  - unfold magnitudes. rewrite length_map, bars_length by lia.
    now rewrite Z.sub_0_r.
  - now apply bars_val.
Qed.

Lemma drawWaveform_bars_witness :
  List.length (magnitudes (drawWaveform (Some CodecFacts.steady) 100 48))
  = Z.to_nat (ceilDiv 100 (barWidth + gap)) /\
  Forall (fun v => 0 <= v <= 1)%Q
         (magnitudes (drawWaveform (Some CodecFacts.steady) 100 48)) /\
  drawWaveform None 100 48 = [].
Proof.
  apply (drawWaveform_bars CodecFacts.steady 100 48).
  cbn. repeat constructor; unfold Qle; cbn; lia.
Defined.

(** A bound buffer with no sample at all. *)
Definition silent : AudioBuffer :=
  {| sampleRate := 24000; length := 0; channelData := [[]] |}.

(** C8, as the claim has it, fails: a width of 100 pixels gives 34
    magnitudes, not 100; and a buffer without samples still gives one bar
    per three pixels, each of magnitude 1. *)
Lemma drawWaveform_not_one_per_pixel :
  List.length (magnitudes (drawWaveform (Some CodecFacts.steady) 100 48)) = 34%nat /\
  34%nat <> 100%nat /\
  magnitudes (drawWaveform (Some silent) 6 48) = [1%Q; 1%Q] /\
  drawWaveform (Some silent) 6 48 <> [].
Proof.
  split; [vm_compute; reflexivity|]. split; [discriminate|].
  split; [vm_compute; reflexivity|]. discriminate.
Qed.

End WaveformFacts.

(** ** The prompt fallback loop *)

Module SynthFacts.

Import Audio Synth.

(** The requests recorded in a trace, in the order they were issued. *)
Definition requests (t : list event) : list Request :=
  flat_map (fun e => match e with Requested r => [r] | Slept _ => [] end) t.

Definition requestFor (voice prompt : jsstring) : Request :=
  {| model := js "gemini-2.5-flash-preview-tts";
     promptText := prompt; voiceName := voice |}.

Lemma requests_app (t u : list event) :
  requests (t ++ u) = requests t ++ requests u.
Proof. unfold requests. apply flat_map_app. Qed.

Section WithRemote.

Variable Remote : Type.
Variable generateContent : Remote -> Request -> Remote * result Response.
Variable atob : jsstring -> result jsstring.

(** What the service, in state [s], makes of one request: its next state
    and the audio or the error the [try] block ends with. *)
Definition answer (s : Remote) (req : Request) : Remote * result AudioBuffer :=
  let (s', a) := generateContent s req in
  (s', match a with
       | Throw e => Throw e
       | Ok response => readResponse atob response
       end).

(** The answers the service would give to a list of requests issued one
    after the other from state [s]. *)
Fixpoint answers (s : Remote) (reqs : list Request)
  : list (Remote * result AudioBuffer) :=
  match reqs with
  | [] => []
  | req :: rest => answer s req :: answers (fst (answer s req)) rest
  end.

Definition failed (o : option (Remote * result AudioBuffer)) : Prop :=
  exists s e, o = Some (s, Throw e).

Lemma attempt_answer (voice prompt : jsstring) (w : world Remote) :
  attempt generateContent atob voice prompt w
  = ({| remote := fst (answer (remote w) (requestFor voice prompt));
        trace := trace w ++ [Requested (requestFor voice prompt)] |},
     snd (answer (remote w) (requestFor voice prompt))).
Proof.
  unfold attempt, answer, requestFor, emit.
  destruct (generateContent (remote w) _) as [s' a]. reflexivity.
Qed.


(** The error the loop holds after a list of answers. *)
Fixpoint finalError (os : list (Remote * result AudioBuffer))
         (last : option jsError) : option jsError :=
  match os with
  | [] => last
  | (_, Throw e) :: rest => finalError rest (Some e)
  | (_, Ok _) :: rest => finalError rest last
  end.

(** When every answer is an error the loop issues every request and
    throws the error it holds at the end: the last one. *)
Lemma tryPrompts_all_failed (voice : jsstring) (prompts : list jsstring) :
  forall (last : option jsError) (w : world Remote),
    let reqs := map (requestFor voice) prompts in
    (forall m, (m < List.length prompts)%nat ->
               failed (nth_error (answers (remote w) reqs) m)) ->
    exists w',
      tryPrompts generateContent atob voice prompts last w
      = (w', Throw match finalError (answers (remote w) reqs) last with
                   | Some e => e
                   | None => newError (js "Voice generation failed after retries.")
                   end) /\
      requests (trace w') = requests (trace w) ++ reqs.
Proof.
  induction prompts as [|p rest IH]; intros last w reqs Hm.
  - cbn. eexists. split; [reflexivity|]. now rewrite app_nil_r.
  - cbn [tryPrompts]. rewrite attempt_answer.
    subst reqs. cbn [map answers] in *.
    destruct (Hm 0%nat) as (s0 & e0 & H0); [cbn; lia|].
    cbn [nth_error] in H0. injection H0 as H0. rewrite H0 in *.
    cbn [snd fst finalError] in *.
    set (w1 := emit (Slept 800) _).
    destruct (IH (Some e0) w1) as (w' & Hrun & Hreq).
    { intros m Hlt. apply (Hm (S m)). cbn. lia. }
    exists w'. split; [exact Hrun|].
    rewrite Hreq. unfold w1, emit. cbn [trace].
    rewrite !requests_app. cbn. rewrite app_nil_r, <- app_assoc. reflexivity.
Qed.

(** However the answers turn out, the requests issued are an initial
    part of the list of prompts. *)
Lemma tryPrompts_requests (voice : jsstring) (prompts : list jsstring) :
  forall (last : option jsError) (w : world Remote),
  exists k, (k <= List.length prompts)%nat /\
    requests (trace (fst (tryPrompts generateContent atob voice prompts last w)))
    = requests (trace w) ++ firstn k (map (requestFor voice) prompts).
Proof.
  induction prompts as [|p rest IH]; intros last w.
  - exists 0%nat. cbn. split; [lia|]. now rewrite app_nil_r.
  - cbn [tryPrompts]. rewrite attempt_answer.
    destruct (snd (answer (remote w) (requestFor voice p))) as [a|e].
    + exists 1%nat. cbn. split; [lia|]. now rewrite requests_app.
    + set (w1 := emit (Slept 800) _).
      destruct (IH (Some e) w1) as (k & Hk & Hreq).
      exists (S k). split; [cbn; lia|].
      rewrite Hreq. unfold w1, emit. cbn [trace].
      rewrite !requests_app. cbn. rewrite app_nil_r, <- app_assoc. reflexivity.
Qed.

(** *** The claims about the loop *)

(** The three prompt variants, as the specification lists them. *)
Definition styled (config : VoiceConfig) (clean : jsstring) : jsstring :=
  js "Say with a " ++ accentValue (accent config) ++ js " accent and "
    ++ toneValue (tone config) ++ js " tone: " ++ clean.

Definition neutral (clean : jsstring) : jsstring :=
  js "Read the following text aloud: " ++ clean.

Definition variants (config : VoiceConfig) (clean : jsstring) : list Request :=
  map (requestFor (voiceFor config)) [styled config clean; neutral clean; clean].


(** C6, as the code has it.  When the three answers are errors,
    [generateVoiceover] fails after the three requests with the very
    error of the third answer, rethrown as it is. *)
Theorem synthesize_exhausted (key : option jsstring) (text : jsstring)
        (config : VoiceConfig) (w : world Remote) s1 e1 s2 e2 s3 e3 :
  let clean := Clean.cleanText text in
  let reqs := variants config clean in
  let run := generateVoiceover generateContent atob key text config w in
  getClient key = Ok tt -> clean <> [] ->
  answers (remote w) reqs = [(s1, Throw e1); (s2, Throw e2); (s3, Throw e3)] ->
  snd run = Throw e3 /\
  requests (trace (fst run)) = requests (trace w) ++ reqs.
Proof.
  intros clean reqs run Hk Hc Hans.
  unfold run, generateVoiceover. rewrite Hk. fold clean.
  destruct clean as [|c0 cl] eqn:Ec; [contradiction|].
  destruct (tryPrompts_all_failed (voiceFor config) (prompts config (c0 :: cl))
              None w) as (w' & Hw & Hreq).
  { intros m Hm. change (map (requestFor (voiceFor config))
                             (prompts config (c0 :: cl))) with reqs.
    rewrite Hans. cbn in Hm.
    destruct m as [|[|[|m]]];
      [now exists s1, e1 | now exists s2, e2 | now exists s3, e3 | lia]. }
  rewrite Hw. cbn [fst snd]. split; [|exact Hreq].
  change (map (requestFor (voiceFor config)) (prompts config (c0 :: cl)))
    with reqs. now rewrite Hans.
Qed.

End WithRemote.

(** *** A service that fails a given number of times *)

(** A response carrying two frames of mono PCM, 1/2 and -1/2. *)
Definition goodResponse : Response :=
  {| candidates :=
       Some [ {| finishReason := Some (js "STOP");
                 content :=
                   Some {| parts :=
                             Some [ {| inlineData :=
                                         Some {| data := Some (js "AEAAwA==") |} |} ] |} |} ] |}.

(** The state counts the requests received; the first [failures] of them
    are refused, each with an error of its own. *)
Definition flaky (failures : nat) (n : nat) (req : Request)
  : nat * result Response :=
  (S n, if (n <? failures)%nat
        then Throw (newError (js "unavailable " ++ [48 + N.of_nat n])%N)
        else Ok goodResponse).

Definition defaultConfig : VoiceConfig :=
  {| id := None; gender := GIRL; age := 8; accent := INDIAN;
     pitch := 12 # 10; tone := FRIENDLY |}.

Definition apiKey : option jsstring := Some (js "key").

Definition start : world nat := {| remote := 0%nat; trace := [] |}.

Definition twoFrames : AudioBuffer :=
  {| sampleRate := 24000; length := 2;
     channelData := [[(16384 / 32768)%Q; (-16384 / 32768)%Q]] |}.


Lemma synthesize_exhausted_witness :
  let run := generateVoiceover (flaky 3) Base64.atob apiKey
               (js "Hi there!") defaultConfig start in
  snd run = Throw (newError (js "unavailable 2")) /\
  requests (trace (fst run))
  = requests (trace start) ++ variants defaultConfig (Clean.cleanText (js "Hi there!")).
Proof.
  apply (synthesize_exhausted nat (flaky 3) Base64.atob apiKey
           (js "Hi there!") defaultConfig start
           1%nat (newError (js "unavailable 0"))
           2%nat (newError (js "unavailable 1"))
           3%nat (newError (js "unavailable 2"))).
  - reflexivity.
  - discriminate.
  - reflexivity.
Defined.

(** An error object of the given name whose [cause] is [inner]. *)
Definition wraps (name : string) (raised inner : jsError) : Prop :=
  errorName raised = name /\ errorCause raised = Some inner.

(** C6, as the claim has it, fails: after three refusals the error raised
    is the third refusal itself, a plain [Error] without a cause, not a
    SynthesisFailedError wrapped around it. *)
Lemma exhausted_error_not_wrapped :
  let run := generateVoiceover (flaky 3) Base64.atob apiKey
               (js "Hi there!") defaultConfig start in
  let third := newError (js "unavailable 2") in
  map snd (answers nat (flaky 3) Base64.atob (remote start)
             (variants defaultConfig (Clean.cleanText (js "Hi there!"))))
  = [Throw (newError (js "unavailable 0"));
     Throw (newError (js "unavailable 1")); Throw third] /\
  snd run = Throw third /\
  errorName third = "Error"%string /\ errorCause third = None /\
  forall raised, snd run = Throw raised ->
                 ~ wraps "SynthesisFailedError" raised third.
Proof.
  cbv zeta. split; [reflexivity|]. split; [reflexivity|].
  split; [reflexivity|]. split; [reflexivity|].
  intros raised Hr [Hname _].
  assert (E : Throw (A:=AudioBuffer) raised = Throw (newError (js "unavailable 2"))).
  { rewrite <- Hr. reflexivity. }
  injection E as E. subst raised. discriminate.
Qed.

End SynthFacts.

(** ** The batch driver *)

Module BatchFacts.

Import Audio Batch.

Definition outcomeStatus (r : result AudioBuffer) : Status :=
  match r with Ok _ => completed | Throw _ => error end.

(** What the loop body leaves of a segment whose synthesis ended in [r]. *)
Definition finalSegment (seg : VoiceSegment) (r : result AudioBuffer)
  : VoiceSegment :=
  match r with
  | Ok b => withAudio b (withStatus generating seg)
  | Throw _ => withStatus error (withStatus generating seg)
  end.

Definition zipFinal (segs : list VoiceSegment) (rs : list (result AudioBuffer))
  : list VoiceSegment :=
  map (fun p => finalSegment (fst p) (snd p)) (combine segs rs).

Lemma sameId_refl (a : Z * nat) : sameId a a = true.
Proof. unfold sameId. now rewrite Z.eqb_refl, Nat.eqb_refl. Qed.

Lemma sameId_index (a b : Z * nat) : snd a <> snd b -> sameId a b = false.
Proof.
  intros H. unfold sameId. apply Nat.eqb_neq in H. rewrite H.
  apply andb_false_r.
Qed.

Lemma segId_finalSegment (seg : VoiceSegment) (r : result AudioBuffer) :
  segId (finalSegment seg r) = segId seg.
Proof. now destruct r. Qed.

(** An update by identifier touches the one segment that carries it. *)
Lemma update_one (sid : Z * nat) (f : VoiceSegment -> VoiceSegment)
      (done rest : list VoiceSegment) (seg : VoiceSegment) :
  segId seg = sid ->
  Forall (fun s => snd (segId s) <> snd sid) done ->
  Forall (fun s => snd (segId s) <> snd sid) rest ->
  map (fun s => if sameId (segId s) sid then f s else s) (done ++ seg :: rest)
  = done ++ f seg :: rest.
Proof.
  intros Hid Hdone Hrest.
  assert (Hkeep : forall l, Forall (fun s => snd (segId s) <> snd sid) l ->
            map (fun s => if sameId (segId s) sid then f s else s) l = l).
  { induction 1 as [|s l Hs _ IH]; [reflexivity|].
    cbn [map]. now rewrite (sameId_index _ _ Hs), IH. }
  rewrite map_app. cbn [map].
  now rewrite (Hkeep _ Hdone), (Hkeep _ Hrest), Hid, sameId_refl.
Qed.

Section WithRemote.

Variable Remote : Type.
Variable generateContent :
  Remote -> Synth.Request -> Remote * result Synth.Response.
Variable atob : jsstring -> result jsstring.
Variable dateNow : nat -> Z.

Local Abbreviation world := (Synth.world Remote).

(** Every text synthesised in turn, whatever became of the ones before. *)
Fixpoint synthAll (key : option jsstring) (config : VoiceConfig)
         (texts : list jsstring) (w : world) : world * list (result AudioBuffer) :=
  match texts with
  | [] => (w, [])
  | t :: rest =>
      let (w1, r) := Synth.generateVoiceover generateContent atob key t config w in
      let (w2, rs) := synthAll key config rest w1 in
      (w2, r :: rs)
  end.

Lemma synthAll_length key config texts w :
  List.length (snd (synthAll key config texts w)) = List.length texts.
Proof.
  revert w; induction texts as [|t rest IH]; intros w; [reflexivity|].
  cbn [synthAll].
  destruct (Synth.generateVoiceover _ _ _ _ _ _) as [w1 r].
  specialize (IH w1). destruct (synthAll key config rest w1) as [w2 rs].
  cbn in *. now rewrite IH.
Qed.

Lemma mapIndexed_index (raw : list jsstring) :
  forall k j seg,
    nth_error (mapIndexed dateNow k raw) j = Some seg ->
    snd (segId seg) = (k + j)%nat.
Proof.
  induction raw as [|t rest IH]; intros k j seg H.
  - destruct j; discriminate.
  - destruct j as [|j]; cbn in H.
    + injection H as <-. cbn. lia.
    + rewrite (IH (S k) j seg H). lia.
Qed.

Lemma mapIndexed_text (raw : list jsstring) (k : nat) :
  map text (mapIndexed dateNow k raw) = map Clean.trim raw.
Proof.
  revert k; induction raw as [|t rest IH]; intros k; [reflexivity|].
  cbn. now rewrite IH.
Qed.

Lemma mapIndexed_length (raw : list jsstring) (k : nat) :
  List.length (mapIndexed dateNow k raw) = List.length raw.
Proof.
  revert k; induction raw as [|t rest IH]; intros k; [reflexivity|].
  cbn. now rewrite IH.
Qed.

Lemma step_spec key config (i : nat) (seg : VoiceSegment)
      (done rest : list VoiceSegment) (w : world) (st : AppState) :
  segments st = done ++ seg :: rest ->
  Forall (fun s => snd (segId s) <> snd (segId seg)) done ->
  Forall (fun s => snd (segId s) <> snd (segId seg)) rest ->
  let call := Synth.generateVoiceover generateContent atob key (text seg) config w in
  let out := step generateContent atob key config i seg (w, st) in
  fst out = fst call /\
  segments (snd out) = done ++ finalSegment seg (snd call) :: rest /\
  displayedAudio (snd out)
  = match snd call with
    | Ok b => if (i =? 0)%nat then Some b else displayedAudio st
    | Throw _ => displayedAudio st
    end /\
  isGenerating (snd out) = isGenerating st.
Proof.
  intros Hseg Hdone Hrest call out. unfold out, step. fold call.
  assert (H1 : segments (updateSegment (segId seg) (withStatus generating) st)
               = done ++ withStatus generating seg :: rest).
  { unfold updateSegment. cbn [segments]. rewrite Hseg.
    now apply update_one. }
  destruct call as [w1 [b|e]]; cbn [fst snd finalSegment].
  - assert (H2 : segments (updateSegment (segId seg) (withAudio b)
                   (updateSegment (segId seg) (withStatus generating) st))
                 = done ++ withAudio b (withStatus generating seg) :: rest).
    { unfold updateSegment at 1. cbn [segments]. rewrite H1.
      now apply update_one. }
    destruct (i =? 0)%nat; repeat split; assumption.
  - repeat split.
    unfold updateSegment at 1. cbn [segments]. rewrite H1.
    now apply update_one.
Qed.

(** The loop from index [i] on, with [done] the segments already
    settled. *)
Lemma loop_spec key config (pending : list VoiceSegment) :
  forall (i : nat) (done : list VoiceSegment) (w : world) (st : AppState),
    segments st = done ++ pending ->
    Forall (fun s => (snd (segId s) < i)%nat) done ->
    (forall j seg, nth_error pending j = Some seg ->
                   snd (segId seg) = (i + j)%nat) ->
    let all := synthAll key config (map text pending) w in
    let out := loop generateContent atob key config i pending (w, st) in
    fst out = fst all /\
    segments (snd out) = done ++ zipFinal pending (snd all) /\
    displayedAudio (snd out)
    = match i, snd all with
      | O, Ok b :: _ => Some b
      | _, _ => displayedAudio st
      end /\
    isGenerating (snd out) = isGenerating st.
Proof.
  induction pending as [|seg rest IH]; intros i done w st Hst Hdone Hidx.
  - rewrite app_nil_r in Hst. cbn. rewrite app_nil_r.
    repeat split; [exact Hst|now destruct i].
  - cbn [loop map synthAll].
    assert (Hi : snd (segId seg) = i).
    { rewrite (Hidx 0%nat seg eq_refl). lia. }
    destruct (step_spec key config i seg done rest w st Hst)
      as (Hw & Hsegs & Hdisp & Hgen).
    { eapply Forall_impl; [|exact Hdone]. cbn. intros s Hs. lia. }
    { apply Forall_forall. intros s Hin.
      destruct (In_nth_error _ _ Hin) as [j Hj].
      rewrite (Hidx (S j) s Hj). lia. }
    destruct (step generateContent atob key config i seg (w, st)) as [w1 st1].
    destruct (Synth.generateVoiceover generateContent atob key (text seg) config w)
      as [w1' r].
    cbn [fst snd] in Hw, Hsegs, Hdisp, Hgen. subst w1'.
    destruct (IH (S i) (done ++ [finalSegment seg r]) w1 st1)
      as (Hw' & Hsegs' & Hdisp' & Hgen').
    { rewrite Hsegs, <- app_assoc. reflexivity. }
    { apply Forall_app. split.
      - eapply Forall_impl; [|exact Hdone]. cbn. intros s Hs. lia.
      - constructor; [|constructor]. rewrite segId_finalSegment. lia. }
    { intros j s Hj. rewrite (Hidx (S j) s Hj). lia. }
    destruct (synthAll key config (map text rest) w1) as [w2 rs].
    cbn [fst snd] in *.
    split; [exact Hw'|]. split.
    { rewrite Hsegs', <- app_assoc. reflexivity. }
    split; [|congruence].
    rewrite Hdisp', Hdisp.
    destruct r; destruct i; reflexivity.
Qed.

(** C9, as the code has it.  The driver synthesises every segment in
    turn, whatever became of the ones before: each segment ends
    [completed] with its audio or [error], according to its own call.  The
    displayed audio is the audio of the segment of index 0 when that call
    succeeded, and none otherwise. *)
Theorem handleGenerateScenes_outcome (key : option jsstring) (script : jsstring)
        (config : VoiceConfig) (w : world) (st : AppState) :
  rawSegments script <> [] ->
  let segs := mapIndexed dateNow 0 (rawSegments script) in
  let all := synthAll key config (map text segs) w in
  let out := handleGenerateScenes generateContent atob dateNow key script config (w, st) in
  fst out = fst all /\
  List.length (snd all) = List.length (rawSegments script) /\
  segments (snd out) = zipFinal segs (snd all) /\
  map status (segments (snd out)) = map outcomeStatus (snd all) /\
  displayedAudio (snd out)
  = match snd all with Ok b :: _ => Some b | _ => None end /\
  isGenerating (snd out) = false.
Proof.
  intros Hne segs all out.
  assert (Hlen : List.length (snd all) = List.length (rawSegments script)).
  { unfold all. rewrite synthAll_length, length_map. apply mapIndexed_length. }
  unfold out, handleGenerateScenes.
  destruct (rawSegments script) as [|t raw] eqn:Hraw; [contradiction|].
  fold segs.
  set (st0 := {| isGenerating := true; errorMessage := None;
                 displayedAudio := None; activeVideoUrl := None;
                 segments := segs |}).
  destruct (loop_spec key config segs 0 [] w st0) as (Hw & Hsegs & Hdisp & Hgen).
  { reflexivity. }
  { constructor. }
  { intros j seg Hj. apply (mapIndexed_index _ _ _ _ Hj). }
  fold all in Hw, Hsegs, Hdisp.
  match goal with
  | |- context [loop generateContent atob key config 0 ?l ?x] =>
      change (loop generateContent atob key config 0 l x)
        with (loop generateContent atob key config 0 segs (w, st0))
  end.
  destruct (loop generateContent atob key config 0 segs (w, st0)) as [w' st'].
  cbn [fst snd app] in *.
  unfold setIsGenerating. cbn [segments displayedAudio isGenerating].
  split; [exact Hw|]. split; [exact Hlen|]. split; [exact Hsegs|].
  split; [|split; [exact Hdisp|reflexivity]].
  rewrite Hsegs. unfold zipFinal. rewrite map_map.
  assert (Hl : List.length segs = List.length (snd all)).
  { unfold segs. rewrite mapIndexed_length. now rewrite Hlen. }
  clear -Hl. revert Hl. generalize (snd all) as rs. generalize segs as l.
  induction l as [|seg l IH]; intros [|r rs] Hl; try discriminate; [reflexivity|].
  cbn [combine map fst snd]. f_equal; [now destruct r|].
  apply IH. now injection Hl.
Qed.

End WithRemote.

(** *** A run with a failing first segment *)

Definition idleApp : AppState :=
  {| isGenerating := false; errorMessage := None; displayedAudio := None;
     activeVideoUrl := None; segments := [] |}.

Definition twoLines : jsstring := js "Once upon a time" ++ [10%N] ++ js "The end".

Definition failingFirst : Synth.world nat * AppState :=
  handleGenerateScenes (SynthFacts.flaky 3) Base64.atob (fun _ => 1700000000000%Z)
    SynthFacts.apiKey twoLines SynthFacts.defaultConfig
    (SynthFacts.start, idleApp).

Lemma handleGenerateScenes_outcome_witness :
  map status (segments (snd failingFirst)) = [error; completed] /\
  displayedAudio (snd failingFirst) = None /\
  isGenerating (snd failingFirst) = false.
Proof.
  destruct (handleGenerateScenes_outcome nat (SynthFacts.flaky 3) Base64.atob
              (fun _ => 1700000000000%Z) SynthFacts.apiKey twoLines
              SynthFacts.defaultConfig SynthFacts.start idleApp)
    as (_ & _ & _ & Hstatus & Hdisp & Hgen).
  - discriminate.
  - split; [exact Hstatus|]. split; [exact Hdisp|exact Hgen].
Defined.

(** C9, as the claim has it, fails: the first segment is refused three
    times and ends in [error], the second one completes with audio, and no
    audio is displayed. *)
Lemma first_completed_not_displayed :
  map text (segments (snd failingFirst)) = [js "Once upon a time"; js "The end"] /\
  map status (segments (snd failingFirst)) = [error; completed] /\
  map audioBuffer (segments (snd failingFirst)) = [None; Some SynthFacts.twoFrames] /\
  displayedAudio (snd failingFirst) = None /\
  displayedAudio (snd failingFirst) <> Some SynthFacts.twoFrames.
Proof.
  repeat split; try (vm_compute; reflexivity). vm_compute. discriminate.
Qed.

End BatchFacts.

(** ** More on the decoder *)

Module DecoderFacts.

Import Audio.
Local Open Scope Z_scope.

Definition isByte (b : Z) : Prop := 0 <= b < 256.

Definition isInt16 (v : Z) : Prop := -32768 <= v <= 32767.

Lemma int16_range (lo hi : Z) : isByte lo -> isByte hi -> isInt16 (Pcm.int16 lo hi).
Proof.
  unfold isByte, isInt16, Pcm.int16. intros Hlo Hhi.
  destruct (lo + 256 * hi <? 32768) eqn:E;
    [apply Z.ltb_lt in E | apply Z.ltb_ge in E]; lia.
Qed.

Lemma int16Elements_range (bytes : list Z) :
  Forall isByte bytes -> Forall isInt16 (Pcm.int16Elements bytes).
Proof.
  revert bytes.
  fix IH 1. intros [|lo [|hi rest]] H; try constructor.
  - inversion H as [|? ? Hlo H']; subst. inversion H' as [|? ? Hhi H'']; subst.
    now apply int16_range.
  - apply IH. inversion H as [|? ? _ H']; subst. now inversion H'.
Qed.

Lemma int16Elements_half (bytes : list Z) :
  List.length (Pcm.int16Elements bytes) = Nat.div2 (List.length bytes).
Proof.
  revert bytes. fix IH 1. intros [|lo [|hi rest]]; try reflexivity.
  cbn [Pcm.int16Elements List.length Nat.div2]. f_equal. apply IH.
Qed.

Lemma toFloat_range (dataInt16 : list Z) (k : Z) :
  Forall isInt16 dataInt16 ->
  (-(1) <= Pcm.toFloat dataInt16 k /\ Pcm.toFloat dataInt16 k < 1)%Q.
Proof.
  intros H. unfold Pcm.toFloat.
  assert (Hv : isInt16 (nth (Z.to_nat k) dataInt16 0)).
  { destruct (nth_in_or_default (Z.to_nat k) dataInt16 0) as [Hin| ->].
    - rewrite Forall_forall in H. now apply H.
    - unfold isInt16. lia. }
  unfold isInt16 in Hv.
  unfold Qle, Qlt, Qdiv, Qmult, Qinv, Qopp, inject_Z. cbn [Qnum Qden Z.opp].
  lia.
Qed.

Lemma truncate_quotient (n d : Z) :
  0 <= n -> 0 < d -> truncate (inject_Z n / inject_Z d)%Q = n / d.
Proof.
  intros Hn Hd. destruct d as [|p|p]; try lia.
  unfold truncate, Qdiv, Qmult, Qinv, inject_Z. cbn [Qnum Qden].
  rewrite Z.mul_1_r. change (Z.pos (1 * p)) with (Z.pos p).
  apply Z.quot_div_nonneg; lia.
Qed.

Lemma samples_of_bytes (data : list Z) :
  Z.of_nat (List.length (Pcm.int16Elements data)) = Z.of_nat (List.length data) / 2.
Proof.
  rewrite int16Elements_half, Nat.div2_div, Nat2Z.inj_div. reflexivity.
Qed.

Lemma nth_error_map_seq {A : Type} (f : nat -> A) (n k : nat) :
  (k < n)%nat -> nth_error (map f (seq 0 n)) k = Some (f k).
Proof.
  intros Hk. rewrite nth_error_map, nth_error_seq.
  destruct (Nat.ltb_spec k n); [reflexivity|lia].
Qed.

(** X1.  On an even number of bytes holding at least one frame, with 1 to
    32 channels and a supported rate, the decoder succeeds: the buffer has
    floor(samples / channels) frames (a trailing partial frame is
    dropped), the channel count and rate asked for, is well formed, and
    frame [i] of channel [c] is sample [i * channels + c] of the input
    divided by 32768. *)
Theorem decodeAudioData_frames (data : list Z) (rate ch : Z) :
  Nat.even (List.length data) = true ->
  1 <= ch <= maxChannels -> minSampleRate <= rate <= maxSampleRate ->
  ch <= Z.of_nat (List.length data) / 2 ->
  exists b,
    Pcm.decodeAudioData data rate ch = Ok b /\
    length b = Z.of_nat (List.length data) / 2 / ch /\
    numberOfChannels b = ch /\ sampleRate b = rate /\ wellFormed b /\
    forall c i, 0 <= c < ch -> 0 <= i < length b ->
      sampleAt b c i = Some (Pcm.toFloat (Pcm.int16Elements data) (i * ch + c)).
Proof.
  intros Heven Hch Hrate Hframes.
  set (n := Z.of_nat (List.length data) / 2) in *.
  assert (Hn : 1 <= n / ch).
  { apply Z.div_le_lower_bound; lia. }
  unfold Pcm.decodeAudioData, Pcm.Int16Array. rewrite Heven.
  rewrite samples_of_bytes. fold n.
  rewrite (CodecFacts.createBuffer_ok ch (n / ch) rate).
  2:{ apply truncate_quotient; lia. }
  2-4: lia.
  cbn [sampleRate length].
  eexists. split; [reflexivity|]. cbn [length sampleRate].
  split; [reflexivity|].
  assert (Hnch : numberOfChannels
            {| sampleRate := rate; length := n / ch;
               channelData :=
                 map (fun channel : nat =>
                        Pcm.fillChannel (Pcm.int16Elements data) ch (n / ch)
                          (Z.of_nat channel)) (seq 0 (Z.to_nat ch)) |} = ch).
  { unfold numberOfChannels. cbn [channelData].
    rewrite length_map, length_seq. lia. }
  split; [exact Hnch|]. split; [reflexivity|]. split.
  - unfold wellFormed. rewrite Hnch. cbn [length sampleRate channelData].
    repeat split; try lia.
    apply Forall_forall. intros chd Hin. apply in_map_iff in Hin.
    destruct Hin as (c & <- & _). unfold Pcm.fillChannel.
    rewrite length_map, length_seq. lia.
  - intros c i Hc Hi. unfold sampleAt. cbn [channelData].
    replace ((c <? 0) || (i <? 0))%bool with false.
    2:{ symmetry. apply orb_false_iff. split; apply Z.ltb_ge; lia. }
    rewrite nth_error_map_seq by lia.
    unfold Pcm.fillChannel. rewrite nth_error_map_seq by lia.
    rewrite !Z2Nat.id by lia. reflexivity.
Qed.

Lemma decodeAudioData_frames_witness :
  exists b,
    Pcm.decodeAudioData [0; 64; 0; 192; 255; 127; 7] 24000 1 = Throw RangeError /\
    Pcm.decodeAudioData [0; 64; 0; 192; 255; 127] 24000 2 = Ok b /\
    length b = 1 /\ numberOfChannels b = 2 /\
    sampleAt b 1 0 = Some (Pcm.toFloat [16384; -16384; 32767] 1).
Proof.
  destruct (decodeAudioData_frames [0; 64; 0; 192; 255; 127] 24000 2)
    as (b & Hb & Hlen & Hch & _ & _ & Hs).
  - reflexivity.
  - unfold maxChannels. lia.
  - unfold minSampleRate, maxSampleRate. lia.
  - cbn. lia.
  - exists b. split; [reflexivity|]. split; [exact Hb|].
    split; [exact Hlen|]. split; [exact Hch|].
    apply (Hs 1 0); [lia|]. rewrite Hlen. cbn. lia.
Defined.

(** X2.  Whatever the decoder returns from bytes holds only samples in
    [-1, 1): at least -1 and strictly below 1. *)
Theorem decodeAudioData_range (data : list Z) (rate ch : Z) (b : AudioBuffer) :
  Forall isByte data ->
  Pcm.decodeAudioData data rate ch = Ok b ->
  Forall (Forall (fun x => -(1) <= x /\ x < 1)%Q) (channelData b).
Proof.
  intros Hbytes. unfold Pcm.decodeAudioData, Pcm.Int16Array.
  destruct (Nat.even (List.length data)); [|discriminate].
  destruct (createBuffer ch _ rate) as [buffer|e]; [|discriminate].
  intros H. injection H as <-. cbn [channelData].
  apply Forall_forall. intros chd Hin. apply in_map_iff in Hin.
  destruct Hin as (c & <- & _). unfold Pcm.fillChannel.
  apply Forall_forall. intros x Hx. apply in_map_iff in Hx.
  destruct Hx as (i & <- & _).
  apply toFloat_range. now apply int16Elements_range.
Qed.

Lemma decodeAudioData_range_witness :
  Forall (Forall (fun x => -(1) <= x /\ x < 1)%Q)
         (channelData SynthFacts.twoFrames).
Proof.
  apply (decodeAudioData_range [0; 64; 0; 192] 24000 1 SynthFacts.twoFrames).
  - repeat constructor; unfold isByte; lia.
  - reflexivity.
Defined.

(** X3.  An even number of bytes that holds fewer samples than channels
    (no bytes at all, in particular) is rejected with NotSupportedError:
    the decoder never returns a buffer without frames. *)
Theorem decodeAudioData_no_frame (data : list Z) (rate ch : Z) :
  Nat.even (List.length data) = true ->
  Z.of_nat (List.length data) / 2 < ch ->
  Pcm.decodeAudioData data rate ch = Throw NotSupportedError.
Proof.
  intros Heven Hfew.
  unfold Pcm.decodeAudioData, Pcm.Int16Array. rewrite Heven.
  rewrite samples_of_bytes.
  set (n := Z.of_nat (List.length data) / 2) in *.
  assert (Hn : 0 <= n) by (apply Z.div_pos; lia).
  unfold createBuffer. rewrite truncate_quotient by lia.
  rewrite (Z.div_small n ch) by lia.
  replace (0 <? 1) with true by reflexivity.
  destruct (ch <? 1), (maxChannels <? ch); reflexivity.
Qed.

Lemma decodeAudioData_no_frame_witness :
  Pcm.decodeAudioData [] 24000 1 = Throw NotSupportedError.
Proof.
  apply (decodeAudioData_no_frame [] 24000 1); [reflexivity|]. cbn. lia.
Defined.

End DecoderFacts.

(** ** The layout of the exported file *)

Module ExportFacts.

Import Audio.
Local Open Scope Z_scope.

Lemma setByte_app (pre : list Z) (b o : Z) (post : list Z) :
  Wav.setByte (List.length pre) b (pre ++ o :: post) = pre ++ b :: post.
Proof. induction pre as [|h t IH]; cbn; [reflexivity|now rewrite IH]. Qed.

(** A store right after [pre] replaces as many bytes as it writes. *)
Lemma store_app (bytes : list Z) :
  forall pre old post,
    List.length old = List.length bytes ->
    Wav.store (Z.of_nat (List.length pre)) bytes (pre ++ old ++ post)
    = pre ++ bytes ++ post.
Proof.
  induction bytes as [|b rest IH]; intros pre old post Hlen.
  - destruct old; [reflexivity|discriminate].
  - destruct old as [|o old]; [discriminate|].
    cbn [Wav.store]. rewrite Nat2Z.id. cbn [app]. rewrite setByte_app.
    replace (Z.of_nat (List.length pre) + 1)
      with (Z.of_nat (List.length (pre ++ [b]))) by (rewrite length_app; cbn; lia).
    change (pre ++ b :: old ++ post) with (pre ++ [b] ++ old ++ post).
    rewrite app_assoc, IH by (cbn in Hlen; lia).
    now rewrite <- app_assoc.
Qed.

Lemma store_zeros (bytes pre : list Z) (k : nat) :
  Wav.store (Z.of_nat (List.length pre)) bytes
    (pre ++ repeat 0 (List.length bytes + k))
  = pre ++ bytes ++ repeat 0 k.
Proof.
  rewrite repeat_app. apply store_app. apply repeat_length.
Qed.

Lemma length_littleEndian (n : nat) (x : Z) :
  List.length (Wav.littleEndian n x) = n.
Proof. revert x; induction n; intros x; cbn; auto. Qed.

(** *** The header *)

(** One header field: [size] bytes of [d], written at [pos]. *)
Definition writeField (f : nat * Z) (st : Wav.state) : Wav.state :=
  {| Wav.view := Wav.store (Wav.pos st) (Wav.littleEndian (fst f) (snd f)) (Wav.view st);
     Wav.pos := Wav.pos st + Z.of_nat (fst f); Wav.offset := Wav.offset st |}.

Fixpoint writeFields (fs : list (nat * Z)) (st : Wav.state) : Wav.state :=
  match fs with
  | [] => st
  | f :: rest => writeFields rest (writeField f st)
  end.

Definition fieldBytes (fs : list (nat * Z)) : list Z :=
  flat_map (fun f => Wav.littleEndian (fst f) (snd f)) fs.

Definition headerFields (b : AudioBuffer) (n : Z) : list (nat * Z) :=
  [ (4%nat, 0x46464952); (4%nat, n - 8); (4%nat, 0x45564157);
    (4%nat, 0x20746d66); (4%nat, 16); (2%nat, 1);
    (2%nat, numberOfChannels b); (4%nat, sampleRate b);
    (4%nat, sampleRate b * 2 * numberOfChannels b);
    (2%nat, numberOfChannels b * 2); (2%nat, 16);
    (4%nat, 0x61746164); (4%nat, n - 40 - 4) ].

Lemma setUint32_field (d : Z) (st : Wav.state) :
  Wav.setUint32 d st = writeField (4%nat, d) st.
Proof. reflexivity. Qed.

Lemma setUint16_field (d : Z) (st : Wav.state) :
  Wav.setUint16 d st = writeField (2%nat, d) st.
Proof. reflexivity. Qed.

Lemma writeHeader_fields (b : AudioBuffer) (n : Z) (v : list Z) (o : Z) :
  Wav.writeHeader b n {| Wav.view := v; Wav.pos := 0; Wav.offset := o |}
  = writeFields (headerFields b n) {| Wav.view := v; Wav.pos := 0; Wav.offset := o |}.
Proof.
  unfold Wav.writeHeader, headerFields. cbv zeta. cbn [writeFields].
  rewrite !setUint32_field, !setUint16_field.
  match goal with |- context [n - ?p - 4] => change p with 40 end.
  reflexivity.
Qed.

Lemma writeFields_seq (fs : list (nat * Z)) :
  forall (pre : list Z) (k : nat) (o : Z),
    writeFields fs
      {| Wav.view := pre ++ repeat 0 (List.length (fieldBytes fs) + k);
         Wav.pos := Z.of_nat (List.length pre); Wav.offset := o |}
    = {| Wav.view := (pre ++ fieldBytes fs) ++ repeat 0 k;
         Wav.pos := Z.of_nat (List.length (pre ++ fieldBytes fs));
         Wav.offset := o |}.
Proof.
  induction fs as [|f rest IH]; intros pre k o.
  - cbn. now rewrite !app_nil_r.
  - cbn [writeFields fieldBytes flat_map]. fold (fieldBytes rest).
    unfold writeField. cbn [Wav.view Wav.pos Wav.offset].
    rewrite length_app, <- Nat.add_assoc, store_zeros.
    replace (Z.of_nat (List.length pre) + Z.of_nat (fst f))
      with (Z.of_nat (List.length (pre ++ Wav.littleEndian (fst f) (snd f))))
      by (rewrite length_app, length_littleEndian; lia).
    rewrite app_assoc, IH. now rewrite <- !app_assoc.
Qed.

(** *** The data chunk *)

Definition channelIndexes (b : AudioBuffer) : list Z :=
  map Z.of_nat (seq 0 (Z.to_nat (numberOfChannels b))).

(** The bytes of frame [p]: its samples, channel after channel. *)
Definition frameBytes (b : AudioBuffer) (p : Z) : list Z :=
  flat_map (fun c => Wav.littleEndian 2 (Wav.convert (sampleAt b c p)))
           (channelIndexes b).

Lemma length_channelIndexes (b : AudioBuffer) :
  List.length (channelIndexes b) = List.length (channelData b).
Proof.
  unfold channelIndexes, numberOfChannels.
  now rewrite length_map, length_seq, Nat2Z.id.
Qed.

Lemma length_frameBytes (b : AudioBuffer) (p : Z) :
  List.length (frameBytes b p) = (2 * List.length (channelData b))%nat.
Proof.
  unfold frameBytes. rewrite <- length_channelIndexes.
  induction (channelIndexes b) as [|c l IH]; [reflexivity|].
  cbn [flat_map]. rewrite length_app, IH. cbn. lia.
Qed.

Lemma writeFrame_seq (b : AudioBuffer) (cs : list Z) :
  forall (pre : list Z) (k : nat) (p o : Z),
    44 + o = Z.of_nat (List.length pre) ->
    Wav.writeFrame b cs
      {| Wav.view := pre ++ repeat 0 (2 * List.length cs + k);
         Wav.pos := p; Wav.offset := o |}
    = {| Wav.view :=
           (pre ++ flat_map (fun c => Wav.littleEndian 2 (Wav.convert (sampleAt b c p))) cs)
             ++ repeat 0 k;
         Wav.pos := p; Wav.offset := o + 2 * Z.of_nat (List.length cs) |}.
Proof.
  induction cs as [|c rest IH]; intros pre k p o Ho.
  - cbn. rewrite app_nil_r, Z.add_0_r. reflexivity.
  - cbn [Wav.writeFrame Wav.view Wav.pos Wav.offset].
    rewrite Ho.
    replace (2 * List.length (c :: rest) + k)%nat
      with (List.length (Wav.littleEndian 2 (Wav.convert (sampleAt b c p)))
            + (2 * List.length rest + k))%nat
      by (rewrite length_littleEndian; cbn [List.length]; lia).
    rewrite store_zeros, app_assoc.
    rewrite IH by (rewrite length_app, length_littleEndian; lia).
    cbn [flat_map List.length]. rewrite <- !app_assoc. f_equal. lia.
Qed.

(** The frames [p], [p + 1], ..., [p + m - 1]. *)
Definition framesFrom (b : AudioBuffer) (p : Z) (m : nat) : list Z :=
  flat_map (fun j => frameBytes b (p + Z.of_nat j)) (seq 0 m).

Lemma framesFrom_S (b : AudioBuffer) (p : Z) (m : nat) :
  framesFrom b p (S m) = frameBytes b p ++ framesFrom b (p + 1) m.
Proof.
  unfold framesFrom. cbn [seq flat_map]. rewrite Z.add_0_r. f_equal.
  rewrite <- seq_shift, flat_map_concat_map, map_map, <- flat_map_concat_map.
  apply flat_map_ext. intros j. f_equal. lia.
Qed.

Lemma writeData_seq (b : AudioBuffer) (m : nat) :
  forall (fuel : nat) (pre : list Z) (k : nat) (p o : Z),
    (m <= fuel)%nat ->
    p + Z.of_nat m = Z.max p (length b) ->
    44 + o = Z.of_nat (List.length pre) ->
    Wav.view
      (Wav.writeData fuel b
         {| Wav.view := pre ++ repeat 0 (m * (2 * List.length (channelData b)) + k);
            Wav.pos := p; Wav.offset := o |})
    = (pre ++ framesFrom b p m) ++ repeat 0 k.
Proof.
  induction m as [|m IH]; intros fuel pre k p o Hfuel Hp Ho.
  - assert (Hstop : (p <? length b) = false) by (apply Z.ltb_ge; lia).
    destruct fuel; cbn [Wav.writeData Wav.pos]; [|rewrite Hstop];
      cbn; now rewrite app_nil_r.
  - destruct fuel as [|fuel]; [lia|].
    cbn [Wav.writeData Wav.pos].
    replace (p <? length b) with true by (symmetry; apply Z.ltb_lt; lia).
    fold (channelIndexes b).
    replace (S m * (2 * List.length (channelData b)) + k)%nat
      with (2 * List.length (channelIndexes b)
            + (m * (2 * List.length (channelData b)) + k))%nat.
    2:{ rewrite length_channelIndexes. lia. }
    rewrite writeFrame_seq by exact Ho.
    cbn [Wav.view Wav.pos Wav.offset]. fold (frameBytes b p).
    rewrite IH.
    + rewrite framesFrom_S, <- !app_assoc. reflexivity.
    + lia.
    + lia.
    + rewrite length_app, length_frameBytes, length_channelIndexes. lia.
Qed.

(** *** The whole file *)

(** The canonical 44-byte header of a 16-bit PCM file holding
    [dataBytes] bytes of samples. *)
Definition header (b : AudioBuffer) : list Z :=
  let dataBytes := length b * numberOfChannels b * 2 in
  [82; 73; 70; 70] ++ Wav.littleEndian 4 (dataBytes + 36)
    ++ [87; 65; 86; 69] ++ [102; 109; 116; 32] ++ [16; 0; 0; 0] ++ [1; 0]
    ++ Wav.littleEndian 2 (numberOfChannels b)
    ++ Wav.littleEndian 4 (sampleRate b)
    ++ Wav.littleEndian 4 (sampleRate b * 2 * numberOfChannels b)
    ++ Wav.littleEndian 2 (numberOfChannels b * 2)
    ++ [16; 0] ++ [100; 97; 116; 97] ++ Wav.littleEndian 4 dataBytes.

Lemma headerFields_bytes (b : AudioBuffer) :
  fieldBytes (headerFields b (length b * numberOfChannels b * 2 + 44)) = header b.
Proof.
  unfold fieldBytes, headerFields, header. cbn [flat_map fst snd].
  cbv zeta.
  replace (length b * numberOfChannels b * 2 + 44 - 8)
    with (length b * numberOfChannels b * 2 + 36) by lia.
  replace (length b * numberOfChannels b * 2 + 44 - 40 - 4)
    with (length b * numberOfChannels b * 2) by lia.
  rewrite app_nil_r. reflexivity.
Qed.

Lemma length_header (b : AudioBuffer) : List.length (header b) = 44%nat.
Proof. reflexivity. Qed.

(** X4.  The exported file, byte for byte: the canonical header (RIFF,
    sizes, WAVE, fmt with PCM, channel count, rate, byte rate, block
    align, 16 bits, data and its size), then the frames of the buffer from
    frame 44 on, interleaved and converted, then zeros up to the announced
    size (two bytes per sample).  Frames 0 to 43 are not in the file. *)
Theorem getWavBlob_layout (b : AudioBuffer) :
  0 <= length b ->
  Wav.getWavBlob (Some b)
  = Some (header b
          ++ framesFrom b 44 (Z.to_nat (length b) - 44)
          ++ repeat 0 (2 * List.length (channelData b)
                       * Nat.min (Z.to_nat (length b)) 44)).
Proof.
  intros Hlen. unfold Wav.getWavBlob. f_equal. cbv zeta.
  set (n := length b * numberOfChannels b * 2 + 44).
  set (c := List.length (channelData b)).
  set (L := Z.to_nat (length b)).
  set (m := (L - 44)%nat). set (K := (2 * c * Nat.min L 44)%nat).
  assert (Hsize : Z.to_nat n
                  = (List.length (fieldBytes (headerFields b n))
                     + (m * (2 * c) + K))%nat).
  { unfold n. rewrite headerFields_bytes, length_header.
    unfold numberOfChannels. fold c. unfold m, K, L. nia. }
  rewrite Hsize, writeHeader_fields.
  change (repeat 0 (List.length (fieldBytes (headerFields b n)) + (m * (2 * c) + K)))
    with ([] ++ repeat 0 (List.length (fieldBytes (headerFields b n))
                          + (m * (2 * c) + K))).
  change 0 with (Z.of_nat (List.length (@nil Z))) at 2.
  rewrite writeFields_seq. cbn [app].
  unfold n at 1 2. rewrite headerFields_bytes, length_header.
  unfold c. rewrite writeData_seq.
  - now rewrite <- app_assoc.
  - unfold m, L. lia.
  - unfold m, L. lia.
  - rewrite length_header. reflexivity.
Qed.

Lemma getWavBlob_layout_witness :
  Wav.getWavBlob (Some CodecFacts.steady)
  = Some (header CodecFacts.steady
          ++ framesFrom CodecFacts.steady 44 1
          ++ repeat 0 88).
Proof.
  apply (getWavBlob_layout CodecFacts.steady). cbn. lia.
Defined.

End ExportFacts.

(** ** Exporting what the decoder produced *)

Module ReexportFacts.

Import Audio.
Local Open Scope Z_scope.

Lemma toFloat_single (v : Z) :
  Pcm.toFloat [v] 0 = (v * 1 # 32768)%Q.
Proof. reflexivity. Qed.

Lemma clamp_decoded (v : Z) :
  -32768 < v <= 32767 -> Wav.clamp (v * 1 # 32768) = (v * 1 # 32768)%Q.
Proof.
  intros Hv. unfold Wav.clamp, Qmax, Qmin, GenericMinMax.gmax, GenericMinMax.gmin.
  assert (H1 : Qcompare 1 (v * 1 # 32768) = Gt).
  { unfold Qcompare. cbn [Qnum Qden]. apply Z.compare_gt_iff. lia. }
  rewrite H1.
  assert (H2 : Qcompare (-1) (v * 1 # 32768) = Lt).
  { unfold Qcompare. cbn [Qnum Qden]. apply Z.compare_lt_iff. lia. }
  now rewrite H2.
Qed.

Lemma toInt32_small (x : Q) :
  -32768 <= truncate x <= 32767 -> Wav.toInt32 x = truncate x.
Proof.
  intros H. unfold Wav.toInt32. rewrite Z.mod_small; lia.
Qed.

(** What the exporter stores for a sample the decoder produced from the
    16-bit value [v]. *)
Definition reexported (v : Z) : Z :=
  if v <? -16384 then v
  else if v <? 0 then v + 1
  else if v =? 0 then 0
  else v - 1.

(** X5.  Exporting a sample that the decoder produced from the 16-bit
    value [v] does not give [v] back, except for 0 and for values below
    -16384: a positive value comes out one less, a negative value down to
    -16384 one more (one step toward zero). *)
Theorem convert_decoded (v : Z) :
  -32768 <= v <= 32767 ->
  Wav.convert (Some (Pcm.toFloat [v] 0)) = reexported v.
Proof.
  intros Hv. rewrite toFloat_single.
  destruct (Z.eq_dec v (-32768)) as [->|Hne]; [reflexivity|].
  unfold Wav.convert. rewrite clamp_decoded by lia.
  unfold Wav.scale, reexported.
  destruct (Qlt_le_dec (0.5 + (v * 1 # 32768)) 0) as [Hneg|Hpos].
  - unfold Qlt, Qplus in Hneg. cbn [Qnum Qden] in Hneg.
    assert (Hlt : v < -16384) by lia.
    replace (v <? -16384) with true by (symmetry; apply Z.ltb_lt; lia).
    assert (Ht : truncate ((v * 1 # 32768) * 32768)%Q = v).
    { unfold truncate, Qmult. cbn [Qnum Qden].
      change (Z.pos (32768 * 1)) with 32768.
      rewrite Z.mul_1_r. apply Z.quot_mul. lia. }
    rewrite toInt32_small; rewrite Ht; lia.
  - unfold Qle, Qplus in Hpos. cbn [Qnum Qden] in Hpos.
    assert (Hge : -16384 <= v) by lia.
    replace (v <? -16384) with false by (symmetry; apply Z.ltb_ge; lia).
    assert (Ht : truncate ((v * 1 # 32768) * 32767)%Q
                 = if v <? 0 then v + 1 else if v =? 0 then 0 else v - 1).
    { unfold truncate, Qmult. cbn [Qnum Qden].
      change (Z.pos (32768 * 1)) with 32768. rewrite Z.mul_1_r.
      destruct (v <? 0) eqn:E1; [apply Z.ltb_lt in E1|apply Z.ltb_ge in E1].
      - Z.to_euclidean_division_equations. lia.
      - destruct (v =? 0) eqn:E2;
          [apply Z.eqb_eq in E2; subst v; reflexivity|apply Z.eqb_neq in E2].
        Z.to_euclidean_division_equations. lia. }
    rewrite toInt32_small; rewrite Ht;
      destruct (v <? 0) eqn:E1; try (apply Z.ltb_lt in E1);
      try (apply Z.ltb_ge in E1); try destruct (v =? 0); lia.
Qed.

Lemma convert_decoded_witness :
  Wav.convert (Some (Pcm.toFloat [16384] 0)) = 16383.
Proof. apply (convert_decoded 16384). lia. Defined.

End ReexportFacts.

(** ** More on the voice-over call *)

Module VoiceoverFacts.

Import Audio Synth.

(** *** Texts with nothing to say *)

Definition filler (c : N) : bool := Clean.isSpace c || Clean.isMarkdown c.

(** A text made only of white space, markdown markers, directions in
    square brackets and notes in parentheses. *)
Inductive silentText : jsstring -> Prop :=
| silent_nil : silentText []
| silent_filler c s : filler c = true -> silentText s -> silentText (c :: s)
| silent_direction body s :
    ~ In 93%N body -> silentText s -> silentText (91%N :: body ++ 93%N :: s)
| silent_note body s :
    ~ In 41%N body -> ~ In 91%N body -> silentText s ->
    silentText (40%N :: body ++ 41%N :: s).

(** The same without directions: what is left once they are removed. *)
Inductive notesOnly : jsstring -> Prop :=
| notes_nil : notesOnly []
| notes_filler c s : filler c = true -> notesOnly s -> notesOnly (c :: s)
| notes_note body s :
    ~ In 41%N body -> notesOnly s -> notesOnly (40%N :: body ++ 41%N :: s).

Lemma occurs_closing (c : N) (body rest : jsstring) :
  Clean.occurs c (body ++ c :: rest) = true.
Proof.
  unfold Clean.occurs. rewrite existsb_app. cbn [existsb].
  rewrite N.eqb_refl. cbn. apply orb_true_r.
Qed.

Lemma stripSpanFrom_inside (o c : N) (body rest : jsstring) :
  ~ In c body ->
  Clean.stripSpanFrom o c true (body ++ c :: rest) = Clean.stripSpanFrom o c false rest.
Proof.
  induction body as [|a body IH]; intros Hc; cbn [app Clean.stripSpanFrom].
  - now rewrite N.eqb_refl.
  - destruct (N.eqb_spec a c) as [->|_].
    + exfalso. apply Hc. now left.
    + apply IH. intros Hin. apply Hc. now right.
Qed.

Lemma stripSpanFrom_outside (o c : N) (body rest : jsstring) :
  ~ In o body ->
  Clean.stripSpanFrom o c false (body ++ rest)
  = body ++ Clean.stripSpanFrom o c false rest.
Proof.
  induction body as [|a body IH]; intros Ho; [reflexivity|].
  cbn [app Clean.stripSpanFrom].
  destruct (N.eqb_spec a o) as [->|_].
  - exfalso. apply Ho. now left.
  - cbn [andb]. f_equal. apply IH. intros Hin. apply Ho. now right.
Qed.

Lemma filler_not (c o : N) : filler o = false -> filler c = true -> (c =? o)%N = false.
Proof.
  intros Ho Hc. destruct (N.eqb_spec c o) as [->|_]; [congruence|reflexivity].
Qed.

Lemma stripBrackets_silent (s : jsstring) :
  silentText s -> notesOnly (Clean.stripBrackets s).
Proof.
  unfold Clean.stripBrackets, Clean.stripSpan.
  induction 1 as [|c s Hc _ IH|body s Hb _ IH|body s Hb Ho _ IH].
  - constructor.
  - cbn [Clean.stripSpanFrom].
    rewrite (filler_not c 91 eq_refl Hc). cbn [andb]. now constructor.
  - cbn [Clean.stripSpanFrom]. rewrite N.eqb_refl, occurs_closing. cbn [andb].
    now rewrite stripSpanFrom_inside.
  - cbn [Clean.stripSpanFrom].
    change (40 =? 91)%N with false. cbn [andb].
    rewrite stripSpanFrom_outside by exact Ho.
    cbn [Clean.stripSpanFrom]. change (41 =? 91)%N with false. cbn [andb].
    now constructor.
Qed.

Lemma stripParens_notes (s : jsstring) :
  notesOnly s -> Forall (fun c => filler c = true) (Clean.stripParens s).
Proof.
  unfold Clean.stripParens, Clean.stripSpan.
  induction 1 as [|c s Hc _ IH|body s Hb _ IH].
  - constructor.
  - cbn [Clean.stripSpanFrom].
    rewrite (filler_not c 40 eq_refl Hc). cbn [andb]. now constructor.
  - cbn [Clean.stripSpanFrom]. rewrite N.eqb_refl, occurs_closing. cbn [andb].
    now rewrite stripSpanFrom_inside.
Qed.

Lemma stripMarkdown_filler (s : jsstring) :
  Forall (fun c => filler c = true) s ->
  Forall (fun c => Clean.isSpace c = true) (Clean.stripMarkdown s).
Proof.
  unfold Clean.stripMarkdown.
  induction 1 as [|c s Hc _ IH]; [constructor|].
  cbn [filter]. destruct (Clean.isMarkdown c) eqn:E; cbn [negb]; [exact IH|].
  constructor; [|exact IH]. unfold filler in Hc. now rewrite E, orb_false_r in Hc.
Qed.

Lemma trim_spaces (s : jsstring) :
  Forall (fun c => Clean.isSpace c = true) s -> Clean.trim s = [].
Proof.
  unfold Clean.trim. induction 1 as [|c s Hc _ IH]; [reflexivity|].
  cbn [Clean.trimStart]. now rewrite Hc.
Qed.

Lemma cleanText_silent (text : jsstring) :
  silentText text -> Clean.cleanText text = [].
Proof.
  intros H. unfold Clean.cleanText.
  rewrite trim_spaces; [reflexivity|].
  now apply stripMarkdown_filler, stripParens_notes, stripBrackets_silent.
Qed.

(** *** The events of a call *)

(** What a failed attempt leaves in the trace: the request, then the wait
    of 800 ms. *)
Definition failedRound (r : Request) : list event := [Requested r; Slept 800].

Section WithRemote.

Variable Remote : Type.
Variable generateContent : Remote -> Request -> Remote * result Response.
Variable atob : jsstring -> result jsstring.

Lemma tryPrompts_trace (voice : jsstring) (prompts : list jsstring) :
  forall (last : option jsError) (w : world Remote),
    let run := tryPrompts generateContent atob voice prompts last w in
    match snd run with
    | Ok _ =>
        exists k p, nth_error prompts k = Some p /\
          trace (fst run)
          = trace w
            ++ flat_map failedRound
                 (map (SynthFacts.requestFor voice) (firstn k prompts))
            ++ [Requested (SynthFacts.requestFor voice p)]
    | Throw _ =>
        trace (fst run)
        = trace w ++ flat_map failedRound (map (SynthFacts.requestFor voice) prompts)
    end.
Proof.
  induction prompts as [|p rest IH]; intros last w.
  - cbn. now rewrite app_nil_r.
  - cbn [tryPrompts]. rewrite SynthFacts.attempt_answer.
    destruct (snd (SynthFacts.answer Remote generateContent atob (remote w)
                     (SynthFacts.requestFor voice p))) as [a|e].
    + cbn [fst snd trace]. exists 0%nat, p. split; reflexivity.
    + set (w1 := emit (Slept 800) _).
      specialize (IH (Some e) w1). cbv zeta in IH.
      assert (Hw1 : trace w1 = trace w ++ failedRound (SynthFacts.requestFor voice p)).
      { unfold w1, emit, failedRound. cbn [trace].
        now rewrite <- app_assoc. }
      destruct (snd (tryPrompts generateContent atob voice rest (Some e) w1)).
      * destruct IH as (k & q & Hq & Ht). exists (S k), q. split; [exact Hq|].
        rewrite Ht, Hw1. cbn [firstn map flat_map]. now rewrite <- !app_assoc.
      * rewrite IH, Hw1. cbn [map flat_map]. now rewrite <- !app_assoc.
Qed.

(** Audio that comes out of the loop was read from a response. *)
Lemma tryPrompts_ok (voice : jsstring) (prompts : list jsstring) (b : AudioBuffer) :
  forall (last : option jsError) (w : world Remote),
    snd (tryPrompts generateContent atob voice prompts last w) = Ok b ->
    exists response, readResponse atob response = Ok b.
Proof.
  induction prompts as [|p rest IH]; intros last w H.
  - discriminate.
  - cbn [tryPrompts] in H. unfold attempt in H.
    destruct (generateContent (remote w) _) as [r' [response|e]].
    + destruct (readResponse atob response) as [a|e] eqn:E.
      * cbn [snd] in H. exists response. now rewrite E.
      * now apply IH in H.
    + now apply IH in H.
Qed.

Lemma readResponse_ok (response : Response) (b : AudioBuffer) :
  readResponse atob response = Ok b ->
  exists bytes, Forall DecoderFacts.isByte bytes /\
                Pcm.decodeAudioData bytes 24000 1 = Ok b.
Proof.
  unfold readResponse.
  destruct (candidates response) as [[|candidate cs]|]; try discriminate.
  destruct (negb (isStop (finishReason candidate)) && noContent candidate);
    [discriminate|].
  destruct (find hasAudio _) as [[[[[base64Audio|]]|]]|]; try discriminate.
  unfold decode. destruct (atob base64Audio) as [binaryString|e]; [|discriminate].
  intros H. eexists. split; [|exact H].
  apply Forall_forall. intros x Hx. apply in_map_iff in Hx.
  destruct Hx as (c & <- & _). unfold DecoderFacts.isByte.
  apply Z.mod_pos_bound. reflexivity.
Qed.

End WithRemote.

Lemma createBuffer_inv (nChannels rate : Z) (len : Q) (b : AudioBuffer) :
  createBuffer nChannels len rate = Ok b ->
  (1 <= nChannels <= maxChannels)%Z /\ (1 <= length b)%Z /\
  (minSampleRate <= rate <= maxSampleRate)%Z /\ sampleRate b = rate.
Proof.
  unfold createBuffer.
  destruct (nChannels <? 1)%Z eqn:E1; [discriminate|].
  destruct (maxChannels <? nChannels)%Z eqn:E2; [discriminate|].
  destruct (truncate len <? 1)%Z eqn:E3; [discriminate|].
  destruct (rate <? minSampleRate)%Z eqn:E4; [discriminate|].
  destruct (maxSampleRate <? rate)%Z eqn:E5; [discriminate|].
  cbn [orb]. intros H. injection H as <-. cbn [length sampleRate].
  apply Z.ltb_ge in E1, E2, E3, E4, E5. lia.
Qed.

Lemma decodeAudioData_shape (data : list Z) (rate ch : Z) (b : AudioBuffer) :
  Pcm.decodeAudioData data rate ch = Ok b ->
  numberOfChannels b = ch /\ sampleRate b = rate /\ wellFormed b.
Proof.
  unfold Pcm.decodeAudioData, Pcm.Int16Array.
  destruct (Nat.even (List.length data)); [|discriminate].
  destruct (createBuffer ch _ rate) as [buffer|e] eqn:E; [|discriminate].
  apply createBuffer_inv in E. destruct E as (Hc & Hl & Hr & Hs).
  intros H. injection H as <-.
  assert (Hn : numberOfChannels
            {| sampleRate := sampleRate buffer; length := length buffer;
               channelData :=
                 map (fun channel : nat =>
                        Pcm.fillChannel (Pcm.int16Elements data) ch (length buffer)
                          (Z.of_nat channel)) (seq 0 (Z.to_nat ch)) |} = ch).
  { unfold numberOfChannels. cbn [channelData].
    rewrite length_map, length_seq. lia. }
  split; [exact Hn|]. split; [exact Hs|].
  unfold wellFormed. rewrite Hn. cbn [length sampleRate channelData].
  rewrite Hs. repeat split; try lia.
  apply Forall_forall. intros chd Hin. apply in_map_iff in Hin.
  destruct Hin as (c & <- & _). unfold Pcm.fillChannel.
  rewrite length_map, length_seq. lia.
Qed.

Lemma decodeAudioData_samples (data : list Z) (rate ch : Z) (b : AudioBuffer) :
  Forall DecoderFacts.isByte data ->
  Pcm.decodeAudioData data rate ch = Ok b ->
  Forall (Forall (fun x => -(1) <= x /\ x < 1)%Q) (channelData b).
Proof.
  intros Hbytes. unfold Pcm.decodeAudioData, Pcm.Int16Array.
  destruct (Nat.even (List.length data)); [|discriminate].
  destruct (createBuffer ch _ rate) as [buffer|e]; [|discriminate].
  intros H. injection H as <-. cbn [channelData].
  apply Forall_forall. intros chd Hin. apply in_map_iff in Hin.
  destruct Hin as (c & <- & _). unfold Pcm.fillChannel.
  apply Forall_forall. intros x Hx. apply in_map_iff in Hx.
  destruct Hx as (i & <- & _).
  apply DecoderFacts.toFloat_range. now apply DecoderFacts.int16Elements_range.
Qed.

(** X6.  A text made only of white space, markdown markers, directions in
    square brackets and notes in parentheses is never sent: the call fails
    before any request, leaving the world as it was, with the message of
    the missing key when there is no key and of the empty text otherwise. *)
Theorem generateVoiceover_nothing_to_say
        (Remote : Type) generateContent atob (key : option jsstring)
        (text : jsstring) (config : VoiceConfig) (w : world Remote) :
  silentText text ->
  generateVoiceover generateContent atob key text config w
  = (w, Throw (newError
                 match key with
                 | Some (_ :: _) => js "Text segment is empty after cleaning."
                 | _ => js "API Key not found in environment variables"
                 end)).
Proof.
  intros H. unfold generateVoiceover.
  destruct key as [[|k key]|]; cbn [getClient]; try reflexivity.
  now rewrite (cleanText_silent text H).
Qed.

Lemma generateVoiceover_nothing_to_say_witness :
  generateVoiceover (SynthFacts.flaky 0) Base64.atob SynthFacts.apiKey
    (js "[Close up (slow)] (she whispers) **" ++ [10%N]) SynthFacts.defaultConfig
    SynthFacts.start
  = (SynthFacts.start,
     Throw (newError (js "Text segment is empty after cleaning."))).
Proof.
  apply (generateVoiceover_nothing_to_say nat (SynthFacts.flaky 0) Base64.atob
           SynthFacts.apiKey).
  apply (silent_direction (js "Close up (slow)")).
  { cbn. intuition discriminate. }
  apply silent_filler; [reflexivity|].
  apply (silent_note (js "she whispers")).
  { cbn. intuition discriminate. }
  { cbn. intuition discriminate. }
  repeat (apply silent_filler; [reflexivity|]).
  apply silent_nil.
Defined.

(** X7.  The events of a call, in order.  Every failed attempt is a
    request followed by a wait of 800 ms.  A call that returns audio has
    issued the failed attempts before it and then the request that
    succeeded, with no wait after it.  A call that fails has either done
    nothing (no key, or nothing to say) or gone through the three attempts
    and waited after each, the last one included. *)
Theorem generateVoiceover_events
        (Remote : Type) generateContent atob (key : option jsstring)
        (text : jsstring) (config : VoiceConfig) (w : world Remote) :
  let reqs := SynthFacts.variants config (Clean.cleanText text) in
  let run := generateVoiceover generateContent atob key text config w in
  match snd run with
  | Ok _ =>
      exists k r, nth_error reqs k = Some r /\
        trace (fst run)
        = trace w ++ flat_map failedRound (firstn k reqs) ++ [Requested r]
  | Throw _ =>
      fst run = w \/
      trace (fst run) = trace w ++ flat_map failedRound reqs
  end.
Proof.
  intros reqs run. unfold run, generateVoiceover.
  destruct (getClient key) as [[]|e]; [|now left].
  destruct (Clean.cleanText text) as [|c0 cl] eqn:Ec; [now left|].
  pose proof (tryPrompts_trace Remote generateContent atob (voiceFor config)
                (prompts config (c0 :: cl)) None w) as H.
  cbv zeta in H.
  destruct (snd (tryPrompts generateContent atob (voiceFor config)
                   (prompts config (c0 :: cl)) None w)).
  - destruct H as (k & p & Hp & Ht).
    exists k, (SynthFacts.requestFor (voiceFor config) p). split.
    + unfold reqs, SynthFacts.variants. rewrite ?Ec.
      change [SynthFacts.styled config (c0 :: cl); SynthFacts.neutral (c0 :: cl);
              c0 :: cl] with (prompts config (c0 :: cl)).
      now rewrite nth_error_map, Hp.
    + rewrite Ht. unfold reqs, SynthFacts.variants. rewrite ?Ec.
      now rewrite firstn_map.
  - right. rewrite H. unfold reqs, SynthFacts.variants. now rewrite ?Ec.
Qed.

(** X8.  Audio returned by a call is what the decoder made of the bytes of
    a response: one channel at 24000 Hz, at least one frame, every channel
    as long as the buffer says, every sample at least -1 and below 1. *)
Theorem generateVoiceover_audio
        (Remote : Type) generateContent atob (key : option jsstring)
        (text : jsstring) (config : VoiceConfig) (w : world Remote)
        (b : AudioBuffer) :
  snd (generateVoiceover generateContent atob key text config w) = Ok b ->
  numberOfChannels b = 1%Z /\ sampleRate b = 24000%Z /\ wellFormed b /\
  Forall (Forall (fun x => -(1) <= x /\ x < 1)%Q) (channelData b).
Proof.
  unfold generateVoiceover.
  destruct (getClient key) as [[]|e]; [|discriminate].
  destruct (Clean.cleanText text) as [|c0 cl]; [discriminate|].
  intros H. apply tryPrompts_ok in H. destruct H as (response & H).
  apply readResponse_ok in H. destruct H as (bytes & Hbytes & H).
  destruct (decodeAudioData_shape _ _ _ _ H) as (Hc & Hr & Hw).
  split; [exact Hc|]. split; [exact Hr|]. split; [exact Hw|].
  now apply (decodeAudioData_samples bytes 24000 1).
Qed.

Lemma generateVoiceover_audio_witness :
  snd (generateVoiceover (SynthFacts.flaky 1) Base64.atob SynthFacts.apiKey
         (js "Hi there!") SynthFacts.defaultConfig SynthFacts.start)
  = Ok SynthFacts.twoFrames /\
  numberOfChannels SynthFacts.twoFrames = 1%Z /\
  sampleRate SynthFacts.twoFrames = 24000%Z /\ wellFormed SynthFacts.twoFrames /\
  Forall (Forall (fun x => -(1) <= x /\ x < 1)%Q) (channelData SynthFacts.twoFrames).
Proof.
  split; [reflexivity|].
  apply (generateVoiceover_audio nat (SynthFacts.flaky 1) Base64.atob
           SynthFacts.apiKey (js "Hi there!") SynthFacts.defaultConfig
           SynthFacts.start).
  reflexivity.
Defined.

End VoiceoverFacts.

(** ** Segmentation of the script *)

Module SegmentFacts.

Import Audio Batch.

(** A script written line by line: every line of [ls] ended by a line
    feed, then a last line without one. *)
Definition unlines (ls : list jsstring) : jsstring :=
  List.concat (map (fun l => l ++ [10%N]) ls).

Definition oneLine (l : jsstring) : Prop := ~ In 10%N l.

Lemma nonBlank_nil : nonBlank [] = false.
Proof. reflexivity. Qed.

(** A stretch without line feed goes to the piece being read. *)
Lemma splitFrom_run (l : jsstring) :
  forall (b : bool) (cur rest : jsstring),
    oneLine l -> l <> [] ->
    splitFrom b cur (l ++ rest) = splitFrom false (cur ++ l) rest.
Proof.
  induction l as [|a l IH]; intros b cur rest Hl Hne; [contradiction|].
  cbn [app splitFrom].
  destruct (N.eqb_spec a 10) as [->|_].
  - exfalso. apply Hl. now left.
  - destruct l as [|a' l'].
    + reflexivity.
    + rewrite IH.
      * now rewrite <- app_assoc.
      * intros Hin. apply Hl. now right.
      * discriminate.
Qed.

Lemma splitFrom_last (b : bool) (l : jsstring) :
  oneLine l -> filter nonBlank (splitFrom b [] l) = filter nonBlank [l].
Proof.
  intros Hl. destruct l as [|a l]; [reflexivity|].
  rewrite <- (app_nil_r (a :: l)) at 1.
  rewrite splitFrom_run by (assumption || discriminate). reflexivity.
Qed.

Lemma splitFrom_line (b : bool) (l rest : jsstring) :
  oneLine l ->
  filter nonBlank (splitFrom b [] (l ++ 10%N :: rest))
  = filter nonBlank (l :: splitFrom true [] rest).
Proof.
  intros Hl. destruct l as [|a l].
  - cbn [app splitFrom]. change (10 =? 10)%N with true.
    destruct b; cbn [filter]; now rewrite ?nonBlank_nil.
  - rewrite splitFrom_run by (assumption || discriminate).
    cbn [app splitFrom]. change (10 =? 10)%N with true. reflexivity.
Qed.

Lemma splitFrom_lines (ls : list jsstring) (l : jsstring) :
  forall b, Forall oneLine ls -> oneLine l ->
  filter nonBlank (splitFrom b [] (unlines ls ++ l)) = filter nonBlank (ls ++ [l]).
Proof.
  induction ls as [|l0 ls IH]; intros b Hls Hl.
  - now apply splitFrom_last.
  - inversion Hls as [|? ? H0 Hrest]; subst.
    unfold unlines. cbn [map List.concat]. fold (unlines ls).
    rewrite <- !app_assoc. cbn [app].
    rewrite splitFrom_line by assumption.
    cbn [filter app]. rewrite (IH true Hrest Hl). reflexivity.
Qed.

(** Every script is written line by line, in one way. *)
Lemma lines_of (script : jsstring) :
  exists ls l, Forall oneLine ls /\ oneLine l /\ script = unlines ls ++ l.
Proof.
  induction script as [|a s (ls & l & Hls & Hl & ->)].
  - exists [], []. repeat split; [constructor|intros []].
  - destruct (N.eqb_spec a 10) as [->|Ha].
    + exists ([] :: ls), l. split; [|split; [exact Hl|reflexivity]].
      constructor; [intros []|exact Hls].
    + destruct ls as [|l0 ls].
      * exists [], (a :: l). split; [constructor|]. split; [|reflexivity].
        intros [H|H]; [congruence|now apply Hl].
      * inversion Hls as [|? ? H0 Hrest]; subst.
        exists ((a :: l0) :: ls), l. split; [|split; [exact Hl|reflexivity]].
        constructor; [|exact Hrest].
        intros [H|H]; [congruence|now apply H0].
Qed.

(** *** Blank lines *)

Lemma trimStart_nil (s : jsstring) :
  Clean.trimStart s = [] <-> Forall (fun c => Clean.isSpace c = true) s.
Proof.
  induction s as [|a s IH]; [split; [constructor|reflexivity]|].
  cbn [Clean.trimStart]. destruct (Clean.isSpace a) eqn:E.
  - rewrite IH. split; [now constructor|now inversion 1].
  - split; [discriminate|]. inversion 1; congruence.
Qed.

Lemma trimEnd_nil (s : jsstring) :
  Clean.trimEnd s = [] -> Forall (fun c => Clean.isSpace c = true) s.
Proof.
  induction s as [|a s IH]; [constructor|].
  cbn [Clean.trimEnd]. destruct (Clean.trimEnd s) as [|r rs]; [|discriminate].
  destruct (Clean.isSpace a) eqn:E; [|discriminate].
  intros _. constructor; [exact E|now apply IH].
Qed.

Lemma trimStart_spaces (s : jsstring) :
  Forall (fun c => Clean.isSpace c = true) (Clean.trimStart s) ->
  Forall (fun c => Clean.isSpace c = true) s.
Proof.
  induction s as [|a s IH]; [constructor|].
  cbn [Clean.trimStart]. destruct (Clean.isSpace a) eqn:E; [|trivial].
  intros H. constructor; [exact E|now apply IH].
Qed.

Lemma nonBlank_false (s : jsstring) :
  nonBlank s = false <-> Forall (fun c => Clean.isSpace c = true) s.
Proof.
  unfold nonBlank, Clean.trim. split.
  - destruct (Clean.trimEnd (Clean.trimStart s)) eqn:E; [|discriminate].
    intros _. now apply trimStart_spaces, trimEnd_nil.
  - intros H. apply trimStart_nil in H. now rewrite H.
Qed.

Lemma filter_nonBlank_nil (ls : list jsstring) :
  filter nonBlank ls = [] <->
  Forall (Forall (fun c => Clean.isSpace c = true)) ls.
Proof.
  induction ls as [|l ls IH]; [split; [constructor|reflexivity]|].
  cbn [filter]. destruct (nonBlank l) eqn:E.
  - split; [discriminate|]. inversion 1 as [|? ? Hl _]; subst.
    apply nonBlank_false in Hl. congruence.
  - rewrite IH. apply nonBlank_false in E.
    split; [now constructor|now inversion 1].
Qed.

Lemma spaces_unlines (ls : list jsstring) (l : jsstring) :
  Forall (fun c => Clean.isSpace c = true) (unlines ls ++ l) <->
  Forall (Forall (fun c => Clean.isSpace c = true)) (ls ++ [l]).
Proof.
  induction ls as [|l0 ls IH].
  - cbn. split; [now repeat constructor|now inversion 1].
  - unfold unlines. cbn [map List.concat app]. fold (unlines ls).
    rewrite <- !app_assoc. rewrite Forall_app. cbn [app].
    rewrite Forall_cons_iff, IH, Forall_cons_iff. intuition.
Qed.

Lemma rawSegments_blank (script : jsstring) :
  rawSegments script = [] <-> Forall (fun c => Clean.isSpace c = true) script.
Proof.
  destruct (lines_of script) as (ls & l & Hls & Hl & ->).
  unfold rawSegments, splitLines.
  rewrite splitFrom_lines by assumption.
  now rewrite filter_nonBlank_nil, spaces_unlines.
Qed.

(** X9.  The segments of a script are its lines that hold something other
    than white space, in order, however many line feeds lie between them
    and whether or not the last line is ended by one. *)
Theorem rawSegments_lines (ls : list jsstring) (l : jsstring) :
  Forall oneLine ls -> oneLine l ->
  rawSegments (unlines ls ++ l) = filter nonBlank (ls ++ [l]).
Proof.
  intros Hls Hl. unfold rawSegments, splitLines.
  now apply splitFrom_lines.
Qed.

Lemma rawSegments_lines_witness :
  rawSegments (js "Once upon a time" ++ [10; 10; 32; 9; 10]%N ++ js "The end" ++ [10%N])
  = [js "Once upon a time"; js "The end"].
Proof.
  apply (rawSegments_lines [js "Once upon a time"; []; [32; 9]%N; js "The end"] []).
  - repeat constructor; unfold oneLine; cbn; intuition discriminate.
  - intros [].
Defined.

End SegmentFacts.

(** ** More on the batch driver *)

Module DriverFacts.

Import Audio Batch.

Lemma text_finalSegment (seg : VoiceSegment) (r : result AudioBuffer) :
  text (BatchFacts.finalSegment seg r) = text seg.
Proof. now destruct r. Qed.

Lemma text_zipFinal (segs : list VoiceSegment) :
  forall rs, List.length rs = List.length segs ->
             map text (BatchFacts.zipFinal segs rs) = map text segs.
Proof.
  unfold BatchFacts.zipFinal.
  induction segs as [|seg segs IH]; intros [|r rs] Hl; try discriminate;
    [reflexivity|].
  cbn [combine map fst snd]. rewrite text_finalSegment. f_equal.
  apply IH. now injection Hl.
Qed.

Section WithRemote.

Variable Remote : Type.
Variable generateContent :
  Remote -> Synth.Request -> Remote * result Synth.Response.
Variable atob : jsstring -> result jsstring.
Variable dateNow : nat -> Z.

Local Abbreviation world := (Synth.world Remote).

(** The loop writes neither the error message nor the video. *)
Lemma step_frame key config (i : nat) (seg : VoiceSegment) (w : world)
      (st : AppState) :
  let out := step generateContent atob key config i seg (w, st) in
  errorMessage (snd out) = errorMessage st /\
  activeVideoUrl (snd out) = activeVideoUrl st.
Proof.
  unfold step.
  destruct (Synth.generateVoiceover _ _ _ _ _ _) as [w1 [b|e]];
    [destruct (i =? 0)%nat|]; now split.
Qed.

Lemma loop_frame key config (pending : list VoiceSegment) :
  forall (i : nat) (w : world) (st : AppState),
    let out := loop generateContent atob key config i pending (w, st) in
    errorMessage (snd out) = errorMessage st /\
    activeVideoUrl (snd out) = activeVideoUrl st.
Proof.
  induction pending as [|seg rest IH]; intros i w st; [now split|].
  cbn [loop]. destruct (step_frame key config i seg w st) as [He Hv].
  destruct (step generateContent atob key config i seg (w, st)) as [w1 st1].
  destruct (IH (S i) w1 st1) as [He' Hv']. cbn [snd] in *.
  split; congruence.
Qed.

(** The state a run over a script with segments ends in, field by field. *)
Lemma handleGenerateScenes_fields key script config (w : world) (st : AppState) :
  rawSegments script <> [] ->
  let segs := mapIndexed dateNow 0 (rawSegments script) in
  let all := BatchFacts.synthAll Remote generateContent atob key config
               (map text segs) w in
  handleGenerateScenes generateContent atob dateNow key script config (w, st)
  = (fst all,
     {| isGenerating := false; errorMessage := None;
        displayedAudio := match snd all with Ok b :: _ => Some b | _ => None end;
        activeVideoUrl := None;
        segments := BatchFacts.zipFinal segs (snd all) |}).
Proof.
  intros Hne segs all. unfold handleGenerateScenes.
  destruct (rawSegments script) as [|t raw] eqn:Hraw; [contradiction|].
  fold segs.
  set (st0 := {| isGenerating := true; errorMessage := None;
                 displayedAudio := None; activeVideoUrl := None;
                 segments := segs |}).
  destruct (BatchFacts.loop_spec Remote generateContent atob key config segs
              0 [] w st0) as (Hw & Hsegs & Hdisp & _).
  { reflexivity. }
  { constructor. }
  { intros j seg Hj. apply (BatchFacts.mapIndexed_index _ _ _ _ _ Hj). }
  destruct (loop_frame key config segs 0 w st0) as [He Hv].
  fold all in Hw, Hsegs, Hdisp.
  match goal with
  | |- context [loop generateContent atob key config 0 ?l ?x] =>
      change (loop generateContent atob key config 0 l x)
        with (loop generateContent atob key config 0 segs (w, st0))
  end.
  destruct (loop generateContent atob key config 0 segs (w, st0)) as [w' st'].
  cbn [fst snd app] in *. subst w'.
  unfold setIsGenerating. rewrite He, Hv, Hdisp, Hsegs. reflexivity.
Qed.

(** Without a key every call fails at once. *)
Lemma synthAll_without_key config (texts : list jsstring) (w : world) :
  forall key, key = None \/ key = Some [] ->
  BatchFacts.synthAll Remote generateContent atob key config texts w
  = (w, map (fun _ => Throw (newError
                               (js "API Key not found in environment variables")))
            texts).
Proof.
  intros key Hk. induction texts as [|t rest IH]; [reflexivity|].
  cbn [BatchFacts.synthAll map].
  assert (Hcall : Synth.generateVoiceover generateContent atob key t config w
                  = (w, Throw (newError
                                 (js "API Key not found in environment variables")))).
  { destruct Hk as [-> | ->]; reflexivity. }
  rewrite Hcall, IH. reflexivity.
Qed.

(** The requests of a batch, segment by segment. *)
Definition groups (config : VoiceConfig) (ks : list nat) (texts : list jsstring)
  : list Synth.Request :=
  List.concat
    (map (fun p => firstn (fst p)
                     (SynthFacts.variants config (Clean.cleanText (snd p))))
         (combine ks texts)).

Lemma generateVoiceover_requests key text config (w : world) :
  exists k, (k <= 3)%nat /\
    SynthFacts.requests
      (Synth.trace (fst (Synth.generateVoiceover generateContent atob key text
                           config w)))
    = SynthFacts.requests (Synth.trace w)
      ++ firstn k (SynthFacts.variants config (Clean.cleanText text)).
Proof.
  unfold Synth.generateVoiceover.
  destruct (Synth.getClient key) as [[]|e].
  - destruct (Clean.cleanText text) as [|c0 cl] eqn:Ec.
    + exists 0%nat. cbn. split; [lia|]. now rewrite app_nil_r.
    + apply (SynthFacts.tryPrompts_requests Remote generateContent atob
               (Synth.voiceFor config) (Synth.prompts config (c0 :: cl)) None w).
  - exists 0%nat. cbn. split; [lia|]. now rewrite app_nil_r.
Qed.

Lemma synthAll_requests key config (texts : list jsstring) :
  forall (w : world),
  exists ks, List.length ks = List.length texts /\
    Forall (fun k => (k <= 3)%nat) ks /\
    SynthFacts.requests
      (Synth.trace (fst (BatchFacts.synthAll Remote generateContent atob key
                           config texts w)))
    = SynthFacts.requests (Synth.trace w) ++ groups config ks texts.
Proof.
  induction texts as [|t rest IH]; intros w.
  - exists []. cbn. repeat split; [constructor|now rewrite app_nil_r].
  - cbn [BatchFacts.synthAll].
    destruct (generateVoiceover_requests key t config w) as (k & Hk & Hreq).
    destruct (Synth.generateVoiceover generateContent atob key t config w)
      as [w1 r].
    destruct (IH w1) as (ks & Hlen & Hks & Hreqs).
    destruct (BatchFacts.synthAll Remote generateContent atob key config rest w1)
      as [w2 rs].
    cbn [fst] in *. exists (k :: ks). split; [cbn; now rewrite Hlen|].
    split; [now constructor|].
    rewrite Hreqs, Hreq. unfold groups. cbn [combine map List.concat fst snd].
    now rewrite <- app_assoc.
Qed.

(** X10.  The driver reports an empty script exactly when the script holds
    nothing but white space: it then issues no request, clears the
    displayed audio and the video, keeps the segments of the run before
    and sets the message.  Otherwise no message is set, whatever becomes
    of the segments, and the segments carry the trimmed lines. *)
Theorem handleGenerateScenes_empty_script (key : option jsstring)
        (script : jsstring) (config : VoiceConfig) (w : world) (st : AppState) :
  let out := handleGenerateScenes generateContent atob dateNow key script config
               (w, st) in
  if forallb Clean.isSpace script
  then out = (w, {| isGenerating := false;
                    errorMessage := Some (js "Script is empty!");
                    displayedAudio := None; activeVideoUrl := None;
                    segments := segments st |})
  else errorMessage (snd out) = None /\ isGenerating (snd out) = false /\
       segments (snd out) <> [] /\
       map text (segments (snd out)) = map Clean.trim (rawSegments script).
Proof.
  intros out. destruct (forallb Clean.isSpace script) eqn:E.
  - assert (Hraw : rawSegments script = []).
    { apply SegmentFacts.rawSegments_blank, Forall_forall.
      rewrite forallb_forall in E. exact E. }
    unfold out, handleGenerateScenes. now rewrite Hraw.
  - assert (Hraw : rawSegments script <> []).
    { intros H. apply SegmentFacts.rawSegments_blank in H.
      rewrite Forall_forall in H. apply forallb_forall in H. congruence. }
    unfold out. rewrite (handleGenerateScenes_fields key script config w st Hraw).
    cbn [snd errorMessage isGenerating segments].
    assert (Hlen : List.length
                     (snd (BatchFacts.synthAll Remote generateContent atob key
                             config
                             (map text (mapIndexed dateNow 0 (rawSegments script)))
                             w))
                   = List.length (mapIndexed dateNow 0 (rawSegments script))).
    { now rewrite BatchFacts.synthAll_length, length_map. }
    split; [reflexivity|]. split; [reflexivity|]. split.
    + intros H. apply (f_equal (map text)) in H.
      rewrite (text_zipFinal _ _ Hlen), BatchFacts.mapIndexed_text in H.
      destruct (rawSegments script); [contradiction|discriminate].
    + now rewrite (text_zipFinal _ _ Hlen), BatchFacts.mapIndexed_text.
Qed.

(** X11.  Without a key (none, or an empty one) a script with segments
    issues no request at all: every segment ends in [error] without audio,
    nothing is displayed, and no error message is set. *)
Theorem handleGenerateScenes_without_key (key : option jsstring)
        (script : jsstring) (config : VoiceConfig) (w : world) (st : AppState) :
  key = None \/ key = Some [] ->
  rawSegments script <> [] ->
  handleGenerateScenes generateContent atob dateNow key script config (w, st)
  = (w, {| isGenerating := false; errorMessage := None;
           displayedAudio := None; activeVideoUrl := None;
           segments := map (withStatus error)
                           (mapIndexed dateNow 0 (rawSegments script)) |}).
Proof.
  intros Hk Hraw.
  rewrite (handleGenerateScenes_fields key script config w st Hraw).
  rewrite (synthAll_without_key config _ w key Hk). cbn [fst snd].
  generalize (mapIndexed dateNow 0 (rawSegments script)) as segs.
  intros segs. f_equal.
  assert (Hz : BatchFacts.zipFinal segs
                 (map (fun _ => Throw (newError
                          (js "API Key not found in environment variables")))
                      (map text segs))
               = map (withStatus error) segs).
  { unfold BatchFacts.zipFinal.
    induction segs as [|seg segs IH]; [reflexivity|].
    cbn [map combine fst snd]. now rewrite IH. }
  rewrite Hz. now destruct segs.
Qed.

(** X12.  The requests of a batch come segment by segment, in the order of
    the script: for each segment an initial part (of zero to three
    requests) of the three prompt variants of its own cleaned text.  In
    particular a batch of n segments issues at most 3 n requests. *)
Theorem handleGenerateScenes_requests (key : option jsstring)
        (script : jsstring) (config : VoiceConfig) (w : world) (st : AppState) :
  let out := handleGenerateScenes generateContent atob dateNow key script config
               (w, st) in
  let texts := map Clean.trim (rawSegments script) in
  exists ks, List.length ks = List.length texts /\
    Forall (fun k => (k <= 3)%nat) ks /\
    SynthFacts.requests (Synth.trace (fst out))
    = SynthFacts.requests (Synth.trace w) ++ groups config ks texts /\
    (List.length (SynthFacts.requests (Synth.trace (fst out)))
     <= List.length (SynthFacts.requests (Synth.trace w))
        + 3 * List.length texts)%nat.
Proof.
  intros out texts.
  assert (Hbound : forall ks ts, List.length ks = List.length ts ->
            Forall (fun k => (k <= 3)%nat) ks ->
            (List.length (groups config ks ts) <= 3 * List.length ts)%nat).
  { intros ks. induction ks as [|k ks IH]; intros [|t ts] Hl Hks;
      try discriminate; [cbn; lia|].
    inversion Hks as [|? ? Hk Hks']; subst.
    unfold groups. cbn [combine map List.concat fst snd].
    rewrite length_app, length_firstn. fold (groups config ks ts).
    specialize (IH ts (f_equal pred Hl) Hks'). cbn [List.length]. lia. }
  destruct (rawSegments script) as [|t raw] eqn:Hraw.
  - exists []. unfold out, handleGenerateScenes. rewrite Hraw.
    cbn. rewrite app_nil_r. repeat split; [constructor|lia].
  - unfold out. rewrite handleGenerateScenes_fields by (rewrite Hraw; discriminate).
    cbn [fst]. rewrite BatchFacts.mapIndexed_text, Hraw. fold texts.
    destruct (synthAll_requests key config texts w) as (ks & Hlen & Hks & Hreq).
    exists ks. split; [exact Hlen|]. split; [exact Hks|]. split; [exact Hreq|].
    rewrite Hreq, length_app. specialize (Hbound ks texts Hlen Hks). lia.
Qed.

End WithRemote.

Lemma handleGenerateScenes_without_key_witness :
  handleGenerateScenes (SynthFacts.flaky 0) Base64.atob (fun _ => 1700000000000%Z)
    (Some []) BatchFacts.twoLines SynthFacts.defaultConfig
    (SynthFacts.start, BatchFacts.idleApp)
  = (SynthFacts.start,
     {| isGenerating := false; errorMessage := None;
        displayedAudio := None; activeVideoUrl := None;
        segments :=
          [ {| segId := (1700000000000%Z, 0%nat); text := js "Once upon a time";
               audioBuffer := None; videoUrl := None; status := error;
               videoStatus := idle |};
            {| segId := (1700000000000%Z, 1%nat); text := js "The end";
               audioBuffer := None; videoUrl := None; status := error;
               videoStatus := idle |} ] |}).
Proof.
  apply (handleGenerateScenes_without_key nat (SynthFacts.flaky 0) Base64.atob
           (fun _ => 1700000000000%Z) (Some []) BatchFacts.twoLines
           SynthFacts.defaultConfig SynthFacts.start BatchFacts.idleApp).
  - now right.
  - discriminate.
Defined.

End DriverFacts.

(** ** Sessions of the player *)

Module SessionFacts.

Import Audio Player.
Local Open Scope Q_scope.











End SessionFacts.

(** ** The samples the waveform looks at *)

Module WindowFacts.

Import Audio Waveform.
Local Open Scope Z_scope.

(** [data[k]], [None] standing for [undefined]. *)
Definition datumAt (data : list Q) (k : Z) : option Q :=
  if k <? 0 then None else nth_error data (Z.to_nat k).

Lemma window_ext (data data' : list Q) (start : Z) (step : nat) :
  forall (j : Z) (mm : Q * Q),
    (forall j', j <= j' < j + Z.of_nat step ->
                datumAt data (start + j') = datumAt data' (start + j')) ->
    window data start step j mm = window data' start step j mm.
Proof.
  induction step as [|step IH]; intros j [lo hi] H; [reflexivity|].
  cbn [window].
  pose proof (H j ltac:(lia)) as Hj. unfold datumAt in Hj. rewrite Hj.
  apply IH. intros j' Hj'. apply H. lia.
Qed.

Lemma bar_ext (data data' : list Q) (step : Z) (height : Q) (i : Z) :
  (forall k, i * step <= k < i * step + step -> datumAt data k = datumAt data' k) ->
  bar data step height i = bar data' step height i.
Proof.
  intros H. unfold bar.
  rewrite (window_ext data data' (i * step) (Z.to_nat step) 0 (1%Q, (- (1))%Q)).
  - reflexivity.
  - intros j' Hj'. apply H. lia.
Qed.

Lemma bars_ext (data data' : list Q) (step width : Z) (height : Q) (fuel : nat) :
  forall i, 0 <= i -> i mod 3 = 0 ->
    (forall k, 0 <= k -> (k / step) mod 3 = 0 -> datumAt data k = datumAt data' k) ->
    bars fuel data step width height i = bars fuel data' step width height i.
Proof.
  induction fuel as [|fuel IH]; intros i Hi Hmod H; [reflexivity|].
  cbn [bars]. destruct (i <? width); [|reflexivity].
  f_equal.
  - apply bar_ext. intros k Hk. apply H; [nia|].
    replace (k / step) with i; [exact Hmod|].
    apply (Z.div_unique k step i (k - i * step)); lia.
  - apply IH; [unfold barWidth, gap; lia| |exact H].
    unfold barWidth, gap. change (2 + 1) with (1 * 3).
    now rewrite Z.mod_add by lia.
Qed.

(** X15.  The drawing looks at one window of samples in three: with
    [step] samples per pixel, only the samples whose window index
    [k / step] is a multiple of 3 are read.  Two buffers whose first
    channels have the same length and agree on those samples are drawn
    alike, whatever the other samples are. *)
Theorem drawWaveform_reads_one_window_in_three
        (b b' : AudioBuffer) (width : Z) (height : Q) :
  let data := nth 0 (channelData b) [] in
  let data' := nth 0 (channelData b') [] in
  let step := ceilDiv (Z.of_nat (List.length data)) width in
  List.length data = List.length data' ->
  (forall k, 0 <= k -> (k / step) mod 3 = 0 ->
             nth_error data (Z.to_nat k) = nth_error data' (Z.to_nat k)) ->
  drawWaveform (Some b) width height = drawWaveform (Some b') width height.
Proof.
  intros data data' step Hlen H. unfold drawWaveform.
  fold data data'. rewrite <- Hlen. fold step.
  apply bars_ext; [lia|reflexivity|].
  intros k Hk Hmod. unfold datumAt.
  destruct (k <? 0); [reflexivity|]. now apply H.
Qed.

(** Twelve samples drawn on six pixels: windows of two samples, of which
    the first and the fourth are read. *)
Definition quiet : AudioBuffer :=
  {| sampleRate := 24000; length := 12;
     channelData := [repeat (1 # 10)%Q 12] |}.

Definition loudBetween : AudioBuffer :=
  {| sampleRate := 24000; length := 12;
     channelData :=
       [[1 # 10; 1 # 10; 1; -(1); 1; 1; 1 # 10; 1 # 10; 1; 1; -(1); 1]%Q] |}.

Lemma drawWaveform_reads_one_window_in_three_witness :
  drawWaveform (Some loudBetween) 6 48 = drawWaveform (Some quiet) 6 48 /\
  magnitudes (drawWaveform (Some loudBetween) 6 48) = [(1 # 10)%Q; (1 # 10)%Q].
Proof.
  split; [|reflexivity].
  apply (drawWaveform_reads_one_window_in_three loudBetween quiet 6 48).
  - reflexivity.
  - intros k Hk Hmod.
    change (ceilDiv (Z.of_nat
                       (List.length (nth 0 (channelData loudBetween) []))) 6)
      with 2 in Hmod.
    assert (Hcases : k = 0 \/ k = 1 \/ k = 6 \/ k = 7 \/ 12 <= k).
    { Z.to_euclidean_division_equations. lia. }
    destruct Hcases as [->|[->|[->|[->|Hbig]]]]; try reflexivity.
    transitivity (@None Q); [|symmetry];
      apply nth_error_None; cbn [nth channelData loudBetween quiet List.length repeat];
      lia.
Defined.

End WindowFacts.

(** ** The prompt of a video *)

Module VideoFacts.

Import Video.

Lemma untilClose_group (group rest : jsstring) :
  ~ In 93%N group -> forallb (fun c => negb (isLineTerminator c)) group = true ->
  untilClose (group ++ 93%N :: rest) = Some group.
Proof.
  induction group as [|a group IH]; intros Hc Hl; [reflexivity|].
  cbn [app untilClose]. cbn [forallb] in Hl. apply andb_true_iff in Hl.
  destruct Hl as [Ha Hl]. apply negb_true_iff in Ha. rewrite Ha.
  destruct (N.eqb_spec a 93) as [->|_].
  - exfalso. apply Hc. now left.
  - rewrite IH; [reflexivity| |exact Hl]. intros Hin. apply Hc. now right.
Qed.

Lemma visualMatch_skip (pre rest : jsstring) :
  ~ In 91%N pre -> visualMatch (pre ++ rest) = visualMatch rest.
Proof.
  induction pre as [|a pre IH]; intros Ho; [reflexivity|].
  cbn [app visualMatch].
  destruct (N.eqb_spec a 91) as [->|_].
  - exfalso. apply Ho. now left.
  - apply IH. intros Hin. apply Ho. now right.
Qed.

Lemma no_line_feed (s : jsstring) :
  forallb (fun c => negb (isLineTerminator c)) s = true ->
  map (fun c => if (c =? 10)%N then 32%N else c) s = s.
Proof.
  induction s as [|a s IH]; intros H; [reflexivity|].
  cbn [forallb] in H. apply andb_true_iff in H. destruct H as [Ha H].
  cbn [map]. rewrite (IH H). unfold isLineTerminator in Ha.
  destruct (a =? 10)%N; [discriminate|reflexivity].
Qed.

Lemma In_trimStart (x : N) (s : jsstring) : In x (Clean.trimStart s) -> In x s.
Proof.
  induction s as [|a s IH]; [trivial|].
  cbn [Clean.trimStart]. destruct (Clean.isSpace a); [|trivial].
  intros H. right. now apply IH.
Qed.

Lemma In_trimEnd (x : N) (s : jsstring) : In x (Clean.trimEnd s) -> In x s.
Proof.
  induction s as [|a s IH]; [trivial|].
  cbn [Clean.trimEnd]. destruct (Clean.trimEnd s) as [|r rs].
  - destruct (Clean.isSpace a); [intros []|].
    intros [H|[]]. now left.
  - intros [H|H]; [now left|]. right. now apply IH.
Qed.

Lemma In_trim (x : N) (s : jsstring) : In x (Clean.trim s) -> In x s.
Proof. intros H. now apply In_trimStart, In_trimEnd. Qed.

(** X16.  When the first [[] of the input is closed on its line, the
    prompt is what stands between it and the first []] after it, trimmed
    (the label [Visual:] included); it is replaced by the stock prompt
    when fewer than two code units are left. *)
Theorem textPrompt_direction (pre group rest : jsstring) :
  ~ In 91%N pre -> ~ In 93%N group ->
  forallb (fun c => negb (isLineTerminator c)) group = true ->
  textPrompt (pre ++ 91%N :: group ++ 93%N :: rest)
  = if (List.length (Clean.trim group) <? 2)%nat then defaultPrompt
    else Clean.trim group.
Proof.
  intros Hpre Hgroup Hline. unfold textPrompt.
  rewrite visualMatch_skip by exact Hpre.
  cbn [visualMatch]. rewrite N.eqb_refl.
  rewrite untilClose_group by assumption.
  now rewrite no_line_feed.
Qed.

Lemma textPrompt_direction_witness :
  textPrompt (js "Look! [Visual: A cute bunny (3D)] Hi friends! [Wide shot]")
  = js "Visual: A cute bunny (3D)" /\
  textPrompt (js "Hi [ ] there") = defaultPrompt.
Proof.
  split.
  - apply (textPrompt_direction (js "Look! ") (js "Visual: A cute bunny (3D)")
             (js " Hi friends! [Wide shot]")).
    + cbn. intuition discriminate.
    + cbn. intuition discriminate.
    + reflexivity.
  - apply (textPrompt_direction (js "Hi ") (js " ") (js " there")).
    + cbn. intuition discriminate.
    + cbn. intuition discriminate.
    + reflexivity.
Defined.

(** X17.  Whatever the input, the description put in the request has at
    least two code units, no line feed, and no white space at either
    end. *)
Theorem textPrompt_shape (input : jsstring) :
  (2 <= List.length (textPrompt input))%nat /\
  ~ In 10%N (textPrompt input) /\
  Clean.trim (textPrompt input) = textPrompt input.
Proof.
  unfold textPrompt.
  set (chosen := match visualMatch input with Some group => group | None => input end).
  destruct (Nat.ltb_spec
              (List.length
                 (Clean.trim (map (fun c => if (c =? 10)%N then 32%N else c) chosen)))
              2) as [Hshort|Hlong].
  - split; [cbn; lia|]. split; [|reflexivity].
    cbn. intuition discriminate.
  - split; [exact Hlong|]. split; [|apply CleanFacts.trim_idem].
    intros Hin. apply In_trim, in_map_iff in Hin.
    destruct Hin as (c & Hc & _).
    destruct (N.eqb_spec c 10); [discriminate|contradiction].
Qed.

(** *** Polling *)

Section WithRemote.

Variable Remote : Type.
Variable generateVideos : Remote -> jsstring -> Remote * result Operation.
Variable getVideosOperation : Remote -> Operation -> Remote * result Operation.
Variable fetchObjectURL : Remote -> jsstring -> Remote * result jsstring.

(** The service, asked again and again from state [s] about [operation],
    reports it done at the [n]-th refresh and not before, without
    failing: the state and the operation at that moment. *)
Fixpoint settles (n : nat) (operation : Operation) (s : Remote)
  : option (Remote * Operation) :=
  match n with
  | O => if done operation then Some (s, operation) else None
  | S n' =>
      if done operation then None
      else match getVideosOperation s operation with
           | (s', Ok operation') => settles n' operation' s'
           | (_, Throw _) => None
           end
  end.

(** One round of the loop in the trace. *)
Definition rounds (n : nat) : list event :=
  List.concat (repeat [Slept 5000; Polled] n).

Lemma poll_settles (n : nat) :
  forall (fuel : nat) (operation : Operation) (w : world Remote) s' operation',
    settles n operation (remote w) = Some (s', operation') -> (n <= fuel)%nat ->
    poll getVideosOperation fuel operation w
    = ({| remote := s'; trace := trace w ++ rounds n |}, Some (Ok operation')) /\
    done operation' = true.
Proof.
  induction n as [|n IH]; intros fuel operation w s' operation' Hs Hf.
  - cbn [settles] in Hs. destruct (done operation) eqn:E; [|discriminate].
    injection Hs as <- <-. split; [|exact E].
    destruct fuel; cbn [poll]; rewrite E; unfold rounds; cbn;
      rewrite app_nil_r; now destruct w.
  - cbn [settles] in Hs. destruct (done operation) eqn:E; [discriminate|].
    destruct fuel as [|fuel]; [lia|]. cbn [poll]. rewrite E. cbv zeta.
    change (remote (emit (Slept 5000) (remote w) w)) with (remote w).
    destruct (getVideosOperation (remote w) operation) as [s1 [op1|e]];
      [|discriminate].
    destruct (IH fuel op1 (emit Polled s1 (emit (Slept 5000) (remote w) w))
                s' operation' Hs ltac:(lia)) as [Hp Hd].
    split; [|exact Hd]. rewrite Hp. unfold emit, rounds. cbn [trace repeat List.concat].
    now rewrite <- !app_assoc.
Qed.

(** X18.  A call with a key starts one operation with the enhanced
    prompt.  When the service reports the operation done at the [n]-th
    refresh, the call has waited 5000 ms before each of the [n] refreshes
    and no more; it then downloads the link of the operation with
    [&key=] and the key appended and returns what the download gives, or,
    without a link, fails with its own message and downloads nothing. *)
Theorem generateVideoSegment_polls (n fuel : nat) (k : N) (key input : jsstring)
        (w : world Remote) s1 operation s' operation' :
  generateVideos (remote w) (enhancedPrompt input) = (s1, Ok operation) ->
  settles n operation s1 = Some (s', operation') ->
  (n <= fuel)%nat ->
  let started := trace w ++ [Started (enhancedPrompt input)] ++ rounds n in
  generateVideoSegment generateVideos getVideosOperation fetchObjectURL fuel
    (Some (k :: key)) input w
  = match uri operation' with
    | Some (c :: downloadLink) =>
        let url := (c :: downloadLink) ++ js "&key=" ++ (k :: key) in
        ({| remote := fst (fetchObjectURL s' url);
            trace := started ++ [Fetched url] |},
         Some (snd (fetchObjectURL s' url)))
    | _ =>
        ({| remote := s'; trace := started |},
         Some (Throw (newError
                        (js "Video generation completed but no URI returned."))))
    end.
Proof.
  intros Hstart Hsettle Hfuel started. unfold generateVideoSegment.
  rewrite Hstart.
  destruct (poll_settles n fuel operation
              (emit (Started (enhancedPrompt input)) s1 w) s' operation'
              Hsettle Hfuel) as [Hp _].
  assert (Ht : trace (emit (Started (enhancedPrompt input)) s1 w) ++ rounds n
               = started).
  { unfold started, emit. cbn [trace]. now rewrite <- app_assoc. }
  rewrite Ht in Hp. rewrite Hp.
  destruct (uri operation') as [[|c downloadLink]|]; try reflexivity.
  cbn [remote]. unfold emit. cbn [trace].
  destruct (fetchObjectURL s' _) as [s2 answer]. reflexivity.
Qed.

(** X19.  The loop has no bound of its own.  Against a service that
    never fails and never reports the operation done, no number of rounds
    is enough: after [fuel] rounds the call has waited [fuel] times
    5000 ms and is still polling. *)
Theorem generateVideoSegment_keeps_polling (fuel : nat) (k : N) (key input : jsstring)
        (w : world Remote) s1 operation :
  (forall s op, exists s' op', getVideosOperation s op = (s', Ok op') /\
                               done op' = false) ->
  generateVideos (remote w) (enhancedPrompt input) = (s1, Ok operation) ->
  done operation = false ->
  let run := generateVideoSegment generateVideos getVideosOperation fetchObjectURL
               fuel (Some (k :: key)) input w in
  snd run = None /\
  trace (fst run) = trace w ++ [Started (enhancedPrompt input)] ++ rounds fuel.
Proof.
  intros Hnever Hstart Hdone run.
  assert (Hpoll : forall fuel0 op (w0 : world Remote), done op = false ->
            snd (poll getVideosOperation fuel0 op w0) = None /\
            trace (fst (poll getVideosOperation fuel0 op w0))
            = trace w0 ++ rounds fuel0).
  { clear - Hnever. intros fuel0.
    induction fuel0 as [|fuel0 IH]; intros op w0 Hop.
    - cbn [poll]. rewrite Hop. cbn. now rewrite app_nil_r.
    - cbn [poll]. rewrite Hop. cbv zeta.
      change (remote (emit (Slept 5000) (remote w0) w0)) with (remote w0).
      destruct (Hnever (remote w0) op) as (s' & op' & Hq & Hop').
      rewrite Hq.
      destruct (IH op' (emit Polled s' (emit (Slept 5000) (remote w0) w0)) Hop')
        as [H1 H2].
      split; [exact H1|]. rewrite H2. unfold emit, rounds.
      cbn [trace repeat List.concat]. now rewrite <- !app_assoc. }
  unfold run, generateVideoSegment. rewrite Hstart.
  destruct (Hpoll fuel operation (emit (Started (enhancedPrompt input)) s1 w) Hdone)
    as [H1 H2].
  destruct (poll getVideosOperation fuel operation _) as [w' [r|]];
    cbn [snd fst] in *; [discriminate|].
  split; [reflexivity|]. rewrite H2. unfold emit. cbn [trace].
  now rewrite <- app_assoc.
Qed.

End WithRemote.

(** *** A service that needs a given number of refreshes *)

(** The state counts the refreshes left before the video is ready. *)
Definition slow (left : nat) (op : Operation) : nat * result Operation :=
  match left with
  | O => (O, Ok {| done := true; uri := Some (js "https://videos/1?alt=media") |})
  | S left' => (left', Ok {| done := false; uri := None |})
  end.

Definition startSlow (left : nat) (prompt : jsstring) : nat * result Operation :=
  (left, Ok {| done := false; uri := None |}).

Definition download (s : nat) (url : jsstring) : nat * result jsstring :=
  (s, Ok (js "blob:" ++ url)).

(** A service that is never done. *)
Definition stuck (s : nat) (op : Operation) : nat * result Operation :=
  (S s, Ok {| done := false; uri := None |}).

Lemma generateVideoSegment_polls_witness :
  generateVideoSegment startSlow slow download 10 (Some (js "k1")) (js "[A bunny]")
    {| remote := 2%nat; trace := [] |}
  = ({| remote := 0%nat;
        trace :=
          [ Started (js "cinematic 3d animation style, cute, colorful, for kids video, high quality, A bunny");
            Slept 5000; Polled; Slept 5000; Polled; Slept 5000; Polled;
            Fetched (js "https://videos/1?alt=media&key=k1") ] |},
     Some (Ok (js "blob:https://videos/1?alt=media&key=k1"))).
Proof.
  apply (generateVideoSegment_polls nat startSlow slow download 3 10 107 (js "1")
           (js "[A bunny]") {| remote := 2%nat; trace := [] |}
           2%nat {| done := false; uri := None |}
           0%nat {| done := true; uri := Some (js "https://videos/1?alt=media") |}).
  - reflexivity.
  - reflexivity.
  - lia.
Defined.

Lemma generateVideoSegment_keeps_polling_witness :
  let run := generateVideoSegment startSlow stuck download 4 (Some (js "k1"))
               (js "[A bunny]") {| remote := 0%nat; trace := [] |} in
  snd run = None /\
  trace (fst run)
  = [] ++ [Started (enhancedPrompt (js "[A bunny]"))] ++ rounds 4.
Proof.
  apply (generateVideoSegment_keeps_polling nat startSlow stuck download 4 107
           (js "1") (js "[A bunny]") {| remote := 0%nat; trace := [] |}
           0%nat {| done := false; uri := None |}).
  - intros s op. exists (S s), {| done := false; uri := None |}. now split.
  - reflexivity.
  - reflexivity.
Defined.

End VideoFacts.

(** ** The list of custom voices *)

Module VoiceLabFacts.

Import VoiceLab.

(** No stored voice carries an identifier inside its configuration, and
    the identifier of the current configuration, if it has one, is that
    of a listed voice. *)
Definition consistent (st : LabState) : Prop :=
  Forall (fun v => id (config v) = None) (customVoices st) /\
  match id (current st) with
  | Some i => exists v, In v (customVoices st) /\ voiceId v = i
  | None => True
  end.

Lemma sameString_eq (a b : jsstring) : sameString a b = true <-> a = b.
Proof.
  unfold sameString. destruct (list_eq_dec N.eq_dec a b); split;
    congruence.
Qed.

Lemma sameString_refl (a : jsstring) : sameString a a = true.
Proof. now apply sameString_eq. Qed.

Lemma act_consistent (st : LabState) (a : action) :
  consistent st -> consistent (act st a).
Proof.
  intros [Hstored Hsel]. destruct a as [now nm|n|i|g|a|t|n|x]; cbn [act].
  - unfold handleSaveVoice. destruct (Clean.trim nm); [now split|].
    split; cbn [customVoices current].
    + apply Forall_app. split; [exact Hstored|]. now repeat constructor.
    + destruct (id (current st)); [|exact I].
      destruct Hsel as (v & Hin & Hv). exists v. split; [|exact Hv].
      apply in_or_app. now left.
  - destruct (nth_error (customVoices st) n) as [voice|] eqn:E; [|now split].
    split; [exact Hstored|]. cbn [handleCustomVoiceSelect current withId id].
    exists voice. split; [|reflexivity]. now apply nth_error_In in E.
  - split; cbn [handleDeleteVoice customVoices current].
    + rewrite Forall_forall in *. intros v Hv. apply filter_In in Hv.
      now apply Hstored.
    + destruct (id (current st)) as [j|] eqn:Ej; [|now rewrite Ej].
      destruct (sameString j i) eqn:Eji; [exact I|]. rewrite Ej.
      destruct Hsel as (v & Hin & Hv). exists v. split; [|exact Hv].
      apply filter_In. split; [exact Hin|]. now rewrite Hv, Eji.
  - now split.
  - now split.
  - now split.
  - now split.
  - now split.
Qed.

Lemma run_consistent (actions : list action) :
  forall st, consistent st -> consistent (run actions st).
Proof.
  unfold run. induction actions as [|a actions IH]; intros st H; [exact H|].
  cbn [fold_left]. now apply IH, act_consistent.
Qed.

(** X20.  Whatever the user does with the voice controls, starting from
    the initial state of the application: no stored voice carries an
    identifier inside its configuration, and whenever the current
    configuration has an identifier, a voice with that identifier is
    listed.  In particular the current configuration never points at a
    deleted voice. *)
Theorem voices_consistent (actions : list action) :
  let st := run actions initial in
  Forall (fun v => id (config v) = None) (customVoices st) /\
  match id (current st) with
  | Some i => exists v, In v (customVoices st) /\ voiceId v = i
  | None => True
  end.
Proof.
  apply (run_consistent actions initial). split; [constructor|exact I].
Qed.

Lemma filter_fresh (now : jsstring) (l : list CustomVoice) :
  Forall (fun v => voiceId v <> now) l ->
  filter (fun v => negb (sameString (voiceId v) now)) l = l.
Proof.
  induction 1 as [|v l Hv _ IH]; [reflexivity|].
  cbn [filter]. destruct (sameString (voiceId v) now) eqn:E.
  - apply sameString_eq in E. contradiction.
  - cbn [negb]. now rewrite IH.
Qed.

(** X21.  Saving the current settings under a name that is not blank,
    with an identifier no listed voice has, then selecting the new voice
    (the last of the list), gives the settings back with that identifier;
    deleting it then restores the list and leaves the settings without
    identifier. *)
Theorem save_select_delete (now newVoiceName : jsstring) (st : LabState) :
  Clean.trim newVoiceName <> [] ->
  Forall (fun v => voiceId v <> now) (customVoices st) ->
  let saved := handleSaveVoice now newVoiceName st in
  let selected := act saved (Select (List.length (customVoices st))) in
  customVoices saved
  = customVoices st ++ [{| voiceId := now; name := newVoiceName;
                           config := withId None (current st) |}] /\
  current selected = withId (Some now) (current st) /\
  handleDeleteVoice now selected
  = {| customVoices := customVoices st; current := withId None (current st) |}.
Proof.
  intros Hname Hfresh saved selected.
  assert (Hsaved : saved
            = {| customVoices :=
                   customVoices st ++ [{| voiceId := now; name := newVoiceName;
                                          config := withId None (current st) |}];
                 current := current st |}).
  { unfold saved, handleSaveVoice.
    destruct (Clean.trim newVoiceName); [contradiction|reflexivity]. }
  assert (Hsel : selected
            = {| customVoices := customVoices saved;
                 current := withId (Some now) (current st) |}).
  { unfold selected. cbn [act]. rewrite Hsaved. cbn [customVoices].
    rewrite nth_error_app2 by lia. rewrite Nat.sub_diag. reflexivity. }
  split; [now rewrite Hsaved|]. split; [now rewrite Hsel|].
  rewrite Hsel, Hsaved. unfold handleDeleteVoice.
  cbn [customVoices current withId id]. rewrite sameString_refl.
  rewrite filter_app, (filter_fresh now _ Hfresh). cbn [filter voiceId].
  rewrite sameString_refl. cbn [negb]. now rewrite app_nil_r.
Qed.

Lemma save_select_delete_witness :
  let saved := handleSaveVoice (js "1700000000000") (js "Robot") initial in
  let selected := act saved (Select 0) in
  customVoices saved
  = [{| voiceId := js "1700000000000"; name := js "Robot";
        config := withId None (current initial) |}] /\
  current selected = withId (Some (js "1700000000000")) (current initial) /\
  handleDeleteVoice (js "1700000000000") selected
  = {| customVoices := []; current := withId None (current initial) |}.
Proof.
  apply (save_select_delete (js "1700000000000") (js "Robot") initial).
  - discriminate.
  - constructor.
Defined.

End VoiceLabFacts.

(** ** A segment with its direction *)

Module SceneFacts.

(** X22.  A segment that opens with a direction in square brackets is
    split between the two services: the voice is given the text that
    follows the direction, cleaned as if the direction were not there, and
    the video is given the direction itself, trimmed (or the stock prompt
    when fewer than two code units are left). *)
Theorem direction_is_for_the_video (group spoken : jsstring) :
  ~ In 93%N group ->
  forallb (fun c => negb (Video.isLineTerminator c)) group = true ->
  Clean.cleanText (91%N :: group ++ 93%N :: spoken) = Clean.cleanText spoken /\
  Video.textPrompt (91%N :: group ++ 93%N :: spoken)
  = if (List.length (Clean.trim group) <? 2)%nat then Video.defaultPrompt
    else Clean.trim group.
Proof.
  intros Hgroup Hline. split.
  - unfold Clean.cleanText. f_equal. f_equal. f_equal. f_equal.
    unfold Clean.stripBrackets, Clean.stripSpan. cbn [Clean.stripSpanFrom].
    rewrite N.eqb_refl, VoiceoverFacts.occurs_closing. cbn [andb].
    now apply VoiceoverFacts.stripSpanFrom_inside.
  - unfold Video.textPrompt. cbn [Video.visualMatch]. rewrite N.eqb_refl.
    rewrite VideoFacts.untilClose_group by assumption.
    now rewrite VideoFacts.no_line_feed.
Qed.

Lemma direction_is_for_the_video_witness :
  Clean.cleanText (js "[Visual: A cute bunny (3D)] Hi *friends*!") = js "Hi friends!" /\
  Video.textPrompt (js "[Visual: A cute bunny (3D)] Hi *friends*!")
  = js "Visual: A cute bunny (3D)".
Proof.
  apply (direction_is_for_the_video (js "Visual: A cute bunny (3D)")
           (js " Hi *friends*!")).
  - cbn. intuition discriminate.
  - reflexivity.
Defined.

End SceneFacts.
